(** * Image Flow Editor: workflow scheduler, Gemini service and runner

    A shallow embedding of the scheduling and execution core of the
    image-flow-editor application:

    - [Scheduler]: [getExecutionOrder] of [App.tsx] (Kahn's algorithm over
      the nodes and connections drawn in the flow editor);
    - [Gemini]: [setApiKey], [attemptGenerate] and [editImage] of the
      Gemini service (retry with backoff, model failover);
    - [App]: [executeWorkflow] of [App.tsx] (image by image, step by
      step, with logging, cancellation and stop on first error). *)

From stdpp Require Import gmap strings list fin_maps.
From Stdlib Require Import ZArith Lia QArith_base.
From Stdlib Require Ascii.
Import Stdlib.Strings.Ascii.

Open Scope string_scope.
Open Scope list_scope.
Open Scope nat_scope.

(** ** Data model ([types.ts]) *)

Inductive StepType := PREBUILT | CUSTOM.

Record WorkflowNode := mkNode {
  id : string;
  type : StepType;
  prompt : string;
  name : string;
  position : Z * Z;
}.

Record Connection := mkConn {
  conn_id : string;
  fromNodeId : string;
  toNodeId : string;
}.

Record ImageFile := mkImage {
  image_id : string;
  file_name : string;          (* [file.name] *)
  dataUrl : string;
}.

(** [OutputImage] without its [id], a fresh [crypto.randomUUID()]. *)
Record OutputImage := mkOutput {
  originalImageId : string;
  originalFileName : string;
  output_dataUrl : string;
}.

(** [status: 'success' | 'failure'] *)
Inductive Status := StatusSuccess | StatusFailure.

(** The argument of [addLogEntry]: an [OperationLog] without the [id] and
    [timestamp] that [addLogEntry] draws from [crypto.randomUUID()] and
    [Date.now()]. *)
Record OperationLog := mkLog {
  imageName : string;
  nodeName : string;
  status : Status;
  cost : Q;
  credits : Z;
}.

Global Instance StepType_eq_dec : EqDecision StepType.
Proof. solve_decision. Defined.
Global Instance WorkflowNode_eq_dec : EqDecision WorkflowNode.
Proof. solve_decision. Defined.
Global Instance Connection_eq_dec : EqDecision Connection.
Proof. solve_decision. Defined.

(** ** The scheduler: [getExecutionOrder] *)

Module Scheduler.

(** The three maps the function builds: adjacency lists, in-degrees and
    the id-to-node map. *)
Record Tables := mkTables {
  adj : gmap string (list string);
  inDegree : gmap string nat;
}.

(** [nodes.forEach(node => { adj.set(node.id, []); inDegree.set(node.id, 0) })] *)
Definition initNode (t : Tables) (node : WorkflowNode) : Tables :=
  mkTables (<[id node := []]> (adj t)) (<[id node := 0]> (inDegree t)).

(** [adj.get(conn.fromNodeId)?.push(conn.toNodeId);
     inDegree.set(conn.toNodeId, (inDegree.get(conn.toNodeId) || 0) + 1)] *)
Definition addConnection (t : Tables) (conn : Connection) : Tables :=
  mkTables
    (match adj t !! fromNodeId conn with
     | Some targets => <[fromNodeId conn := targets ++ [toNodeId conn]]> (adj t)
     | None => adj t
     end)
    (<[toNodeId conn := default 0 (inDegree t !! toNodeId conn) + 1]> (inDegree t)).

Definition buildTables (nodes : list WorkflowNode) (connections : list Connection) : Tables :=
  foldl addConnection (foldl initNode (mkTables ∅ ∅) nodes) connections.

(** [new Map(nodes.map(n => [n.id, n]))]: a later node with the same id
    replaces an earlier one. *)
Definition buildNodeMap (nodes : list WorkflowNode) : gmap string WorkflowNode :=
  foldl (fun m n => <[id n := n]> m) ∅ nodes.

(** [nodes.filter(node => inDegree.get(node.id) === 0).map(node => node.id)] *)
Definition initialQueue (nodes : list WorkflowNode) (deg : gmap string nat) : list string :=
  id <$> filter (fun node => deg !! id node = Some 0) nodes.

(** [(inDegree.get(v) || 1) - 1]: a missing or zero entry counts as 1. *)
Definition decremented (deg : gmap string nat) (v : string) : nat :=
  match deg !! v with
  | Some (S n) => n
  | _ => 0
  end.

(** The inner [for (const v of adj.get(u) || [])] loop. *)
Fixpoint relax (targets : list string) (deg : gmap string nat) (queue : list string)
  : gmap string nat * list string :=
  match targets with
  | [] => (deg, queue)
  | v :: rest =>
      let deg' := <[v := decremented deg v]> deg in
      let queue' := if decide (deg' !! v = Some 0) then queue ++ [v] else queue in
      relax rest deg' queue'
  end.

(** The [while (queue.length > 0)] loop.  The loop of the source has no
    bound of its own, so the model carries fuel: [None] means the fuel ran
    out before the queue emptied. *)
Fixpoint drain (fuel : nat) (adjacency : gmap string (list string))
    (nodeMap : gmap string WorkflowNode)
    (queue : list string) (deg : gmap string nat) (sortedOrder : list WorkflowNode)
  : option (list WorkflowNode) :=
  match queue with
  | [] => Some sortedOrder
  | u :: rest =>
      match fuel with
      | O => None
      | S fuel' =>
          let sortedOrder' :=
            match nodeMap !! u with
            | Some node => sortedOrder ++ [node]
            | None => sortedOrder
            end in
          let '(deg', queue') := relax (default [] (adjacency !! u)) deg rest in
          drain fuel' adjacency nodeMap queue' deg' sortedOrder'
      end
  end.

(** The message passed to [setError] when the order is incomplete. *)
Definition cycleMessage : string :=
  "Workflow has a cycle or is disconnected. Please ensure all nodes form a single, valid flow from start to end.".

(** What the function does: it returns the order ([Ordered]), or calls
    [setError] with [cycleMessage] and returns [null] ([Invalid]). *)
Inductive OrderResult :=
  | Ordered (sortedOrder : list WorkflowNode)
  | Invalid.

Global Instance OrderResult_eq_dec : EqDecision OrderResult.
Proof. solve_decision. Defined.

Definition getExecutionOrder (fuel : nat)
    (nodes : list WorkflowNode) (connections : list Connection)
  : option OrderResult :=
  match nodes with
  | [] => Some (Ordered [])
  | _ =>
      let t := buildTables nodes connections in
      let nodeMap := buildNodeMap nodes in
      let queue := initialQueue nodes (inDegree t) in
      sortedOrder ← drain fuel (adj t) nodeMap queue (inDegree t) [];
      if decide (length sortedOrder ≠ length nodes)
      then Some Invalid
      else Some (Ordered sortedOrder)
  end.

(** Fuel that is enough whenever the node ids are distinct: every id in
    the in-degree table is dequeued at most once. *)
Definition enoughFuel (nodes : list WorkflowNode) (connections : list Connection) : nat :=
  S (length nodes + length connections).

(** *** Concrete graphs *)

Definition step (i : string) : WorkflowNode := mkNode i CUSTOM ("prompt " +:+ i) ("step " +:+ i) (0, 0)%Z.
Definition edge (a b : string) : Connection := mkConn (a +:+ "->" +:+ b) a b.

(** *** Graph vocabulary used by the statements *)

Definition endpoints (c : Connection) : string * string := (fromNodeId c, toNodeId c).

(** Targets of the connections leaving [k], in connection order. *)
Definition successors (connections : list Connection) (k : string) : list string :=
  toNodeId <$> filter (fun c => fromNodeId c = k) connections.

(** Number of connections entering [k]. *)
Definition edgesInto (connections : list Connection) (k : string) : nat :=
  length (filter (fun c => toNodeId c = k) connections).

(** The edges of the chain [a1 -> a2 -> ... -> an]. *)
Fixpoint chainEdges (l : list string) : list (string * string) :=
  match l with
  | a :: (b :: _) as t => (a, b) :: chainEdges t
  | _ => []
  end.

(** [nodes] and [connections] form the single chain [chain]: the steps of
    [chain] have distinct ids, [nodes] lists exactly these steps in any
    insertion order, and [connections] lists exactly the edges between
    consecutive steps, in any insertion order. *)
Record SingleChain (nodes : list WorkflowNode) (connections : list Connection)
    (chain : list WorkflowNode) : Prop := {
  chain_distinct : NoDup (id <$> chain);
  chain_steps : chain ≡ₚ nodes;
  chain_links : endpoints <$> connections ≡ₚ chainEdges (id <$> chain);
}.

(** The adjacency table links every id of [l] to the next one only. *)
Fixpoint linked (adjacency : gmap string (list string)) (l : list string) : Prop :=
  match l with
  | [] => True
  | a :: t =>
      adjacency !! a = Some (match t with [] => [] | b :: _ => [b] end)
      ∧ linked adjacency t
  end.

(** [a] occurs at an earlier position of [order] than [b]. *)
Definition precedes (order : list WorkflowNode) (a b : string) : Prop :=
  ∃ i j, i < j ∧ (id <$> order) !! i = Some a ∧ (id <$> order) !! j = Some b.

(** Number of times [v] occurs in [l]. *)
Definition occurrences (v : string) (l : list string) : nat :=
  length (filter (fun x => x = v) l).

(** Number of connections entering [v] whose source is a node id that has
    already been dequeued (the list [popped]). *)
Definition processed (nodes : list WorkflowNode) (connections : list Connection)
    (popped : list string) (v : string) : nat :=
  length (filter (fun c => toNodeId c = v ∧ fromNodeId c ∈ popped
                           ∧ fromNodeId c ∈ id <$> nodes) connections).

(** The ids that have an entry in the in-degree table. *)
Definition tracked (nodes : list WorkflowNode) (connections : list Connection)
    (v : string) : Prop :=
  v ∈ id <$> nodes ∨ v ∈ toNodeId <$> connections.

(** The state of the [while] loop between two iterations: [popped] are the
    ids dequeued so far, in order. *)
Record LoopInv (nodes : list WorkflowNode) (connections : list Connection)
    (popped queue : list string) (deg : gmap string nat) : Prop := {
  inv_distinct : NoDup (popped ++ queue);
  inv_degree : ∀ v, deg !! v =
    if decide (tracked nodes connections v)
    then Some (edgesInto connections v - processed nodes connections popped v)
    else None;
  inv_ready : ∀ v, v ∈ popped ++ queue ↔ deg !! v = Some 0;
}.

(** There is a connection from [a] to [b]. *)
Definition connected (connections : list Connection) (a b : string) : Prop :=
  ∃ c, c ∈ connections ∧ fromNodeId c = a ∧ toNodeId c = b.

(** Step [v] lies on a cycle of connections. *)
Definition onCycle (connections : list Connection) (v : string) : Prop :=
  tc (connected connections) v v.

(** Sources of the connections entering [v], in connection order. *)
Definition sources (connections : list Connection) (v : string) : list string :=
  fromNodeId <$> filter (fun c => toNodeId c = v) connections.

(** Ties broken by the insertion order of the steps: two steps released
    by the same sources keep, in [order], the relative position they have
    in [nodes]. *)
Definition tieBreakByInsertion (nodes : list WorkflowNode)
    (connections : list Connection) (order : list WorkflowNode) : Prop :=
  ∀ a b, a ∈ nodes → b ∈ nodes →
    sources connections (id a) ≡ₚ sources connections (id b) →
    precedes nodes (id a) (id b) → precedes order (id a) (id b).

(** A fan-out: [A] releases [B] and [C] together; [C] was inserted
    before [B], the connection to [B] before the one to [C]. *)
Definition fanOutNodes : list WorkflowNode := [step "A"; step "C"; step "B"].
Definition fanOutConnections : list Connection := [edge "A" "B"; edge "A" "C"].

(** A two-step chain and a third step that no connection touches. *)
Definition strayNodes : list WorkflowNode := [step "A"; step "B"; step "C"].
Definition strayConnections : list Connection := [edge "A" "B"].

(** A three-step chain whose steps and connections were inserted out of
    order. *)
Definition shuffledNodes : list WorkflowNode := [step "C"; step "A"; step "B"].
Definition shuffledConnections : list Connection := [edge "B" "C"; edge "A" "B"].
Definition shuffledChain : list WorkflowNode := [step "A"; step "B"; step "C"].

(** A two-step cycle. *)
Definition loopNodes : list WorkflowNode := [step "A"; step "B"].
Definition loopConnections : list Connection := [edge "A" "B"; edge "B" "A"].

(** Consecutive ids of [l] are joined by connections. *)
Fixpoint walk (connections : list Connection) (l : list string) : Prop :=
  match l with
  | a :: (b :: _) as t => connected connections a b ∧ walk connections t
  | _ => True
  end.

(** In [popped], the source of every connection that enters a member
    stands before that member. *)
Definition sourcesFirst (connections : list Connection) (popped : list string) : Prop :=
  ∀ c, c ∈ connections → toNodeId c ∈ popped →
    ∃ i j, i < j ∧ popped !! i = Some (fromNodeId c) ∧ popped !! j = Some (toNodeId c).

(** A diamond: [A] releases [B] and [C], which both release [D]. *)
Definition diamondNodes : list WorkflowNode := [step "D"; step "C"; step "B"; step "A"].
Definition diamondConnections : list Connection :=
  [edge "B" "D"; edge "A" "B"; edge "A" "C"; edge "C" "D"].

End Scheduler.

(** ** Strings as the service reads them

    Messages are sequences of code units below 256; the regular
    expressions of the service only ever look for ASCII characters. *)

Module Text.

Definition code (c : ascii) : nat := nat_of_ascii c.

(** The string made of one double quote (code unit 34). *)
Definition doubleQuote : string := String (ascii_of_nat 34) EmptyString.

(** [\d] *)
Definition isDigit (c : ascii) : bool := (48 <=? code c) && (code c <=? 57).

(** [\s] on code units below 256: tab, line feed, vertical tab, form feed,
    carriage return, space and no-break space. *)
Definition isSpace (c : ascii) : bool :=
  ((9 <=? code c) && (code c <=? 13)) || (code c =? 32) || (code c =? 160).

(** Line terminators, which [.] does not match. *)
Definition isLineTerminator (c : ascii) : bool := (code c =? 10) || (code c =? 13).

(** Canonical form of a character under the [i] flag. *)
Definition fold (c : ascii) : ascii :=
  if (97 <=? code c) && (code c <=? 122) then ascii_of_nat (code c - 32) else c.

Definition sameChar (a b : ascii) : bool := Ascii.eqb (fold a) (fold b).


(** [stripPrefix ci p s]: what follows [p] when [s] starts with [p]
    (ignoring case when [ci] is set). *)
Fixpoint stripPrefix (ci : bool) (p s : string) : option string :=
  match p, s with
  | EmptyString, _ => Some s
  | String a p', String b s' =>
      if (if ci then sameChar a b else Ascii.eqb a b) then stripPrefix ci p' s' else None
  | String _ _, EmptyString => None
  end.

(** A regular expression is tried at every position, left to right, the
    end of the string included: [firstMatch matchAt s] is the result at the
    first position where [matchAt] succeeds on the rest of the string. *)
Fixpoint firstMatch {A} (matchAt : string → option A) (s : string) : option A :=
  match matchAt s with
  | Some a => Some a
  | None =>
      match s with
      | EmptyString => None
      | String _ s' => firstMatch matchAt s'
      end
  end.

(** [includes ci p s]: [p] occurs somewhere in [s]. *)
Definition includes (ci : bool) (p s : string) : bool :=
  match firstMatch (stripPrefix ci p) s with
  | Some _ => true
  | None => false
  end.




(** Longest prefix of characters satisfying [f], and the rest. *)
Fixpoint span (f : ascii → bool) (s : string) : string * string :=
  match s with
  | EmptyString => (EmptyString, EmptyString)
  | String c s' =>
      if f c then let '(taken, rest) := span f s' in (String c taken, rest)
      else (EmptyString, s)
  end.

Fixpoint all (f : ascii → bool) (s : string) : bool :=
  match s with
  | EmptyString => true
  | String c s' => f c && all f s'
  end.

(** [pre] and [post] such that [s = pre ++ sep ++ post], for the first
    occurrence of [sep]. *)
Fixpoint splitAt (sep s : string) : option (string * string) :=
  match stripPrefix false sep s with
  | Some post => Some (EmptyString, post)
  | None =>
      match s with
      | EmptyString => None
      | String c s' =>
          '(pre, post) ← splitAt sep s'; Some (String c pre, post)
      end
  end.

(** A string is falsy exactly when it is empty. *)
Definition truthy (s : string) : bool :=
  match s with EmptyString => false | _ => true end.

(** [s.trimStart()], [s.trimEnd()] and [s.trim()] on code units below
    256, where the white space and the line terminators that they strip
    are the characters of [isSpace]. *)
Fixpoint trimStart (s : string) : string :=
  match s with
  | String c s' => if isSpace c then trimStart s' else s
  | EmptyString => EmptyString
  end.

Fixpoint trimEnd (s : string) : string :=
  match s with
  | EmptyString => EmptyString
  | String c s' =>
      match trimEnd s' with
      | EmptyString => if isSpace c then EmptyString else String c EmptyString
      | t => String c t
      end
  end.

Definition trim (s : string) : string := trimEnd (trimStart s).

(** [s.startsWith(p)] *)
Definition startsWith (p s : string) : bool :=
  match stripPrefix false p s with Some _ => true | None => false end.

(** [Number.isNaN(parseFloat(s))].  [parseFloat] skips leading white
    space and reads the longest prefix that is a decimal literal: an
    optional sign, then [Infinity], or digits, or a dot and digits, with
    an optional fraction and exponent.  The result is [NaN] exactly when
    there is no such prefix. *)
Definition parseFloatIsNaN (s : string) : bool :=
  let unsigned :=
    match trimStart s with
    | String "+"%char rest | String "-"%char rest => rest
    | rest => rest
    end in
  match unsigned with
  | String c rest =>
      negb (isDigit c
            || (Ascii.eqb c "."%char
                && match rest with String d _ => isDigit d | EmptyString => false end)
            || startsWith "Infinity" unsigned)
  | EmptyString => true
  end.

End Text.

(** ** The Gemini service: [setApiKey], [attemptGenerate], [editImage] *)

Module Gemini.
Import Text.

(** A delay in milliseconds, as the service computes it.  A delay taken
    from the error text is kept as the captured text: [FromServer s] is the
    number [Math.round(parseFloat(s) * 1000)]; [Millis ms] is the integer
    [ms]. *)
Inductive Delay :=
  | FromServer (seconds : string)
  | Millis (ms : Z).

(** [Number.isNaN(delay)]: [Math.round(x * 1000)] is [NaN] exactly when
    [x] is. *)
Definition delayIsNaN (delay : Delay) : bool :=
  match delay with
  | FromServer seconds => parseFloatIsNaN seconds
  | Millis _ => false
  end.

(** An entry of [modelFailures]: [{ reason, details }]. *)
#[warnings="-register-all"]
Inductive ModelFailure :=
  | mkFailure (reason : string) (details : option (list (string * ModelFailure))).

(** Thrown values: [new Error(message)], [new QuotaError(message,
    { modelFailures })], or a value that is not an [Error], [String] of
    which is [text]. *)
Inductive Thrown :=
  | Error (message : string)
  | QuotaError (message : string) (modelFailures : list (string * ModelFailure))
  | Value (text : string).

(** The request of one [generateContent] call. *)
Record Request := mkRequest {
  model : string;
  data : string;
  mimeType : string;
  text : string;
}.

(** What the service reads of a [GenerateContentResponse]. *)
Record Blob := mkBlob { blob_mimeType : option string; blob_data : option string }.
Record Part := mkPart { inlineData : option Blob }.
Record Candidate := mkCandidate {
  parts : option (list Part);            (* [content?.parts] *)
  finishReason : option string;
}.
Record GenerateContentResponse := mkResponse {
  candidates : option (list Candidate);
  blockReason : option string;           (* [promptFeedback?.blockReason] *)
}.

(** One [generateContent] call resolves with a response or rejects. *)
Inductive CallOutcome :=
  | Responds (response : GenerateContentResponse)
  | Fails (error : Thrown).

(** What the service does that can be observed from outside. *)
Inductive Event :=
  | EvGenerate (request : Request)
  | EvRetry (attempt : nat) (delay : Delay) (model : string)   (* [onRetry] called *)
  | EvSleep (delay : Delay).

Record AttemptResult := mkAttempt { success : bool; result : option string }.

Inductive Outcome (A : Type) :=
  | Ok (a : A)
  | Throw (e : Thrown).
Arguments Ok {A} a.
Arguments Throw {A} e.

Definition MAX_RETRIES : nat := 3.
Definition INITIAL_DELAY_MS : Z := 1000.
Definition MAX_DELAY_MS : Z := 30000.

Definition MODEL_PREFERENCES : list string :=
  [ "gemini-2.0-flash-preview-image-generation";
    "gemini-2.5-flash-image-preview";
    "gemini-2.1-image-preview";
    "gemini-1.5-preview-image" ].

(** *** Pure helpers *)

(** The regular expression of [parseDataUrl] wants [data:], a shortest run
    of characters, [;base64,] and a run of characters up to the end of the
    string.  So the mime type is what precedes the first [;base64,], and
    nothing after [data:] may be a line terminator. *)
Definition parseDataUrl (dataUrl : string) : option (string * string) :=
  rest ← stripPrefix false "data:" dataUrl;
  if all (fun c => negb (isLineTerminator c)) rest
  then '(mime, base64) ← splitAt ";base64," rest; Some (base64, mime)
  else None.

(** [error instanceof Error ? error.message : String(error)] *)
Definition messageOf (error : Thrown) : string :=
  match error with
  | Error m | QuotaError m _ => m
  | Value t => t
  end.

(** [/quota|429|Too Many Requests|RESOURCE_EXHAUSTED|Quota exceeded/i.test(msg)] *)
Definition isQuota (msg : string) : bool :=
  includes true "quota" msg
  || includes true "429" msg
  || includes true "Too Many Requests" msg
  || includes true "RESOURCE_EXHAUSTED" msg
  || includes true "Quota exceeded" msg.

(** The character after a number must be [s] (or [S], under the [i] flag). *)
Definition secondsSuffix (s : string) : bool :=
  match s with
  | String c _ => sameChar c "s"%char
  | EmptyString => false
  end.

(** The group [\d+(\.\d+)?] followed by [s], at the start of [s]: the
    digits, then either a fraction followed by [s], or [s] at once.  The
    result is the text of the group. *)
Definition matchSeconds (s : string) : option string :=
  let '(whole, rest) := span isDigit s in
  if truthy whole then
    match rest with
    | String "."%char rest' =>
        let '(fraction, rest'') := span isDigit rest' in
        if truthy fraction && secondsSuffix rest''
        then Some (whole +:+ "." +:+ fraction)
        else None
    | _ => if secondsSuffix rest then Some whole else None
    end
  else None.

(** The first expression, [retry in ] then the seconds then [s], ignoring
    case, tried at the start of [s]. *)
Definition matchRetryIn (s : string) : option string :=
  rest ← stripPrefix true "retry in " s; matchSeconds rest.

(** The group of the second expression followed by [s], at the start of
    [s]: an optional backslash, digits, an optional dot, optional digits. *)
Definition matchDelayValue (s : string) : option string :=
  let '(slash, s1) :=
    match s with
    | String "\"%char s' => ("\", s')
    | _ => ("", s)
    end in
  let '(whole, rest) := span isDigit s1 in
  if truthy whole then
    match rest with
    | String "."%char rest' =>
        let '(fraction, rest'') := span isDigit rest' in
        if secondsSuffix rest''
        then Some (slash +:+ whole +:+ "." +:+ fraction)
        else None
    | _ => if secondsSuffix rest then Some (slash +:+ whole) else None
    end
  else None.

(** The second expression, tried at the start of [s]: the quoted word
    [retryDelay], white space, a colon, white space, an optional quote,
    then the group and [s]; case is ignored. *)
Definition matchRetryDelay (s : string) : option string :=
  s1 ← stripPrefix true (doubleQuote +:+ "retryDelay" +:+ doubleQuote) s;
  let s2 := (span isSpace s1).2 in
  s3 ← stripPrefix false ":" s2;
  let s4 := (span isSpace s3).2 in
  let s5 := default s4 (stripPrefix false doubleQuote s4) in
  matchDelayValue s5.

(** The server-suggested delay, when the message carries one. *)
Definition suggestedDelayMs (msg : string) : option Delay :=
  match firstMatch matchRetryIn msg with
  | Some seconds => Some (FromServer seconds)
  | None => FromServer <$> firstMatch matchRetryDelay msg
  end.

(** [suggestedDelayMs ?? Math.min(INITIAL_DELAY_MS * 2 ** (attempt - 1), MAX_DELAY_MS)] *)
Definition backoff (msg : string) (attempt : nat) : Delay :=
  default
    (Millis (Z.min (INITIAL_DELAY_MS * 2 ^ (Z.of_nat attempt - 1)) MAX_DELAY_MS))
    (suggestedDelayMs msg).

Definition show (field : option string) : string := default "undefined" field.

(** The part of the [try] block that follows the call: the response is
    turned into a data URL, or an error is thrown. *)
Definition readResponse (response : GenerateContentResponse) : Outcome string :=
  let candidate := head (default [] (candidates response)) in
  let ps := default [] (candidate ≫= parts) in
  if bool_decide (ps = []) then
    match blockReason response with
    | Some reason =>
        if truthy reason then
          Throw (Error ("Request blocked by safety policy: " +:+ reason
                        +:+ ". Please adjust the image or prompt."))
        else
          match candidate ≫= finishReason with
          | Some fr =>
              if truthy fr && negb (String.eqb fr "STOP")
              then Throw (Error ("Image generation failed. Reason: " +:+ fr +:+ "."))
              else Throw (Error "API response did not contain an image.")
          | None => Throw (Error "API response did not contain an image.")
          end
    | None =>
        match candidate ≫= finishReason with
        | Some fr =>
            if truthy fr && negb (String.eqb fr "STOP")
            then Throw (Error ("Image generation failed. Reason: " +:+ fr +:+ "."))
            else Throw (Error "API response did not contain an image.")
        | None => Throw (Error "API response did not contain an image.")
        end
    end
  else
    match list_find (fun part => is_Some (inlineData part)) ps with
    | Some (_, mkPart (Some blob)) =>
        Ok ("data:" +:+ show (blob_mimeType blob) +:+ ";base64," +:+ show (blob_data blob))
    | _ => Throw (Error "API response did not contain an image.")
    end.

(** What [attemptGenerate] throws in place of an error that is not a quota
    error. *)
Definition fatalError (error : Thrown) : Thrown :=
  match error with
  | Error m | QuotaError m _ => Error ("AI processing failed: " +:+ m)
  | Value _ => Error "An unknown error occurred while communicating with the AI."
  end.

(** The error the [try] block of [attemptGenerate] ends with, after a
    call that was answered by [outcome]; [None] when an image came back. *)
Definition failureOf (outcome : CallOutcome) : option Thrown :=
  match outcome with
  | Fails e => Some e
  | Responds response =>
      match readResponse response with
      | Throw e => Some e
      | Ok _ => None
      end
  end.

(** [obj[key] = value] on an object used as a dictionary: an existing key
    keeps its place. *)
Fixpoint setKey {A} (key : string) (value : A) (obj : list (string * A)) : list (string * A) :=
  match obj with
  | [] => [(key, value)]
  | (k, v) :: rest =>
      if String.eqb k key then (k, value) :: rest else (k, v) :: setKey key value rest
  end.

Definition quotaMessage : string :=
  "All attempted Gemini models were unavailable due to quota/rate-limits or returned no image. "
  +:+ "Please check your Google Cloud billing, ensure the Generative AI API is enabled, and verify model-specific quotas. See: "
  +:+ "https://ai.google.dev/gemini-api/docs/rate-limits".

(** The requests of the [generateContent] calls of a trace, in order. *)
Definition requestsOf (events : list Event) : list Request :=
  omap (fun e => match e with EvGenerate r => Some r | _ => None end) events.

(** The delays of the sleeps of a trace, in order. *)
Definition sleepsOf (events : list Event) : list Delay :=
  omap (fun e => match e with EvSleep d => Some d | _ => None end) events.


(** *** The service and its surroundings

    [S] is the state of the caller, which the [onRetry] callback updates.
    Time is counted in suspensions: every [generateContent] call and every
    [sleep] is one.  The caller's [AbortSignal] is the number of
    suspensions after which it reads as aborted, if it ever does: it can
    only change while the service is suspended. *)
Section Service.
Context {S : Type}.

Record World := mkWorld {
  ai : option string;        (* the client, holding the API key *)
  ticks : nat;               (* suspensions completed *)
  calls : nat;               (* [generateContent] calls made *)
  trace : list Event;
  caller : S;
}.

Record Options := mkOptions {
  signal : option nat;
  onRetry : option (nat → Delay → string → S → S);
}.

(** What the provider answers to the [n]-th call (counted from 0). *)
Context (provider : nat → Request → CallOutcome).

Definition M (A : Type) : Type := World → Outcome A * World.

Definition ret {A} (a : A) : M A := fun w => (Ok a, w).
Definition throw {A} (e : Thrown) : M A := fun w => (Throw e, w).
Definition bind {A B} (m : M A) (k : A → M B) : M B :=
  fun w =>
    match m w with
    | (Ok a, w') => k a w'
    | (Throw e, w') => (Throw e, w')
    end.
Definition tryCatch {A} (m : M A) (handler : Thrown → M A) : M A :=
  fun w =>
    match m w with
    | (Ok a, w') => (Ok a, w')
    | (Throw e, w') => handler e w'
    end.

Local Notation "'do' x <- m ; k" := (bind m (fun x => k))
  (at level 10, x name, m at level 100, k at level 200).
Local Notation "m ;; k" := (bind m (fun _ => k))
  (at level 100, k at level 200, right associativity).

(** [options?.signal?.aborted] *)
Definition aborted (options : Options) : M bool :=
  fun w =>
    (Ok match signal options with
        | Some after => bool_decide (after ≤ ticks w)
        | None => false
        end, w).

(** The signal does not read as aborted after [t] suspensions, nor
    before. *)
Definition quietAt (options : Options) (t : nat) : Prop :=
  match signal options with
  | Some after => t < after
  | None => True
  end.

(** [w'] comes after [w] in a run under [options]: the client is the
    same, nothing is taken away from the trace, no suspension was started
    once the signal read as aborted, and the caller's state still
    satisfies [I]. *)
Record follows (options : Options) (I : S → Prop) (w w' : World) : Prop := {
  follows_ai : ai w' = ai w;
  follows_trace : trace w `prefix_of` trace w';
  follows_ticks : ticks w ≤ ticks w';
  follows_signal : ∀ after, signal options = Some after →
                     ticks w ≤ after → ticks w' ≤ after;
  follows_caller : I (caller w) → I (caller w');
}.

(** Either the signal does not read as aborted yet, or the last thing
    that happened is a [generateContent] call: the signal changed while
    that call was in flight, and nothing was done since. *)
Definition undisturbed (options : Options) (w : World) : Prop :=
  quietAt options (ticks w) ∨ ∃ request, last (trace w) = Some (EvGenerate request).

(** From an undisturbed world, [m] either throws the abort error or ends
    in an undisturbed world. *)
Definition settles {A} (options : Options) (m : M A) : Prop :=
  ∀ w, undisturbed options w →
    (m w).1 = Throw (Error "Request aborted") ∨ undisturbed options (m w).2.

(** [if (options?.signal?.aborted) throw new Error("Request aborted")] *)
Definition throwIfAborted (options : Options) : M unit :=
  do a <- aborted options;
  if a : bool then throw (Error "Request aborted") else ret tt.

(** The world after a suspension that [e] records. *)
Definition suspend (e : Event) (w : World) : World :=
  mkWorld (ai w) (Datatypes.S (ticks w)) (calls w) (trace w ++ [e]) (caller w).

(** The world after one more [generateContent] call. *)
Definition called (request : Request) (w : World) : World :=
  mkWorld (ai w) (Datatypes.S (ticks w)) (Datatypes.S (calls w))
    (trace w ++ [EvGenerate request]) (caller w).

(** The world after [onRetry], if there is one, has been called. *)
Definition notified (options : Options) (attempt : nat) (delay : Delay)
    (model : string) (w : World) : World :=
  match onRetry options with
  | Some callback =>
      mkWorld (ai w) (ticks w) (calls w)
        (trace w ++ [EvRetry attempt delay model])
        (callback attempt delay model (caller w))
  | None => w
  end.

(** [await ai!.models.generateContent({ model, contents, config })] *)
Definition generateContent (request : Request) : M GenerateContentResponse :=
  fun w =>
    match provider (calls w) request with
    | Responds response => (Ok response, called request w)
    | Fails error => (Throw error, called request w)
    end.

(** [await sleep(ms)] *)
Definition sleep (delay : Delay) : M unit :=
  fun w => (Ok tt, suspend (EvSleep delay) w).

(** [try { options?.onRetry?.(attempt, backoff, model) } catch (e) {}] *)
Definition notifyRetry (options : Options) (attempt : nat) (delay : Delay)
    (model : string) : M unit :=
  fun w => (Ok tt, notified options attempt delay model w).

(** The world after the first [k] rounds of the loop of [attemptGenerate],
    when the [j]-th call (from 0) failed with the quota error [errors j]
    and the signal stayed quiet: each round is a call, the [onRetry]
    notice and the sleep. *)
Fixpoint afterRetries (options : Options) (request : Request)
    (errors : nat → Thrown) (k : nat) (w : World) : World :=
  match k with
  | O => w
  | Datatypes.S k' =>
      let w' := afterRetries options request errors k' w in
      let delay := backoff (messageOf (errors k')) (Datatypes.S k') in
      suspend (EvSleep delay)
        (notified options (Datatypes.S k') delay (model request) (called request w'))
  end.

(** [setApiKey] *)
Definition setApiKey (apiKey : string) : M unit :=
  fun w =>
    if truthy apiKey
    then (Ok tt, mkWorld (Some apiKey) (ticks w) (calls w) (trace w) (caller w))
    else (Throw (Error "API key is required"), w).

(** [isApiKeySet] *)
Definition isApiKeySet (w : World) : bool := bool_decide (is_Some (ai w)).

(** The [try] block of [attemptGenerate]. *)
Definition attemptOnce (options : Options) (request : Request) : M AttemptResult :=
  throwIfAborted options ;;
  do response <- generateContent request;
  match readResponse response with
  | Ok url => ret (mkAttempt true (Some url))
  | Throw e => throw e
  end.

(** The [catch] block of [attemptGenerate], [attempt] being the counter
    after [attempt += 1]; [continue] is the rest of the loop. *)
Definition afterError (options : Options) (model : string) (attempt : nat)
    (error : Thrown) (continue : M AttemptResult) : M AttemptResult :=
  let msg := messageOf error in
  if isQuota msg && bool_decide (attempt ≤ MAX_RETRIES) then
    let delay := backoff msg attempt in
    notifyRetry options attempt delay model ;;
    throwIfAborted options ;;
    sleep delay ;;
    throwIfAborted options ;;
    continue
  else if isQuota msg then
    ret (mkAttempt false None)
  else
    throw (fatalError error).

(** The [while (attempt <= MAX_RETRIES)] loop.  [attempt] grows on every
    path that reaches [continue], so [MAX_RETRIES + 1] rounds of fuel are
    never used up. *)
Fixpoint attemptLoop (fuel : nat) (options : Options) (request : Request)
    (attempt : nat) : M AttemptResult :=
  match fuel with
  | O => ret (mkAttempt false None)
  | Datatypes.S fuel' =>
      if bool_decide (attempt ≤ MAX_RETRIES) then
        tryCatch (attemptOnce options request)
          (fun error =>
             afterError options (model request) (Datatypes.S attempt) error
               (attemptLoop fuel' options request (Datatypes.S attempt)))
      else ret (mkAttempt false None)
  end.

Definition attemptGenerate (model base64Data mimeType prompt : string)
    (options : Options) : M AttemptResult :=
  attemptLoop (Datatypes.S MAX_RETRIES) options
    (mkRequest model base64Data mimeType prompt) 0.

(** One round of the [for (const model of MODEL_PREFERENCES)] loop: the
    [try] block returns the image ([inl]) or the failures to carry into
    the next round ([inr]); the [catch] block carries on after a
    [QuotaError] and throws everything else again. *)
Definition tryModel (options : Options) (base64Data mimeType prompt : string)
    (modelFailures : list (string * ModelFailure)) (model : string)
  : M (string + list (string * ModelFailure)) :=
  tryCatch
    (do attempt <- attemptGenerate model base64Data mimeType prompt options;
     match attempt with
     | mkAttempt true (Some url) =>
         if truthy url then ret (inl url)
         else
           throwIfAborted options ;;
           sleep (Millis 250) ;;
           throwIfAborted options ;;
           ret (inr (setKey model
                       (mkFailure "quota_or_rate_limit_or_no_result" None)
                       modelFailures))
     | _ =>
         throwIfAborted options ;;
         sleep (Millis 250) ;;
         throwIfAborted options ;;
         ret (inr (setKey model
                     (mkFailure "quota_or_rate_limit_or_no_result" None)
                     modelFailures))
     end)
    (fun err =>
       match err with
       | QuotaError _ details =>
           ret (inr (setKey model (mkFailure "quota" (Some details)) modelFailures))
       | _ => throw err
       end).

Fixpoint tryModels (options : Options) (base64Data mimeType prompt : string)
    (models : list string) (modelFailures : list (string * ModelFailure)) : M string :=
  match models with
  | [] => throw (QuotaError quotaMessage modelFailures)
  | model :: rest =>
      do r <- tryModel options base64Data mimeType prompt modelFailures model;
      match r with
      | inl url => ret url
      | inr modelFailures' =>
          tryModels options base64Data mimeType prompt rest modelFailures'
      end
  end.

Definition editImage (base64ImageDataUrl prompt : string) (options : Options) : M string :=
  fun w =>
    match ai w with
    | None =>
        (Throw (Error "API key not configured. Please set your Gemini API key in the settings."), w)
    | Some _ =>
        (throwIfAborted options ;;
         match parseDataUrl base64ImageDataUrl with
         | None => throw (Error "Invalid data URL format")
         | Some (base64Data, mimeType) =>
             tryModels options base64Data mimeType prompt MODEL_PREFERENCES []
         end) w
    end.

End Service.

Arguments World : clear implicits.
Arguments Options : clear implicits.
Arguments M : clear implicits.

(** *** What a call of the service spends *)

(** [w'] comes from [w] by [events]: the trace has every call and every
    sleep, and these are the suspensions. *)
Record adds {S : Type} (events : list Event) (w w' : World S) : Prop := {
  adds_ai : ai w' = ai w;
  adds_trace : trace w' = trace w ++ events;
  adds_calls : calls w' = calls w + length (requestsOf events);
  adds_ticks : ticks w' = ticks w + length (requestsOf events) + length (sleepsOf events);
}.

(** Whatever the world, what [m] adds satisfies [P]. *)
Definition yields {S A : Type} (P : list Event → Prop) (m : M S A) : Prop :=
  ∀ w, ∃ events, adds events w (m w).2 ∧ P events.

(** The sleeps of the service: the delay a server suggested, the pause of
    250 ms between two models, or a backoff of 1, 2 or 4 seconds. *)
Definition knownDelay (d : Delay) : Prop :=
  match d with
  | FromServer _ => True
  | Millis ms => ms ∈ [250; 1000; 2000; 4000]%Z
  end.

(** At most [k] calls, all with [request], and at most [s] sleeps, all of
    a known length. *)
Definition rounds (request : Request) (k s : nat) (events : list Event) : Prop :=
  (∃ n, n ≤ k ∧ requestsOf events = replicate n request)
  ∧ length (sleepsOf events) ≤ s
  ∧ Forall knownDelay (sleepsOf events).

(** The calls go through [models] in order, at most four calls for each,
    with request [mk model] for [model]. *)
Definition attempts (mk : string → Request) (models : list string)
    (events : list Event) : Prop :=
  (∃ counts, length counts = length models
             ∧ Forall (fun n => n ≤ 4) counts
             ∧ requestsOf events
               = concat (zip_with (fun n model => replicate n (mk model)) counts models))
  ∧ length (sleepsOf events) ≤ 4 * length models
  ∧ Forall knownDelay (sleepsOf events).

(** *** What the service throws and returns *)

(** Every error that [m] throws satisfies [P]; every value that [m]
    returns satisfies [Q]. *)
Definition throwsOnly {S A : Type} (P : Thrown → Prop) (m : M S A) : Prop :=
  ∀ w e w', m w = (Throw e, w') → P e.
Definition returnsOnly {S A : Type} (Q : A → Prop) (m : M S A) : Prop :=
  ∀ w a w', m w = (Ok a, w') → Q a.

(** The errors of [attemptGenerate]: the cancellation, or the error of a
    call or of a response, wrapped; the message that is wrapped holds no
    quota marker. *)
Definition attemptError (e : Thrown) : Prop :=
  e = Error "Request aborted"
  ∨ (∃ m, isQuota m = false ∧ e = Error ("AI processing failed: " +:+ m))
  ∨ e = Error "An unknown error occurred while communicating with the AI.".

(** The entry of [modelFailures] for a model that gave no result. *)
Definition noResultEntry : ModelFailure :=
  mkFailure "quota_or_rate_limit_or_no_result" None.

(** The errors of [editImage]. *)
Definition editImageError (e : Thrown) : Prop :=
  e = Error "API key not configured. Please set your Gemini API key in the settings."
  ∨ e = Error "Invalid data URL format"
  ∨ attemptError e
  ∨ e = QuotaError quotaMessage
          ((fun model => (model, noResultEntry)) <$> MODEL_PREFERENCES).

(** Every value that [m] returns satisfies [Q] in the world it is
    returned in. *)
Definition returnsIn {S A : Type} (Q : A → World S → Prop) (m : M S A) : Prop :=
  ∀ w a w', m w = (Ok a, w') → Q a w'.

(** The image [url] is what [readResponse] makes of the answer to the
    call made last, which carried [request]. *)
Definition answeredBy {S : Type} (provider : nat → Request → CallOutcome)
    (request : Request) (url : string) (w : World S) : Prop :=
  ∃ n response,
    calls w = Datatypes.S n
    ∧ last (trace w) = Some (EvGenerate request)
    ∧ provider n request = Responds response
    ∧ readResponse response = Ok url.

(** An attempt that gives an image gives the image of the answer to its
    call. *)
Definition fromAnswer {S : Type} (provider : nat → Request → CallOutcome)
    (request : Request) (r : AttemptResult) (w : World S) : Prop :=
  ∀ url, r = mkAttempt true (Some url) → answeredBy provider request url w.

(** *** What happens at each call *)

(** The signal stays quiet while [events] are added to [w]. *)
Definition quietThrough {S : Type} (options : Options S) (w : World S)
    (events : list Event) : Prop :=
  quietAt options (ticks w + length (requestsOf events) + length (sleepsOf events)).

(** The [i]-th call among [events], the calls being counted from the
    world [w] on, carried [request] and ended with the error [e], thrown
    by the call or on reading its response. *)
Definition failedAt {S : Type} (provider : nat → Request → CallOutcome) (w : World S)
    (events : list Event) (i : nat) (request : Request) (e : Thrown) : Prop :=
  requestsOf events !! i = Some request
  ∧ failureOf (provider (calls w + i) request) = Some e.

(** What the rounds of [attemptGenerate] from the counter [attempt] on
    do with the answers to their calls, which all carry [request]: an
    error without a quota marker ends them at once, and is thrown
    wrapped; after an error with a marker the call is made again, unless
    the signal aborts or the retries are used up; an image that is
    returned was read from the answer to the last call. *)
Definition looped {S : Type} (provider : nat → Request → CallOutcome)
    (options : Options S) (request : Request) (attempt : nat) (w : World S)
    (events : list Event) (o : Outcome AttemptResult) : Prop :=
  ∃ n,
    requestsOf events = replicate n request
    ∧ (∀ i e, i < n → failureOf (provider (calls w + i) request) = Some e →
         if isQuota (messageOf e)
         then quietThrough options w events →
              Datatypes.S i < n ∨ attempt + i = MAX_RETRIES
         else Datatypes.S i = n ∧ last events = Some (EvGenerate request)
              ∧ o = Throw (fatalError e))
    ∧ (∀ url, o = Ok (mkAttempt true (Some url)) →
         ∃ i response,
           Datatypes.S i = n ∧ last events = Some (EvGenerate request)
           ∧ provider (calls w + i) request = Responds response
           ∧ readResponse response = Ok url).

(** What a part of [editImage] does with the answers to its calls.
    [shows a url] tells which image a value [a] that is returned holds;
    [allowed] holds of every request. *)
Record served {S A : Type} (provider : nat → Request → CallOutcome)
    (options : Options S) (shows : A → string → Prop) (allowed : Request → Prop)
    (w : World S) (events : list Event) (o : Outcome A) : Prop := {
  served_requests : Forall allowed (requestsOf events);
  served_fatal : ∀ i request e,
    failedAt provider w events i request e → isQuota (messageOf e) = false →
    Datatypes.S i = length (requestsOf events)
    ∧ last events = Some (EvGenerate request)
    ∧ o = Throw (fatalError e);
  served_retry : ∀ i request e,
    failedAt provider w events i request e → isQuota (messageOf e) = true →
    quietThrough options w events →
    requestsOf events !! Datatypes.S i = Some request
    ∨ (3 ≤ i ∧ ∀ j, j ≤ 3 → requestsOf events !! (i - j) = Some request);
  served_image : ∀ a url, o = Ok a → shows a url →
    ∃ i request response,
      Datatypes.S i = length (requestsOf events)
      ∧ requestsOf events !! i = Some request
      ∧ last events = Some (EvGenerate request)
      ∧ provider (calls w + i) request = Responds response
      ∧ readResponse response = Ok url;
}.


End Gemini.

(** ** The runner: [executeWorkflow] *)

Module App.
Import Scheduler Gemini.

Definition SIMULATED_COST_PER_OP : Q := Qmake 25 10000.   (* 0.0025 *)
Definition SIMULATED_CREDITS_PER_OP : Z := 1.

(** The loading message, by the template that builds it: the empty
    string, the progress line of a step, or the retry line set by
    [onRetry]. *)
Inductive LoadingMessage :=
  | NoMessage
  | Processing (imageIndex totalImages : nat) (fileName : string)
      (stepIndex totalSteps : nat) (stepName : string)
  | RetryingModel (model : string) (attempt : nat) (delay : Delay).

(** The notifications of the runner, all of type [info]:
    [Workflow cancelled by user.], the quota notice with the link to the
    rate-limit documentation, and the retry notice set by [onRetry]. *)
Inductive Notice :=
  | CancelledByUser
  | QuotaReached
  | RetryNotice (model : string) (attempt : nat) (delay : Delay).

Record RetryInfo := mkRetryInfo {
  retry_model : string;
  retry_attempt : nat;
  backoffMs : Delay;
}.

(** The state of the [App] component that [executeWorkflow] reads and
    writes. [abortController] tells whether a controller is stored. *)
Record AppState := mkApp {
  images : list ImageFile;
  nodes : list WorkflowNode;
  connections : list Connection;
  outputs : list OutputImage;
  isLoading : bool;
  loadingMessage : LoadingMessage;
  error : option string;
  notification : option Notice;
  abortController : bool;
  retryInfo : option RetryInfo;
  logs : list OperationLog;
}.

Definition setOutputs (v : list OutputImage) (a : AppState) : AppState :=
  mkApp (images a) (nodes a) (connections a) v (isLoading a) (loadingMessage a)
    (error a) (notification a) (abortController a) (retryInfo a) (logs a).
Definition setIsLoading (v : bool) (a : AppState) : AppState :=
  mkApp (images a) (nodes a) (connections a) (outputs a) v (loadingMessage a)
    (error a) (notification a) (abortController a) (retryInfo a) (logs a).
Definition setLoadingMessage (v : LoadingMessage) (a : AppState) : AppState :=
  mkApp (images a) (nodes a) (connections a) (outputs a) (isLoading a) v
    (error a) (notification a) (abortController a) (retryInfo a) (logs a).
Definition setError (v : option string) (a : AppState) : AppState :=
  mkApp (images a) (nodes a) (connections a) (outputs a) (isLoading a) (loadingMessage a)
    v (notification a) (abortController a) (retryInfo a) (logs a).
Definition setNotification (v : option Notice) (a : AppState) : AppState :=
  mkApp (images a) (nodes a) (connections a) (outputs a) (isLoading a) (loadingMessage a)
    (error a) v (abortController a) (retryInfo a) (logs a).
Definition setAbortController (v : bool) (a : AppState) : AppState :=
  mkApp (images a) (nodes a) (connections a) (outputs a) (isLoading a) (loadingMessage a)
    (error a) (notification a) v (retryInfo a) (logs a).
Definition setRetryInfo (v : option RetryInfo) (a : AppState) : AppState :=
  mkApp (images a) (nodes a) (connections a) (outputs a) (isLoading a) (loadingMessage a)
    (error a) (notification a) (abortController a) v (logs a).
(** [addLogEntry] *)
Definition addLogEntry (entry : OperationLog) (a : AppState) : AppState :=
  mkApp (images a) (nodes a) (connections a) (outputs a) (isLoading a) (loadingMessage a)
    (error a) (notification a) (abortController a) (retryInfo a) (logs a ++ [entry]).

(** A state update of the component, seen from the world. *)
Definition update (f : AppState → AppState) (w : World AppState) : World AppState :=
  mkWorld (ai w) (ticks w) (calls w) (trace w) (f (caller w)).

(** The [onRetry] callback handed to [editImage]. *)
Definition onRetryCallback (attempt : nat) (delayMs : Delay) (model : string)
    (a : AppState) : AppState :=
  setNotification (Some (RetryNotice model attempt delayMs))
    (setLoadingMessage (RetryingModel model attempt delayMs)
       (setRetryInfo (Some (mkRetryInfo model attempt delayMs)) a)).

Definition quotaErrorText (stepName fileName : string) : string :=
  "Quota exceeded while processing " +:+ Text.doubleQuote +:+ stepName +:+ Text.doubleQuote
  +:+ " for " +:+ Text.doubleQuote +:+ fileName +:+ Text.doubleQuote
  +:+ ". Please check your Google Cloud billing and Gemini API quotas: "
  +:+ "https://ai.google.dev/gemini-api/docs/rate-limits".

Definition stepErrorText (stepName fileName errorMessage : string) : string :=
  "Error on " +:+ Text.doubleQuote +:+ stepName +:+ Text.doubleQuote
  +:+ " for " +:+ Text.doubleQuote +:+ fileName +:+ Text.doubleQuote +:+ ": " +:+ errorMessage.

(** [e instanceof Error ? e.message : "An unknown error occurred."] *)
Definition errorMessageOf (e : Thrown) : string :=
  match e with
  | Error m | QuotaError m _ => m
  | Value _ => "An unknown error occurred."
  end.

(** [e.name === "AbortError" || errorMessage === "Request aborted"]; no
    error of the service is named [AbortError]. *)
Definition isAbort (e : Thrown) : bool := String.eqb (errorMessageOf e) "Request aborted".

(** [e instanceof QuotaError || e.name === "QuotaError"] *)
Definition isQuotaError (e : Thrown) : bool :=
  match e with
  | QuotaError _ _ => true
  | _ => false
  end.

(** The clean-up both [catch] branches end with. *)
Definition cleanUp (a : AppState) : AppState :=
  setRetryInfo None (setAbortController false (setLoadingMessage NoMessage (setIsLoading false a))).

(** The [catch] block around one step. *)
Definition stepFailed (image : ImageFile) (step : WorkflowNode) (e : Thrown)
    (a : AppState) : AppState :=
  if isAbort e then
    cleanUp (setNotification (Some CancelledByUser) a)
  else
    let a1 :=
      if isQuotaError e
      then setNotification (Some QuotaReached)
             (setError (Some (quotaErrorText (name step) (file_name image))) a)
      else setError (Some (stepErrorText (name step) (file_name image) (errorMessageOf e))) a in
    cleanUp (addLogEntry (mkLog (file_name image) (name step) StatusFailure 0 0) a1).

(** The updates that follow a successful [editImage]. *)
Definition stepSucceeded (image : ImageFile) (step : WorkflowNode)
    (stepIndex totalSteps : nat) (resultDataUrl : string) (a : AppState) : AppState :=
  let a1 :=
    addLogEntry (mkLog (file_name image) (name step) StatusSuccess
                   SIMULATED_COST_PER_OP SIMULATED_CREDITS_PER_OP)
      (setRetryInfo None a) in
  if bool_decide (stepIndex = totalSteps - 1)
  then setOutputs (outputs a1 ++ [mkOutput (image_id image) (file_name image) resultDataUrl]) a1
  else a1.

(** How a loop is left: it ran to its end, or [executeWorkflow] returned
    from inside it. *)
Inductive Exit := RanThrough | Returned.

Section Run.
Context (provider : nat → Request → CallOutcome).
Context (options : Options AppState).

(** The inner loop, [for (const [stepIndex, step] of workflow.entries())],
    from [stepIndex] on; the result carries [currentImageDataUrl]. *)
Fixpoint runSteps (image : ImageFile) (imageIndex totalImages totalSteps : nat)
    (steps : list WorkflowNode) (stepIndex : nat) (currentImageDataUrl : string)
    (w : World AppState) : Exit * string * World AppState :=
  match steps with
  | [] => (RanThrough, currentImageDataUrl, w)
  | step :: rest =>
      let w1 := update (setLoadingMessage
                          (Processing (imageIndex + 1) totalImages (file_name image)
                             (stepIndex + 1) totalSteps (name step))) w in
      match editImage provider currentImageDataUrl (prompt step) options w1 with
      | (Ok resultDataUrl, w2) =>
          runSteps image imageIndex totalImages totalSteps rest (Datatypes.S stepIndex)
            resultDataUrl
            (update (stepSucceeded image step stepIndex totalSteps resultDataUrl) w2)
      | (Throw e, w2) =>
          (Returned, currentImageDataUrl, update (stepFailed image step e) w2)
      end
  end.

(** The outer loop, [for (const [imageIndex, image] of images.entries())],
    from [imageIndex] on.  The abort check between two images throws
    outside every [catch]. *)
Fixpoint runImages (totalImages : nat) (workflow : list WorkflowNode)
    (rest : list ImageFile) (imageIndex : nat) (w : World AppState)
  : Outcome Exit * World AppState :=
  match rest with
  | [] => (Ok RanThrough, w)
  | image :: rest' =>
      match aborted options w with
      | (Ok true, _) => (Throw (Error "Request aborted"), w)
      | _ =>
          match runSteps image imageIndex totalImages (length workflow) workflow 0
                  (dataUrl image) w with
          | (RanThrough, _, w') => runImages totalImages workflow rest' (Datatypes.S imageIndex) w'
          | (Returned, _, w') => (Ok Returned, w')
          end
      end
  end.
End Run.

(** The [finally] block. *)
Definition finally (a : AppState) : AppState :=
  setAbortController false (setLoadingMessage NoMessage (setIsLoading false a)).

(** The options [executeWorkflow] hands to [editImage]: the signal of the
    fresh controller and the [onRetry] callback.  [cancelDuring] tells
    during which suspension of the run, counted from 0, the user presses
    Cancel, if at all: the controller is created by the run, so its signal
    can only change while the run is suspended. *)
Definition runOptions (cancelDuring : option nat) (w : World AppState) : Options AppState :=
  mkOptions ((fun n => ticks w + n + 1) <$> cancelDuring) (Some onRetryCallback).

(** The world when the loops are entered. *)
Definition started (w : World AppState) : World AppState :=
  update (fun a => setOutputs [] (setIsLoading true
                     (setRetryInfo None (setAbortController true a))))
    (update (setError None) w).

(** [executeWorkflow].  [fuel] bounds the loop of the scheduler ([None]: the
    scheduler did not return).  The result is [Ok] when the promise
    resolves and [Throw] when it rejects. *)
Definition executeWorkflow (provider : nat → Request → CallOutcome) (fuel : nat)
    (cancelDuring : option nat) (w0 : World AppState)
  : option (Outcome unit * World AppState) :=
  let w := update (setError None) w0 in
  order ← getExecutionOrder fuel (nodes (caller w)) (connections (caller w));
  match order with
  | Invalid => Some (Ok tt, update (setError (Some cycleMessage)) w)
  | Ordered workflow =>
      if negb (isApiKeySet w) then
        Some (Ok tt, update (setError (Some "Please configure your Gemini API key before running the workflow.")) w)
      else if bool_decide (images (caller w) = []) then
        Some (Ok tt, update (setError (Some "Please upload at least one image to run the workflow.")) w)
      else if bool_decide (workflow = []) then
        Some (Ok tt, update (setError (Some "Please add at least one node to the workflow.")) w)
      else
        match runImages provider (runOptions cancelDuring w0)
                (length (images (caller w))) workflow (images (caller w)) 0
                (started w0) with
        | (Ok _, w2) => Some (Ok tt, update finally w2)
        | (Throw e, w2) => Some (Throw e, update finally w2)
        end
  end.

(** *** Vocabulary of the statements *)

(** The record of a step that succeeded, and of a step that failed. *)
Definition successLog (image : ImageFile) (step : WorkflowNode) : OperationLog :=
  mkLog (file_name image) (name step) StatusSuccess
    SIMULATED_COST_PER_OP SIMULATED_CREDITS_PER_OP.
Definition failureLog (image : ImageFile) (step : WorkflowNode) : OperationLog :=
  mkLog (file_name image) (name step) StatusFailure 0 0.

(** The error shown for a step that failed with [e]. *)
Definition errorText (image : ImageFile) (step : WorkflowNode) (e : Thrown) : string :=
  if isQuotaError e
  then quotaErrorText (name step) (file_name image)
  else stepErrorText (name step) (file_name image) (errorMessageOf e).

(** The progress line of a step. *)
Definition progress (image : ImageFile) (imageIndex totalImages : nat)
    (step : WorkflowNode) (stepIndex totalSteps : nat) : LoadingMessage :=
  Processing (imageIndex + 1) totalImages (file_name image)
    (stepIndex + 1) totalSteps (name step).

(** The cancelled outcome: the cancellation notice is up, no error is
    shown, and the records added since [before] are all successes. *)
Definition cancelledOutcome (before after : AppState) : Prop :=
  notification after = Some CancelledByUser
  ∧ error after = None
  ∧ ∃ added, logs after = logs before ++ added
             ∧ Forall (fun entry => status entry = StatusSuccess) added.

(** What a cancelled run leaves behind: the images before the one it was
    cancelled in went through every step of [workflow] and have their
    outputs, and the steps of that image before the one it was cancelled
    in have their records. *)
Definition completedWork (workflow : list WorkflowNode) (before after : AppState) : Prop :=
  ∃ imagesBefore image imagesAfter stepsBefore step stepsAfter,
    images before = imagesBefore ++ image :: imagesAfter
    ∧ workflow = stepsBefore ++ step :: stepsAfter
    ∧ logs after
      = logs before
        ++ (imagesBefore ≫= fun image' => successLog image' <$> workflow)
        ++ (successLog image <$> stepsBefore)
    ∧ originalImageId <$> outputs after = image_id <$> imagesBefore.

(** What a run that went through leaves behind: no error, the records
    of every step of every image, and one output for each image. *)
Definition completedRun (workflow : list WorkflowNode) (before after : AppState) : Prop :=
  error after = None
  ∧ logs after
    = logs before ++ (images before ≫= fun image => successLog image <$> workflow)
  ∧ originalImageId <$> outputs after = image_id <$> images before.

(** What a run that halted at a failing step leaves behind: the error of
    that step, its failure record after the records of the completed
    steps, and the outputs of the images before. *)
Definition failedStep (workflow : list WorkflowNode) (before after : AppState) : Prop :=
  ∃ imagesBefore image imagesAfter stepsBefore step stepsAfter e,
    images before = imagesBefore ++ image :: imagesAfter
    ∧ workflow = stepsBefore ++ step :: stepsAfter
    ∧ isAbort e = false
    ∧ error after = Some (errorText image step e)
    ∧ logs after
      = logs before
        ++ (imagesBefore ≫= fun image' => successLog image' <$> workflow)
        ++ (successLog image <$> stepsBefore)
        ++ [failureLog image step]
    ∧ originalImageId <$> outputs after = image_id <$> imagesBefore.

(** The last thing that happened is a [generateContent] call. *)
Definition callInFlight (w : World AppState) : Prop :=
  ∃ request, last (trace w) = Some (EvGenerate request).

(** A run refused before it starts: one of the four messages is shown
    and nothing else changes. *)
Definition refused (before after : AppState) : Prop :=
  after = setError (error after) before
  ∧ error after
    ∈ [ Some cycleMessage;
        Some "Please configure your Gemini API key before running the workflow.";
        Some "Please upload at least one image to run the workflow.";
        Some "Please add at least one node to the workflow." ].

(** A run that the abort check between two images ended: the images
    before went through every step. *)
Definition interrupted (workflow : list WorkflowNode) (before after : AppState) : Prop :=
  ∃ imagesBefore image imagesAfter,
    images before = imagesBefore ++ image :: imagesAfter
    ∧ error after = None
    ∧ logs after
      = logs before ++ (imagesBefore ≫= fun image' => successLog image' <$> workflow)
    ∧ originalImageId <$> outputs after = image_id <$> imagesBefore.

(** The run is over: nothing is loading, no controller is stored. *)
Definition idle (a : AppState) : Prop :=
  isLoading a = false ∧ loadingMessage a = NoMessage ∧ abortController a = false.

(** The same records: logs, outputs and error message. *)
Definition sameRecords (a b : AppState) : Prop :=
  logs b = logs a ∧ outputs b = outputs a ∧ error b = error a.

(** The output [out] shows what the backend answered in the run that
    added [events] to [w]: the [i]-th call of the run, whose request is
    in the trace, was made for one of [imgs] with the prompt of [step],
    and [out] holds the image that the service read from its response. *)
Definition produced (provider : nat → Request → CallOutcome) (w : World AppState)
    (events : list Event) (imgs : list ImageFile) (step : WorkflowNode)
    (out : OutputImage) : Prop :=
  ∃ image i request response,
    image ∈ imgs
    ∧ originalImageId out = image_id image
    ∧ originalFileName out = file_name image
    ∧ requestsOf events !! i = Some request
    ∧ text request = prompt step
    ∧ model request ∈ MODEL_PREFERENCES
    ∧ provider (calls w + i) request = Responds response
    ∧ readResponse response = Ok (output_dataUrl out).


(** *** Concrete runs *)

Definition picture (i : string) : ImageFile :=
  mkImage i (i +:+ ".png") ("data:image/png;base64," +:+ i).

(** A response that carries the image [d]; a response blocked for safety. *)
Definition imageResponse (d : string) : CallOutcome :=
  Responds (mkResponse
              (Some [mkCandidate
                       (Some [mkPart (Some (mkBlob (Some "image/png") (Some d)))])
                       (Some "STOP")]) None).
Definition blockedResponse : CallOutcome :=
  Responds (mkResponse None (Some "SAFETY")).

(** The component before its first run, with a key stored. *)
Definition freshWorld (imgs : list ImageFile) (steps : list WorkflowNode)
    (links : list Connection) : World AppState :=
  mkWorld (Some "key") 0 0 []
    (mkApp imgs steps links [] false NoMessage None None false None []).

(** Two images through the chain [A -> B]. *)
Definition twoByTwo : World AppState :=
  freshWorld [picture "1"; picture "2"] [step "A"; step "B"] [edge "A" "B"].

End App.

(** ** The flow editor: [FlowEditor] and [AddStepModal] *)

Module Editor.
Import Text Scheduler.

(** What the handlers below read and write of the props and the state of
    [FlowEditor]: the nodes and connections, the id of the node a
    connection is being drawn from ([connecting?.fromNodeId]), the
    selected node and the node whose deletion waits for confirmation.
    Positions play no role in these handlers: the position of a new node,
    which the source computes from the bounds of the canvas, is a
    parameter of [addNode]. *)
Record EditorState := mkEditor {
  nodes : list WorkflowNode;
  connections : list Connection;
  connecting : option string;
  selectedNodeId : option string;
  nodeToDelete : option string;
}.

(** The step that [AddStepModal] hands to [addNode]:
    [Omit<WorkflowNode, 'id' | 'position'>]. *)
Record NewStep := mkNewStep {
  step_type : StepType;
  step_name : string;
  step_prompt : string;
}.

(** [PREBUILT_PROMPTS] of [constants.ts], as pairs of a name and a prompt. *)
Definition PREBUILT_PROMPTS : list (string * string) :=
  [ ("Add a Llama", "can you add a llama next to the main subject of the image");
    ("Convert to B&W", "convert this image to black and white, maintaining high contrast");
    ("Make it Surreal", "transform this image into a surrealist painting style");
    ("Add a Pop of Color", "make the main subject vibrant and colorful, and the background muted");
    ("Cyberpunk Style", "give this image a cyberpunk aesthetic with neon lights and a futuristic feel");
    ("Vintage Look", "apply a vintage, sepia-toned filter to this image") ].

(** [handleAdd] of [AddStepModal]: the step passed to [onAddStep], if
    any.  [selectedPrebuilt] is the entry chosen in the list, if one is. *)
Definition handleAdd (stepType : StepType) (selectedPrebuilt : option (string * string))
    (customPrompt : string) : option NewStep :=
  match stepType, selectedPrebuilt with
  | PREBUILT, Some (name, prompt) => Some (mkNewStep PREBUILT name prompt)
  | PREBUILT, None => None
  | CUSTOM, _ =>
      if truthy (trim customPrompt) then
        let trimmed := trim customPrompt in
        Some (mkNewStep CUSTOM
                ("Custom: " +:+ String.substring 0 20 trimmed
                 +:+ (if bool_decide (20 < String.length trimmed) then "..." else ""))
                trimmed)
      else None
  end.

(** [isAddDisabled] *)
Definition isAddDisabled (stepType : StepType) (selectedPrebuilt : option (string * string))
    (customPrompt : string) : bool :=
  match stepType with
  | PREBUILT => bool_decide (selectedPrebuilt = None)
  | CUSTOM => negb (truthy (trim customPrompt))
  end.

(** [addNode]: [uuid] is what [crypto.randomUUID()] returns. *)
Definition addNode (uuid : string) (position : Z * Z) (step : NewStep)
    (s : EditorState) : EditorState :=
  mkEditor
    (nodes s ++ [mkNode uuid (step_type step) (step_prompt step) (step_name step) position])
    (connections s) (connecting s) (selectedNodeId s) (nodeToDelete s).

(** [requestRemoveNode] *)
Definition requestRemoveNode (k : string) (s : EditorState) : EditorState :=
  mkEditor (nodes s) (connections s) (connecting s) (selectedNodeId s) (Some k).

(** [handleCancelRemove] *)
Definition handleCancelRemove (s : EditorState) : EditorState :=
  mkEditor (nodes s) (connections s) (connecting s) (selectedNodeId s) None.

(** [handleConfirmRemove]; [!nodeToDelete] holds for [null] and for the
    empty string. *)
Definition handleConfirmRemove (s : EditorState) : EditorState :=
  match nodeToDelete s with
  | Some k =>
      if truthy k then
        mkEditor
          (filter (fun node => id node ≠ k) (nodes s))
          (filter (fun conn => fromNodeId conn ≠ k ∧ toNodeId conn ≠ k) (connections s))
          (connecting s)
          (if decide (selectedNodeId s = Some k) then None else selectedNodeId s)
          None
      else s
  | None => s
  end.

(** [handleStartConnection]; [hasSocket] tells whether the output socket
    of the node and the canvas are mounted. *)
Definition handleStartConnection (hasSocket : bool) (fromNodeId : string)
    (s : EditorState) : EditorState :=
  if hasSocket
  then mkEditor (nodes s) (connections s) (Some fromNodeId) (selectedNodeId s) (nodeToDelete s)
  else s.

(** [handleEndConnection]; [uuid] is what [crypto.randomUUID()] returns. *)
Definition handleEndConnection (uuid : string) (toNodeId' : string)
    (s : EditorState) : EditorState :=
  let connections' :=
    match connecting s with
    | Some fromNodeId' =>
        if bool_decide (fromNodeId' ≠ toNodeId') then
          if bool_decide (Exists (fun c => fromNodeId c = fromNodeId' ∧ toNodeId c = toNodeId')
                            (connections s))
          then connections s
          else connections s ++ [mkConn uuid fromNodeId' toNodeId']
        else connections s
    | None => connections s
    end in
  mkEditor (nodes s) connections' None (selectedNodeId s) (nodeToDelete s).

(** [handleCanvasMouseUp] *)
Definition handleCanvasMouseUp (s : EditorState) : EditorState :=
  mkEditor (nodes s) (connections s) None (selectedNodeId s) (nodeToDelete s).

(** [handleKeyDown] *)
Definition handleKeyDown (key : string) (s : EditorState) : EditorState :=
  match selectedNodeId s with
  | Some k =>
      if (String.eqb key "Delete" || String.eqb key "Backspace") && truthy k
      then requestRemoveNode k s
      else s
  | None => s
  end.

(** A graph as the editor keeps it: the ids of the nodes are distinct,
    every connection joins two different nodes of the graph, and no two
    connections join the same nodes in the same direction. *)
Record WellFormed (nodes : list WorkflowNode) (connections : list Connection) : Prop := {
  wf_ids : NoDup (id <$> nodes);
  wf_ends : ∀ c, c ∈ connections →
              fromNodeId c ∈ id <$> nodes ∧ toNodeId c ∈ id <$> nodes
              ∧ fromNodeId c ≠ toNodeId c;
  wf_single : NoDup (endpoints <$> connections);
}.

(** A workflow that [getExecutionOrder] accepts. *)
Definition accepted (nodes : list WorkflowNode) (connections : list Connection) : Prop :=
  ∃ order, getExecutionOrder (enoughFuel nodes connections) nodes connections
           = Some (Ordered order).

End Editor.

(** ** The API key: [ApiKeyConfig], [handleApiKeyChange] and the loading of
    the key when [App] mounts *)

Module Config.
Import Text Gemini.

(** What [handleSave] and [handleClear] of [ApiKeyConfig] do with the
    text of the input: they show an error, or they hand a key to
    [onApiKeyChange]. *)
Inductive Handed := ShowsError (message : string) | HandsOn (key : string).

Definition invalidFormat : string :=
  "Invalid API key format. Gemini API keys typically start with "
  +:+ doubleQuote +:+ "AI" +:+ doubleQuote
  +:+ " and are longer than 30 characters.".

(** [handleSave] *)
Definition handleSave (apiKey : string) : Handed :=
  if negb (truthy (trim apiKey)) then ShowsError "API key cannot be empty"
  else if negb (startsWith "AI" apiKey) || bool_decide (String.length apiKey < 30)
       then ShowsError invalidFormat
       else HandsOn (trim apiKey).

(** [handleClear] *)
Definition handleClear : Handed := HandsOn "".

(** What [handleApiKeyChange] and the mount effect read and write of
    [App] and of the browser: the [apiKey] state, the [error] state and
    [localStorage]. *)
Record KeyState := mkKeys {
  apiKey : string;
  error : option string;
  localStorage : gmap string string;
}.

Definition setApiKeyState (v : string) (a : KeyState) : KeyState :=
  mkKeys v (error a) (localStorage a).
Definition setError (v : option string) (a : KeyState) : KeyState :=
  mkKeys (apiKey a) v (localStorage a).
Definition setItem (k v : string) (a : KeyState) : KeyState :=
  mkKeys (apiKey a) (error a) (<[k:=v]> (localStorage a)).
Definition removeItem (k : string) (a : KeyState) : KeyState :=
  mkKeys (apiKey a) (error a) (delete k (localStorage a)).

Definition update (f : KeyState → KeyState) (w : World KeyState) : World KeyState :=
  mkWorld (ai w) (ticks w) (calls w) (trace w) (f (caller w)).

(** [handleApiKeyChange].  [setItemThrows] tells whether
    [localStorage.setItem] throws, as it does when the storage is full. *)
Definition handleApiKeyChange (setItemThrows : bool) (newApiKey : string)
    (w : World KeyState) : World KeyState :=
  let w1 := update (setApiKeyState newApiKey) w in
  let failed := update (setError (Some "Failed to save API key. Please try again.")) in
  if truthy newApiKey then
    if setItemThrows then failed w1
    else
      match setApiKey newApiKey (update (setItem "gemini-api-key" newApiKey) w1) with
      | (Ok _, w2) => w2
      | (Throw _, w2) => failed w2
      end
  else update (removeItem "gemini-api-key") w1.

(** The second [try] block of the mount effect of [App]. *)
Definition loadApiKey (w : World KeyState) : World KeyState :=
  match localStorage (caller w) !! "gemini-api-key" with
  | Some savedApiKey =>
      if truthy savedApiKey then
        match setApiKey savedApiKey (update (setApiKeyState savedApiKey) w) with
        | (_, w') => w'
        end
      else w
  | None => w
  end.

(** The page loaded anew over a storage: no client, the initial state. *)
Definition reloaded (storage : gmap string string) : World KeyState :=
  mkWorld None 0 0 [] (mkKeys "" None storage).

End Config.

(** ** The figures of the dashboard: [summaryStats] *)

Module Dashboard.

Global Instance Status_eq_dec : EqDecision Status.
Proof. solve_decision. Defined.

(** [summaryStats]: the fields [totalOps] and [uniqueImages].  The fields
    [totalCost] and [totalCredits], sums of floating-point numbers over
    logs that are read from [localStorage] as they are, are left out. *)
Definition successfulOps (logs : list OperationLog) : list OperationLog :=
  filter (fun log => status log = StatusSuccess) logs.
Definition uniqueImages (logs : list OperationLog) : nat :=
  size (list_to_set (imageName <$> successfulOps logs) : gset string).

(** The records that the runner writes for completed steps. *)
Definition successes (added : list OperationLog) : Prop :=
  Forall (fun entry => ∃ image step, entry = App.successLog image step) added.

End Dashboard.

(** * Properties of the scheduler *)

Module SchedulerFacts.
Import Scheduler.

Section Tables.

Lemma elem_of_fmap_snoc {A B} (f : A → B) (l : list A) (x : A) (k : B) :
  k ∈ (f <$> l) ++ (f <$> [x]) ↔ k ∈ f <$> l ∨ k = f x.
Proof.
  rewrite elem_of_app. cbn [fmap list_fmap].
  by rewrite list_elem_of_singleton.
Qed.

Lemma filter_none {A} (P : A → Prop) `{∀ x, Decision (P x)} (l : list A) :
  (∀ x, x ∈ l → ¬ P x) → filter P l = [].
Proof.
  induction l as [|a l IH]; intros Hl; [done|].
  rewrite filter_cons_False by (apply Hl; left).
  apply IH. intros x Hx. apply Hl. by right.
Qed.

Lemma initNode_adj (nodes : list WorkflowNode) (k : string) :
  adj (foldl initNode (mkTables ∅ ∅) nodes) !! k
  = if decide (k ∈ id <$> nodes) then Some [] else None.
Proof.
  induction nodes as [|n l IH] using rev_ind.
  - cbn [foldl adj inDegree]. rewrite lookup_empty, decide_False; [done|set_solver].
  - rewrite foldl_snoc, fmap_app. cbn [initNode adj inDegree].
    destruct (decide (id n = k)) as [<-|Hne].
    + rewrite lookup_insert_eq, decide_True; [done|].
      apply elem_of_fmap_snoc. by right.
    + rewrite lookup_insert_ne, IH by done.
      apply decide_ext. rewrite elem_of_fmap_snoc. naive_solver.
Qed.

Lemma initNode_inDegree (nodes : list WorkflowNode) (k : string) :
  inDegree (foldl initNode (mkTables ∅ ∅) nodes) !! k
  = if decide (k ∈ id <$> nodes) then Some 0 else None.
Proof.
  induction nodes as [|n l IH] using rev_ind.
  - cbn [foldl adj inDegree]. rewrite lookup_empty, decide_False; [done|set_solver].
  - rewrite foldl_snoc, fmap_app. cbn [initNode adj inDegree].
    destruct (decide (id n = k)) as [<-|Hne].
    + rewrite lookup_insert_eq, decide_True; [done|].
      apply elem_of_fmap_snoc. by right.
    + rewrite lookup_insert_ne, IH by done.
      apply decide_ext. rewrite elem_of_fmap_snoc. naive_solver.
Qed.

(** The adjacency table maps every node id to its successors, in
    connection order, and nothing else. *)
Lemma buildTables_adj (nodes : list WorkflowNode) (connections : list Connection) (k : string) :
  adj (buildTables nodes connections) !! k
  = if decide (k ∈ id <$> nodes) then Some (successors connections k) else None.
Proof.
  unfold buildTables.
  induction connections as [|c l IH] using rev_ind.
  - simpl. rewrite initNode_adj. done.
  - rewrite foldl_snoc. unfold addConnection at 1. simpl.
    unfold successors. rewrite filter_app, fmap_app.
    destruct (decide (fromNodeId c = k)) as [<-|Hne].
    + rewrite IH, filter_cons_True by done. cbn [fmap list_fmap].
      case_decide as Hin.
      * by rewrite lookup_insert_eq.
      * done.
    + rewrite filter_cons_False, app_nil_r by done. cbn [fmap list_fmap].
      destruct (adj _ !! fromNodeId c); [rewrite lookup_insert_ne by done|]; apply IH.
Qed.

(** The in-degree table counts the connections entering every node id
    and every id that some connection points to. *)
Lemma buildTables_inDegree (nodes : list WorkflowNode) (connections : list Connection) (k : string) :
  inDegree (buildTables nodes connections) !! k
  = if decide (k ∈ id <$> nodes ∨ k ∈ toNodeId <$> connections)
    then Some (edgesInto connections k) else None.
Proof.
  unfold buildTables.
  induction connections as [|c l IH] using rev_ind.
  - simpl. rewrite initNode_inDegree.
    repeat case_decide; try done; set_solver.
  - rewrite foldl_snoc. unfold addConnection at 1. simpl.
    unfold edgesInto. rewrite filter_app, length_app, fmap_app.
    destruct (decide (toNodeId c = k)) as [<-|Hne].
    + rewrite lookup_insert_eq, IH, filter_cons_True by done.
      case_decide as Hin;
        rewrite decide_True by (right; apply elem_of_fmap_snoc; by right);
        cbn [default length]; [f_equal; lia|].
      f_equal. unfold edgesInto. rewrite filter_none; [done|].
      intros x Hx Heq. apply Hin. right.
      rewrite <- Heq. by apply list_elem_of_fmap_2.
    + rewrite lookup_insert_ne, IH, filter_cons_False by done.
      cbn [length]. rewrite Nat.add_0_r.
      apply decide_ext. rewrite elem_of_fmap_snoc. naive_solver.
Qed.

Lemma buildNodeMap_lookup (nodes : list WorkflowNode) (n : WorkflowNode) :
  NoDup (id <$> nodes) → n ∈ nodes → buildNodeMap nodes !! id n = Some n.
Proof.
  unfold buildNodeMap.
  induction nodes as [|m l IH] using rev_ind; [set_solver|].
  rewrite fmap_app, foldl_snoc. simpl. intros Hnd Hin.
  apply NoDup_app in Hnd as (Hnd & Hdisj & _).
  apply elem_of_app in Hin as [Hin|Hin].
  - rewrite lookup_insert_ne; [by apply IH|].
    intros Heq. apply (Hdisj (id n)); [by apply list_elem_of_fmap_2|]. set_solver.
  - apply list_elem_of_singleton in Hin as ->. by rewrite lookup_insert_eq.
Qed.

Lemma buildNodeMap_dom (nodes : list WorkflowNode) (k : string) :
  is_Some (buildNodeMap nodes !! k) ↔ k ∈ id <$> nodes.
Proof.
  unfold buildNodeMap.
  induction nodes as [|m l IH] using rev_ind.
  - simpl. rewrite lookup_empty. split; [by intros []|set_solver].
  - rewrite fmap_app, foldl_snoc. simpl.
    destruct (decide (id m = k)) as [<-|Hne].
    + rewrite lookup_insert_eq. split; [set_solver|by eauto].
    + rewrite lookup_insert_ne, IH by done. set_solver.
Qed.
End Tables.

(** *** Single chains *)

Section Chains.

Lemma successors_endpoints (connections : list Connection) (k : string) :
  successors connections k
  = (filter (fun p => p.1 = k) (endpoints <$> connections)).*2.
Proof.
  unfold successors.
  induction connections as [|c l IH]; [done|].
  cbn [fmap list_fmap]. rewrite !filter_cons. cbn [endpoints fst].
  case_decide; cbn [fmap list_fmap snd]; by rewrite IH.
Qed.

Lemma edgesInto_endpoints (connections : list Connection) (k : string) :
  edgesInto connections k
  = length (filter (fun p => p.2 = k) (endpoints <$> connections)).
Proof.
  unfold edgesInto.
  induction connections as [|c l IH]; [done|].
  cbn [fmap list_fmap]. rewrite !filter_cons. cbn [endpoints snd].
  case_decide; cbn [length]; by rewrite IH.
Qed.

Lemma chainEdges_cons2 (a b : string) (t : list string) :
  chainEdges (a :: b :: t) = (a, b) :: chainEdges (b :: t).
Proof. done. Qed.

Lemma chainEdges_elem (l : list string) (a b : string) :
  (a, b) ∈ chainEdges l → ∃ i, l !! i = Some a ∧ l !! S i = Some b.
Proof.
  induction l as [|x [|y t] IH]; [by intros ?%elem_of_nil..|].
  rewrite chainEdges_cons2, elem_of_cons. intros [[= -> ->]|Hin].
  - by exists 0.
  - destruct (IH Hin) as (i & ? & ?). by exists (S i).
Qed.

Lemma chainEdges_sources (l : list string) (x : string) :
  x ∉ l → filter (fun p => p.1 = x) (chainEdges l) = [].
Proof.
  intros Hx. apply filter_none. intros [a b] Hin ?. simplify_eq/=.
  apply chainEdges_elem in Hin as (i & Hi & _).
  apply list_elem_of_lookup_2 in Hi. by apply Hx.
Qed.

Lemma chainEdges_targets (l : list string) (x : string) :
  x ∉ tail l → filter (fun p => p.2 = x) (chainEdges l) = [].
Proof.
  intros Hx. apply filter_none. intros [a b] Hin ?. simplify_eq/=.
  apply chainEdges_elem in Hin as (i & _ & Hi).
  destruct l as [|y t]; [done|]. cbn in Hi, Hx.
  apply list_elem_of_lookup_2 in Hi. by apply Hx.
Qed.

(** In a chain with distinct ids, the only edge leaving [a] goes to the
    next step. *)
Lemma chainEdges_leaving (pre suf : list string) (a : string) :
  NoDup (pre ++ a :: suf) →
  filter (fun p => p.1 = a) (chainEdges (pre ++ a :: suf))
  = match suf with [] => [] | b :: _ => [(a, b)] end.
Proof.
  induction pre as [|x pre IH]; intros Hnd.
  - destruct suf as [|b t]; [done|].
    cbn [app]. rewrite chainEdges_cons2, filter_cons_True by done.
    rewrite chainEdges_sources; [done|]. by apply NoDup_cons_1_1 in Hnd.
  - cbn [app] in *. apply NoDup_cons in Hnd as [Hx Hnd].
    destruct (pre ++ a :: suf) as [|y t] eqn:E; [by destruct pre|].
    rewrite chainEdges_cons2, filter_cons_False; [by apply IH|].
    cbn. intros ->. apply Hx. rewrite <- E. set_solver.
Qed.

(** In a chain with distinct ids, the first step has no entering edge
    and every other step has exactly one. *)
Lemma chainEdges_entering (pre suf : list string) (a : string) :
  NoDup (pre ++ a :: suf) →
  length (filter (fun p => p.2 = a) (chainEdges (pre ++ a :: suf)))
  = match pre with [] => 0 | _ => 1 end.
Proof.
  induction pre as [|x pre IH]; intros Hnd.
  - rewrite chainEdges_targets; [done|]. by apply NoDup_cons_1_1 in Hnd.
  - cbn [app] in *. apply NoDup_cons in Hnd as [Hx Hnd].
    destruct pre as [|y pre].
    + cbn [app] in *. rewrite chainEdges_cons2, filter_cons_True by done.
      rewrite chainEdges_targets; [done|]. by apply NoDup_cons_1_1 in Hnd.
    + cbn [app] in *. rewrite chainEdges_cons2, filter_cons_False.
      * by rewrite IH.
      * cbn. intros ->. apply NoDup_cons_1_1 in Hnd. set_solver.
Qed.

Lemma drain_chain (adjacency : gmap string (list string))
    (nodeMap : gmap string WorkflowNode) (rest : list WorkflowNode) :
  ∀ (u : WorkflowNode) (deg : gmap string nat) (sorted : list WorkflowNode) (fuel : nat),
    NoDup (id <$> u :: rest) →
    (∀ n, n ∈ u :: rest → nodeMap !! id n = Some n) →
    linked adjacency (id <$> u :: rest) →
    (∀ n, n ∈ rest → deg !! id n = Some 1) →
    length (u :: rest) ≤ fuel →
    drain fuel adjacency nodeMap [id u] deg sorted = Some (sorted ++ u :: rest).
Proof.
  induction rest as [|b rest IH]; intros u deg sorted fuel Hnd Hmap Hlink Hdeg Hfuel;
    (destruct fuel as [|fuel]; [cbn in Hfuel; lia|]).
  - destruct Hlink as [Hu _]. cbn [drain].
    rewrite Hmap by left. rewrite Hu. cbn. by destruct fuel.
  - destruct Hlink as [Hu Hlink]. cbn [drain].
    rewrite Hmap by left. rewrite Hu.
    cbn [default from_option Datatypes.id relax fmap list_fmap]. unfold decremented.
    rewrite (Hdeg b) by left. rewrite lookup_insert_eq, decide_True by done.
    cbn [app]. rewrite (IH b); first by rewrite <- app_assoc.
    + by apply NoDup_cons in Hnd as [_ ?].
    + intros n Hn. apply Hmap. by right.
    + done.
    + intros n Hn. rewrite lookup_insert_ne; [apply Hdeg; by right|].
      cbn [fmap list_fmap] in Hnd.
      apply NoDup_cons in Hnd as [_ [Hb _]%NoDup_cons].
      intros Heq. apply Hb. rewrite Heq. by apply list_elem_of_fmap_2.
    + cbn in *. lia.
Qed.

Context (nodes chain : list WorkflowNode) (connections : list Connection).
Hypothesis Hchain : SingleChain nodes connections chain.

Lemma chain_nodes_distinct : NoDup (id <$> nodes).
Proof.
  destruct Hchain as [Hnd Hperm _]. by rewrite <- Hperm.
Qed.

Lemma chain_elem_nodes (k : string) : k ∈ id <$> chain ↔ k ∈ id <$> nodes.
Proof. destruct Hchain as [_ Hperm _]. by rewrite Hperm. Qed.

Lemma chain_adj (pre suf : list string) (a : string) :
  id <$> chain = pre ++ a :: suf →
  adj (buildTables nodes connections) !! a
  = Some (match suf with [] => [] | b :: _ => [b] end).
Proof.
  intros E. rewrite buildTables_adj, decide_True.
  2:{ apply chain_elem_nodes. rewrite E. set_solver. }
  f_equal. rewrite successors_endpoints.
  destruct Hchain as [Hnd _ Hlinks].
  assert ((filter (λ p, p.1 = a) (endpoints <$> connections)).*2
          ≡ₚ (filter (λ p, p.1 = a) (chainEdges (id <$> chain))).*2) as Hp
    by by rewrite Hlinks.
  rewrite E, chainEdges_leaving in Hp by by rewrite <- E.
  destruct suf; cbn in Hp.
  - by apply Permutation_nil_r in Hp.
  - by apply Permutation_singleton_r in Hp.
Qed.

Lemma chain_linked (pre l : list string) :
  id <$> chain = pre ++ l → linked (adj (buildTables nodes connections)) l.
Proof.
  revert pre. induction l as [|a t IH]; intros pre E; [done|]. split.
  - by apply (chain_adj pre t).
  - apply (IH (pre ++ [a])). by rewrite <- app_assoc.
Qed.

Lemma chain_inDegree (pre suf : list string) (a : string) :
  id <$> chain = pre ++ a :: suf →
  inDegree (buildTables nodes connections) !! a
  = Some (match pre with [] => 0 | _ => 1 end).
Proof.
  intros E. rewrite buildTables_inDegree, decide_True.
  2:{ left. apply chain_elem_nodes. rewrite E. set_solver. }
  f_equal. rewrite edgesInto_endpoints.
  destruct Hchain as [Hnd _ Hlinks].
  rewrite Hlinks, E. apply chainEdges_entering. by rewrite <- E.
Qed.

Lemma chain_initialQueue (u : WorkflowNode) (rest : list WorkflowNode) :
  chain = u :: rest →
  initialQueue nodes (inDegree (buildTables nodes connections)) = [id u].
Proof.
  intros E. unfold initialQueue.
  set (deg := inDegree (buildTables nodes connections)).
  assert (filter (λ node, deg !! id node = Some 0) nodes ≡ₚ [u]) as Hp.
  { destruct Hchain as [Hnd Hperm _]. rewrite <- Hperm, E.
    rewrite filter_cons_True.
    2:{ apply (chain_inDegree [] (id <$> rest)). by rewrite E. }
    rewrite filter_none; [done|].
    intros n Hn. apply list_elem_of_split in Hn as (l1 & l2 & ->).
    unfold deg.
    rewrite (chain_inDegree (id u :: (id <$> l1)) (id <$> l2)); [done|].
    rewrite E. cbn [fmap list_fmap]. by rewrite fmap_app. }
  apply Permutation_singleton_r in Hp. by rewrite Hp.
Qed.

(** On a single chain the scheduler returns exactly the chain. *)
Lemma getExecutionOrder_chain (fuel : nat) :
  length nodes ≤ fuel →
  getExecutionOrder fuel nodes connections = Some (Ordered chain).
Proof.
  intros Hfuel. pose proof Hchain as [Hnd Hperm Hlinks].
  assert (chain = [] ∨ ∃ u rest, chain = u :: rest) as [E|(u & rest & E)]
    by (destruct chain; eauto).
  { rewrite E in Hperm |- *. apply Permutation_nil_l in Hperm. by rewrite <- Hperm. }
  assert (getExecutionOrder fuel nodes connections
          = sortedOrder ← drain fuel (adj (buildTables nodes connections))
              (buildNodeMap nodes)
              (initialQueue nodes (inDegree (buildTables nodes connections)))
              (inDegree (buildTables nodes connections)) [];
            if decide (length sortedOrder ≠ length nodes)
            then Some Invalid else Some (Ordered sortedOrder)) as ->.
  { assert (nodes ≠ []) as Hne
      by (intros Hn; rewrite Hn, E in Hperm; by apply Permutation_nil_r in Hperm).
    clear -Hne. by destruct nodes. }
  rewrite (chain_initialQueue u rest) by done.
  rewrite (drain_chain _ _ rest u).
  - cbn [mbind option_bind app]. rewrite decide_False; [by rewrite E|].
    rewrite <- Hperm, E. auto.
  - by rewrite <- E.
  - intros n Hn. apply buildNodeMap_lookup; [apply chain_nodes_distinct|].
    by rewrite <- Hperm, E.
  - apply (chain_linked []). by rewrite E.
  - intros n Hn. apply list_elem_of_split in Hn as (l1 & l2 & ->).
    rewrite (chain_inDegree (id u :: (id <$> l1)) (id <$> l2)); [done|].
    rewrite E. cbn [fmap list_fmap]. by rewrite fmap_app.
  - by rewrite <- E, Hperm.
Qed.

End Chains.

(** C1: for every acyclic, connected single-chain graph,
    [getExecutionOrder] returns an order that is a permutation of all the
    steps, has as many entries as there are steps, and places the source
    of every connection before its target. *)
Theorem getExecutionOrder_single_chain
    (nodes chain : list WorkflowNode) (connections : list Connection) (fuel : nat) :
  SingleChain nodes connections chain →
  length nodes ≤ fuel →
  ∃ order,
    getExecutionOrder fuel nodes connections = Some (Ordered order)
    ∧ order ≡ₚ nodes
    ∧ length order = length nodes
    ∧ ∀ c, c ∈ connections → precedes order (fromNodeId c) (toNodeId c).
Proof.
  intros Hchain Hfuel. exists chain.
  pose proof Hchain as [Hnd Hperm Hlinks].
  split; [by apply getExecutionOrder_chain|].
  split; [done|]. split; [by rewrite Hperm|].
  intros c Hc.
  assert (endpoints c ∈ chainEdges (id <$> chain)) as Hin.
  { rewrite <- Hlinks. by apply list_elem_of_fmap_2. }
  apply chainEdges_elem in Hin as (i & Hi & Hj).
  exists i, (S i). auto.
Qed.

(** *** The loop in general: graphs with distinct node ids *)

Section Relax.

Lemma occurrences_cons (v x : string) (l : list string) :
  occurrences v (x :: l) = (if decide (x = v) then 1 else 0) + occurrences v l.
Proof. unfold occurrences. rewrite filter_cons. by case_decide. Qed.

Lemma occurrences_zero (v : string) (l : list string) :
  occurrences v l = 0 ↔ v ∉ l.
Proof.
  induction l as [|x l IH]; [split; [intros _; apply not_elem_of_nil|done]|].
  rewrite occurrences_cons, not_elem_of_cons.
  case_decide; [|rewrite <- IH]; naive_solver lia.
Qed.

Lemma relax_queue (targets : list string) :
  ∀ deg queue, ∃ newly, (relax targets deg queue).2 = queue ++ newly.
Proof.
  induction targets as [|v rest IH]; intros deg queue; cbn [relax].
  - exists []. by rewrite app_nil_r.
  - case_decide.
    + destruct (IH (<[v:=decremented deg v]> deg) (queue ++ [v])) as [newly ->].
      exists (v :: newly). by rewrite <- app_assoc.
    + apply IH.
Qed.

(** What the inner loop does when every target still has at least as
    many unprocessed entering connections as it occurs in [targets]:
    each in-degree drops by the number of occurrences, and exactly the
    targets whose in-degree reaches zero are appended to the queue. *)
Lemma relax_spec (targets : list string) :
  ∀ (deg : gmap string nat) (queue : list string),
    (∀ v, v ∈ targets → ∃ d, deg !! v = Some d ∧ occurrences v targets ≤ d) →
    ∃ deg' newly,
      relax targets deg queue = (deg', queue ++ newly)
      ∧ (∀ v, deg' !! v = (fun d => d - occurrences v targets) <$> deg !! v)
      ∧ NoDup newly
      ∧ (∀ v, v ∈ newly ↔ v ∈ targets ∧ deg !! v = Some (occurrences v targets)).
Proof.
  induction targets as [|v0 rest IH]; intros deg queue Hpre.
  - exists deg, []. cbn [relax]. rewrite app_nil_r.
    split_and!; [done| |constructor|].
    + intros v. destruct (deg !! v); cbn; [f_equal; lia|done].
    + intros v. rewrite !elem_of_nil. naive_solver.
  - destruct (Hpre v0) as (d0 & Hd0 & Hle); [left|].
    rewrite occurrences_cons, decide_True in Hle by done.
    destruct d0 as [|n]; [lia|].
    assert (decremented deg v0 = n) as Hdec by (unfold decremented; by rewrite Hd0).
    cbn [relax]. rewrite Hdec.
    set (deg1 := <[v0:=n]> deg).
    assert (∀ v, v ∈ rest → ∃ d, deg1 !! v = Some d ∧ occurrences v rest ≤ d) as Hpre1.
    { intros v Hv. unfold deg1. destruct (decide (v0 = v)) as [<-|Hne].
      - rewrite lookup_insert_eq. exists n. split; [done|lia].
      - rewrite lookup_insert_ne by done.
        destruct (Hpre v) as (d & Hd & Hle'); [by right|].
        rewrite occurrences_cons, decide_False in Hle' by done. eauto. }
    assert (∀ v, deg1 !! v = Some (occurrences v rest)
                 ↔ deg !! v = Some (occurrences v (v0 :: rest))) as Hsame.
    { intros v. unfold deg1. rewrite occurrences_cons.
      destruct (decide (v0 = v)) as [<-|Hne].
      - rewrite lookup_insert_eq, Hd0. split; intros [=]; f_equal; lia.
      - by rewrite lookup_insert_ne. }
    set (queue1 := if decide (deg1 !! v0 = Some 0) then queue ++ [v0] else queue).
    destruct (IH deg1 queue1 Hpre1) as (deg' & newly1 & -> & Hdeg' & Hnd1 & Hnew1).
    exists deg', ((if decide (n = 0) then [v0] else []) ++ newly1).
    split_and!.
    + f_equal. unfold queue1, deg1. rewrite lookup_insert_eq.
      destruct n; [rewrite !decide_True by done|rewrite !decide_False by done];
        [by rewrite <- app_assoc|done].
    + intros v. rewrite Hdeg'. unfold deg1. rewrite occurrences_cons.
      destruct (decide (v0 = v)) as [<-|Hne].
      * by rewrite lookup_insert_eq, Hd0.
      * rewrite lookup_insert_ne by done. by destruct (deg !! v).
    + case_decide as Hn; [|done]. subst n. constructor; [|done].
      rewrite Hnew1. intros [Hin _]. apply occurrences_zero in Hin; [done|lia].
    + intros v. rewrite elem_of_app, Hnew1, Hsame, elem_of_cons.
      destruct (decide (v0 = v)) as [<-|Hne].
      * rewrite Hd0, occurrences_cons, (decide_True _ _ (eq_refl v0)).
        case_decide as Hn.
        -- subst n. rewrite list_elem_of_singleton.
           assert (occurrences v0 rest = 0) as -> by lia. naive_solver.
        -- rewrite elem_of_nil. split; [naive_solver|].
           intros [_ [= Heq]]. right. split; [|f_equal; lia].
           apply dec_stable. rewrite <- occurrences_zero. lia.
      * case_decide; rewrite ?list_elem_of_singleton, ?elem_of_nil; naive_solver.
Qed.

End Relax.

Lemma getExecutionOrder_unfold (fuel : nat) (nodes : list WorkflowNode)
    (connections : list Connection) :
  nodes ≠ [] →
  getExecutionOrder fuel nodes connections
  = sortedOrder ← drain fuel (adj (buildTables nodes connections))
        (buildNodeMap nodes)
        (initialQueue nodes (inDegree (buildTables nodes connections)))
        (inDegree (buildTables nodes connections)) [];
    if decide (length sortedOrder ≠ length nodes)
    then Some Invalid else Some (Ordered sortedOrder).
Proof. by destruct nodes. Qed.

Section Counting.
Context {A : Type} (P Q : A → Prop) `{∀ x, Decision (P x)} `{∀ x, Decision (Q x)}.

Lemma filter_ext_in (l : list A) :
  (∀ x, x ∈ l → P x ↔ Q x) → filter P l = filter Q l.
Proof.
  induction l as [|a l IH]; intros HPQ; [done|].
  rewrite !filter_cons, IH by (intros x Hx; apply HPQ; by right).
  specialize (HPQ a ltac:(left)). repeat case_decide; naive_solver.
Qed.

Lemma length_filter_impl (l : list A) :
  (∀ x, P x → Q x) → length (filter P l) ≤ length (filter Q l).
Proof.
  intros HPQ. induction l as [|a l IH]; [done|].
  rewrite !filter_cons. repeat case_decide; cbn [length]; naive_solver lia.
Qed.

Lemma length_filter_impl_lt (l : list A) (a : A) :
  (∀ x, P x → Q x) → a ∈ l → Q a → ¬ P a →
  length (filter P l) < length (filter Q l).
Proof.
  intros HPQ Hin HQ HP. apply list_elem_of_split in Hin as (l1 & l2 & ->).
  rewrite !filter_app, !length_app, (filter_cons_True Q), (filter_cons_False P) by done.
  pose proof (length_filter_impl l1 HPQ). pose proof (length_filter_impl l2 HPQ).
  cbn [length]. lia.
Qed.
End Counting.

Section Loop.
Context (nodes : list WorkflowNode) (connections : list Connection).
Hypothesis Hids : NoDup (id <$> nodes).

Local Abbreviation T := (buildTables nodes connections).
Local Abbreviation M := (buildNodeMap nodes).

Lemma buildNodeMap_id (l : list WorkflowNode) (k : string) (n : WorkflowNode) :
  buildNodeMap l !! k = Some n → id n = k.
Proof.
  unfold buildNodeMap. induction l as [|m l IH] using rev_ind; [done|].
  rewrite foldl_snoc. destruct (decide (id m = k)) as [<-|Hne].
  - rewrite lookup_insert_eq. by intros [= ->].
  - by rewrite lookup_insert_ne.
Qed.

Lemma targets_of (u : string) :
  default [] (adj T !! u)
  = if decide (u ∈ id <$> nodes) then successors connections u else [].
Proof. rewrite buildTables_adj. by case_decide. Qed.

Lemma occurrences_successors (u v : string) :
  occurrences v (successors connections u)
  = length (filter (fun c => toNodeId c = v ∧ fromNodeId c = u) connections).
Proof.
  unfold occurrences, successors.
  induction connections as [|c l IH]; [done|].
  rewrite !filter_cons.
  destruct (decide (fromNodeId c = u)) as [Hu|Hu].
  - cbn [fmap list_fmap]. rewrite filter_cons.
    repeat case_decide; cbn [length]; naive_solver.
  - rewrite decide_False by naive_solver. done.
Qed.

Lemma processed_snoc (popped : list string) (u v : string) :
  u ∉ popped →
  processed nodes connections (popped ++ [u]) v
  = processed nodes connections popped v
    + occurrences v (if decide (u ∈ id <$> nodes) then successors connections u else []).
Proof.
  intros Hu.
  assert (occurrences v (if decide (u ∈ id <$> nodes)
                         then successors connections u else [])
          = length (filter (fun c => toNodeId c = v ∧ fromNodeId c = u
                                     ∧ u ∈ id <$> nodes) connections)) as ->.
  { case_decide as Hin.
    - rewrite occurrences_successors. f_equal. apply list_filter_iff. naive_solver.
    - rewrite filter_none; [done|]. naive_solver. }
  unfold processed. induction connections as [|c l IH]; [done|].
  rewrite !filter_cons.
  destruct (decide (toNodeId c = v ∧ fromNodeId c ∈ popped
                    ∧ fromNodeId c ∈ id <$> nodes)) as [(?&?&?)|Hn1];
  destruct (decide (toNodeId c = v ∧ fromNodeId c = u
                    ∧ u ∈ id <$> nodes)) as [(?&?&?)|Hn2].
  - by simplify_eq.
  - rewrite decide_True; [cbn [length]; lia|].
    rewrite elem_of_app. naive_solver.
  - rewrite decide_True; [cbn [length]; lia|].
    rewrite elem_of_app, list_elem_of_singleton. naive_solver.
  - rewrite decide_False; [done|].
    rewrite elem_of_app, list_elem_of_singleton. clear IH. naive_solver.
Qed.

Lemma processed_le (popped : list string) (v : string) :
  processed nodes connections popped v ≤ edgesInto connections v.
Proof. apply length_filter_impl. naive_solver. Qed.

Lemma processed_lt (popped : list string) (v : string) (c : Connection) :
  c ∈ connections → toNodeId c = v → fromNodeId c ∉ popped →
  processed nodes connections popped v < edgesInto connections v.
Proof.
  intros Hc Hv Hfrom. apply (length_filter_impl_lt _ _ _ c); naive_solver.
Qed.

Lemma processed_nil (v : string) : processed nodes connections [] v = 0.
Proof.
  unfold processed. rewrite filter_none; [done|].
  intros c _ (_ & Hc & _). by apply elem_of_nil in Hc.
Qed.

(** One iteration of the [while] loop keeps the invariant. *)
Lemma relax_step (popped rest : list string) (u : string) (deg : gmap string nat) :
  LoopInv nodes connections popped (u :: rest) deg →
  ∃ deg' newly,
    relax (default [] (adj T !! u)) deg rest = (deg', rest ++ newly)
    ∧ LoopInv nodes connections (popped ++ [u]) (rest ++ newly) deg'.
Proof.
  intros [Hnd Hdeg Hready].
  assert (u ∉ popped) as Hu.
  { apply NoDup_app in Hnd as (_ & Hdisj & _). intros ?. eapply Hdisj; [done|left]. }
  set (targets := default [] (adj T !! u)).
  assert (∀ v, occurrences v targets + processed nodes connections popped v
               ≤ edgesInto connections v) as Hroom.
  { intros v. unfold targets. rewrite targets_of.
    pose proof (processed_snoc popped u v Hu).
    pose proof (processed_le (popped ++ [u]) v). lia. }
  assert (∀ v, v ∈ targets → tracked nodes connections v) as Htracked.
  { intros v. unfold targets. rewrite targets_of. case_decide; [|by intros ?%elem_of_nil].
    unfold successors. intros (c & -> & Hc)%list_elem_of_fmap.
    right. apply list_elem_of_fmap_2. by apply list_elem_of_filter in Hc as [_ ?]. }
  destruct (relax_spec targets deg rest) as (deg' & newly & Hrel & Hdeg' & Hndn & Hnew).
  { intros v Hv. rewrite Hdeg, decide_True by auto.
    eexists. split; [done|]. specialize (Hroom v). lia. }
  exists deg', newly. split; [done|].
  assert (∀ v, deg' !! v =
    if decide (tracked nodes connections v)
    then Some (edgesInto connections v
               - processed nodes connections (popped ++ [u]) v)
    else None) as Hdeg''.
  { intros v. rewrite Hdeg', Hdeg, processed_snoc by done.
    rewrite <- targets_of. fold targets.
    case_decide; cbn; [f_equal; lia|done]. }
  assert (∀ v, v ∈ newly ↔ v ∈ targets ∧ deg' !! v = Some 0) as Hnew'.
  { intros v. rewrite Hnew, Hdeg', Hdeg.
    split; intros [Hv Heq]; split; try done.
    - rewrite decide_True in Heq |- * by auto. cbn. f_equal.
      injection Heq as Heq. lia.
    - rewrite decide_True in Heq |- * by auto. cbn in Heq. f_equal.
      injection Heq as Heq. specialize (Hroom v). lia. }
  assert (∀ v, v ∈ targets → deg' !! v = Some 0 → deg !! v ≠ Some 0) as Hfresh.
  { intros v Hv Heq Hold. rewrite Hdeg', Hold in Heq. cbn in Heq.
    assert (v ∈ newly) as Hin by (apply Hnew'; split; [done|]; by rewrite Hdeg', Hold).
    apply Hnew in Hin as [_ Hocc]. rewrite Hold in Hocc. injection Hocc as Hocc.
    symmetry in Hocc. by apply occurrences_zero in Hocc. }
  assert (∀ v, deg !! v = Some 0 → deg' !! v = Some 0) as Hkeep.
  { intros v Hold. by rewrite Hdeg', Hold. }
  assert (∀ v, deg' !! v = Some 0 → v ∉ targets → deg !! v = Some 0) as Hback.
  { intros v Heq Hv. rewrite Hdeg' in Heq.
    apply occurrences_zero in Hv. rewrite Hv in Heq.
    destruct (deg !! v); [|done]. cbn in Heq. f_equal. injection Heq. lia. }
  assert ((popped ++ [u]) ++ rest ++ newly = (popped ++ u :: rest) ++ newly) as Hshape
    by (by rewrite <- !app_assoc).
  split; [| done |]; rewrite Hshape.
  - apply NoDup_app. split_and!; [done| |done].
    intros v Hv Hin. apply Hready in Hv. apply Hnew' in Hin as [Ht Hz].
    by apply (Hfresh v).
  - intros v. rewrite elem_of_app, Hready, Hnew'.
    split.
    + intros [Hold|[_ ?]]; auto.
    + intros Hz. destruct (decide (v ∈ targets)); auto.
Qed.

Lemma edgesInto_zero (v : string) :
  edgesInto connections v = 0 ↔ v ∉ toNodeId <$> connections.
Proof.
  unfold edgesInto. split.
  - intros Hz (c & Hv & Hc)%list_elem_of_fmap.
    apply length_zero_iff_nil in Hz.
    apply (filter_nil_not_elem_of _ _ c Hz); [by symmetry|done].
  - intros Hv. rewrite filter_none; [done|].
    intros c Hc Heq. apply Hv. rewrite <- Heq. by apply list_elem_of_fmap_2.
Qed.

(** The invariant holds when the loop is entered. *)
Lemma initial_inv :
  LoopInv nodes connections [] (initialQueue nodes (inDegree T)) (inDegree T).
Proof.
  split.
  - cbn [app]. unfold initialQueue.
    eapply sublist_NoDup; [exact Hids|]. apply fmap_sublist, sublist_filter.
  - intros v. rewrite buildTables_inDegree, processed_nil, Nat.sub_0_r. done.
  - intros v. cbn [app]. unfold initialQueue. rewrite list_elem_of_fmap. split.
    + intros (n & -> & Hn). by apply list_elem_of_filter in Hn as [? _].
    + intros Hz. pose proof Hz as Hz'.
      rewrite buildTables_inDegree in Hz'. case_decide as Htr; [|done].
      injection Hz' as Hz'. apply edgesInto_zero in Hz'.
      destruct Htr as [Hv|Hv]; [|done].
      apply list_elem_of_fmap in Hv as (n & -> & Hn).
      exists n. split; [done|]. by apply list_elem_of_filter.
Qed.

(** An id is put on the queue only after every connection entering it
    has been processed, that is, after all its sources were dequeued. *)
Lemma ready_sources (popped queue : list string) (deg : gmap string nat)
    (v : string) (c : Connection) :
  LoopInv nodes connections popped queue deg →
  v ∈ popped ++ queue → c ∈ connections → toNodeId c = v →
  fromNodeId c ∈ popped.
Proof.
  intros [_ Hdeg Hready] Hv Hc Hto. apply Hready in Hv.
  rewrite Hdeg in Hv. case_decide; [|done]. injection Hv as Hv.
  apply dec_stable. intros Hfrom.
  pose proof (processed_lt popped v c Hc Hto Hfrom). lia.
Qed.

Lemma inv_bound (popped queue : list string) (deg : gmap string nat) :
  LoopInv nodes connections popped queue deg →
  length (popped ++ queue) ≤ length nodes + length connections.
Proof.
  intros [Hnd Hdeg Hready].
  rewrite <- (length_fmap id nodes), <- (length_fmap toNodeId connections),
    <- length_app.
  apply submseteq_length, NoDup_submseteq; [done|].
  intros v Hv. apply Hready in Hv. rewrite Hdeg in Hv.
  case_decide as Htr; [|done]. apply elem_of_app. exact Htr.
Qed.

(** A set of ids every member of which has an entering connection from
    another member: no member is ever dequeued. *)
Context (blocked : string → Prop).
Hypothesis Hblocked :
  ∀ w, blocked w → ∃ c, c ∈ connections ∧ toNodeId c = w ∧ blocked (fromNodeId c).

(** With distinct node ids the loop ends: every iteration dequeues an id
    that was never dequeued before. *)
Lemma drain_inv (fuel : nat) :
  ∀ (popped queue : list string) (deg : gmap string nat) (sorted : list WorkflowNode),
    LoopInv nodes connections popped queue deg →
    (∀ w, blocked w → w ∉ popped ++ queue) →
    length nodes + length connections < length popped + fuel →
    ∃ served,
      drain fuel (adj T) M queue deg sorted = Some (sorted ++ omap (M !!.) served)
      ∧ NoDup (popped ++ served)
      ∧ (∀ w, blocked w → w ∉ popped ++ served).
Proof.
  induction fuel as [|fuel IH]; intros popped queue deg sorted Hinv Hfree Hfuel.
  - destruct queue as [|u rest].
    + exists []. cbn. rewrite app_nil_r. split; [done|].
      split; [apply Hinv|done].
    + apply inv_bound in Hinv. rewrite length_app in Hinv. cbn in Hinv. lia.
  - destruct queue as [|u rest].
    + exists []. cbn. rewrite app_nil_r. split; [done|].
      split; [apply Hinv|done].
    + destruct (relax_step popped rest u deg Hinv) as (deg' & newly & Hrel & Hinv').
      cbn [drain]. rewrite Hrel.
      destruct (IH (popped ++ [u]) (rest ++ newly) deg'
                  (match M !! u with Some node => sorted ++ [node] | None => sorted end))
        as (served & -> & Hnd & Hfree'); [done| |rewrite length_app; cbn; lia|].
      * intros w Hw Hin.
        destruct (Hblocked w Hw) as (c & Hc & Hto & Hfrom).
        pose proof (ready_sources _ _ _ w c Hinv' Hin Hc Hto) as Hsrc.
        apply (Hfree _ Hfrom). rewrite elem_of_app, elem_of_cons.
        apply elem_of_app in Hsrc as [?|?%list_elem_of_singleton]; auto.
      * exists (u :: served). rewrite <- app_assoc in Hnd, Hfree'.
        split; [|done]. cbn [omap list_omap].
        destruct (M !! u); [by rewrite <- app_assoc|done].
Qed.

Lemma omap_ids (l : list string) :
  id <$> omap (M !!.) l = filter (fun k => k ∈ id <$> nodes) l.
Proof.
  induction l as [|k l IH]; [done|].
  cbn [omap list_omap]. rewrite filter_cons.
  destruct (M !! k) as [n|] eqn:E.
  - rewrite decide_True by (apply buildNodeMap_dom; eauto).
    cbn [fmap list_fmap]. rewrite IH. f_equal. by apply buildNodeMap_id in E.
  - rewrite decide_False; [done|].
    rewrite <- buildNodeMap_dom, E. by intros [].
Qed.

Lemma drain_from_start (fuel : nat) :
  enoughFuel nodes connections ≤ fuel →
  ∃ served,
    drain fuel (adj T) M (initialQueue nodes (inDegree T)) (inDegree T) []
    = Some (omap (M !!.) served)
    ∧ NoDup served ∧ (∀ w, blocked w → w ∉ served).
Proof.
  unfold enoughFuel. intros Hfuel.
  apply (drain_inv fuel [] _ _ []); [apply initial_inv| |cbn; lia].
  intros w Hw Hin. cbn [app] in Hin.
  destruct (Hblocked w Hw) as (c & Hc & Hto & Hfrom).
  pose proof (ready_sources _ _ _ w c initial_inv Hin Hc Hto) as Hsrc.
  by apply elem_of_nil in Hsrc.
Qed.

(** A blocked node id keeps the order incomplete. *)
Lemma getExecutionOrder_blocked (fuel : nat) (w : string) :
  w ∈ id <$> nodes → blocked w →
  enoughFuel nodes connections ≤ fuel →
  getExecutionOrder fuel nodes connections = Some Invalid.
Proof.
  intros Hw Hbw Hfuel.
  rewrite getExecutionOrder_unfold by (intros Hn; rewrite Hn in Hw; by apply elem_of_nil in Hw).
  destruct (drain_from_start fuel Hfuel) as (served & -> & Hnd & Hfree).
  cbn [mbind option_bind]. rewrite decide_True; [done|].
  rewrite <- (length_fmap id (omap _ _)), <- (length_fmap id nodes), omap_ids.
  assert (length (w :: filter (λ k, k ∈ id <$> nodes) served) ≤ length (id <$> nodes)).
  { apply submseteq_length, NoDup_submseteq.
    - constructor; [|by apply NoDup_filter].
      intros [_ Hin]%list_elem_of_filter. by apply (Hfree w).
    - intros v [->|[? _]%list_elem_of_filter]%elem_of_cons; done. }
  cbn [length] in *. lia.
Qed.

End Loop.

(** With distinct node ids the scheduler always returns. *)
Lemma getExecutionOrder_total (nodes : list WorkflowNode)
    (connections : list Connection) (fuel : nat) :
  NoDup (id <$> nodes) →
  enoughFuel nodes connections ≤ fuel →
  ∃ r, getExecutionOrder fuel nodes connections = Some r.
Proof.
  intros Hids Hfuel. destruct (decide (nodes = [])) as [->|Hne]; [by eexists|].
  rewrite getExecutionOrder_unfold by done.
  destruct (drain_from_start nodes connections Hids (fun _ => False)) with (fuel := fuel)
    as (served & -> & _); [by intros ? []|done|].
  cbn [mbind option_bind]. case_decide; eauto.
Qed.

Lemma onCycle_blocked (connections : list Connection) (w : string) :
  onCycle connections w →
  ∃ c, c ∈ connections ∧ toNodeId c = w ∧ onCycle connections (fromNodeId c).
Proof.
  unfold onCycle. intros Hw.
  assert (∀ x y, tc (connected connections) x y →
            ∃ z, rtc (connected connections) x z ∧ connected connections z y) as Hlast.
  { induction 1 as [x y Hxy|x y' y Hxy _ (z & Hz & Hzy)].
    - exists x. split; [constructor|done].
    - exists z. split; [by eapply rtc_l|done]. }
  destruct (Hlast _ _ Hw) as (z & Hwz & (c & Hc & <- & <-)).
  exists c. split_and!; [done..|].
  eapply tc_rtc_r; [|exact Hwz]. apply tc_once. by exists c.
Qed.

(** A graph with distinct node ids in which some step lies on a cycle of
    connections is rejected. *)
Theorem getExecutionOrder_cycle (nodes : list WorkflowNode)
    (connections : list Connection) (fuel : nat) (w : string) :
  NoDup (id <$> nodes) →
  w ∈ id <$> nodes → onCycle connections w →
  enoughFuel nodes connections ≤ fuel →
  getExecutionOrder fuel nodes connections = Some Invalid.
Proof.
  intros Hids Hw Hcyc Hfuel.
  by apply (getExecutionOrder_blocked nodes connections Hids
              (onCycle connections) (onCycle_blocked connections) fuel w).
Qed.


(** *** Order of the output *)

Section Order.
Context (adjacency : gmap string (list string)) (nodeMap : gmap string WorkflowNode).

Lemma drain_more_fuel (fuel : nat) :
  ∀ (fuel' : nat) (queue : list string) (deg : gmap string nat)
    (sorted r : list WorkflowNode),
    drain fuel adjacency nodeMap queue deg sorted = Some r → fuel ≤ fuel' →
    drain fuel' adjacency nodeMap queue deg sorted = Some r.
Proof.
  induction fuel as [|fuel IH]; intros fuel' queue deg sorted r Hr Hle;
    destruct queue as [|u rest]; cbn [drain] in Hr.
  - by destruct fuel'.
  - done.
  - by destruct fuel'.
  - destruct fuel' as [|fuel']; [lia|]. cbn [drain].
    destruct (relax _ deg rest) as [deg' queue']. apply IH; [done|lia].
Qed.

Lemma drain_extends (fuel : nat) :
  ∀ (queue : list string) (deg : gmap string nat) (sorted r : list WorkflowNode),
    drain fuel adjacency nodeMap queue deg sorted = Some r →
    ∃ rest, r = sorted ++ rest.
Proof.
  induction fuel as [|fuel IH]; intros queue deg sorted r Hr;
    destruct queue as [|u rest]; cbn [drain] in Hr; simplify_eq.
  - exists []. by rewrite app_nil_r.
  - exists []. by rewrite app_nil_r.
  - destruct (relax _ deg rest) as [deg' queue'].
    apply IH in Hr as [tl ->].
    destruct (nodeMap !! u); [rewrite <- app_assoc|]; eauto.
Qed.

(** The queue is first-in first-out: what is on the queue is emitted,
    in queue order, before anything that is enqueued later. *)
Lemma drain_prefix (q1 : list string) :
  ∀ (fuel : nat) (q2 : list string) (deg : gmap string nat)
    (sorted r : list WorkflowNode),
    drain fuel adjacency nodeMap (q1 ++ q2) deg sorted = Some r →
    ∃ rest, r = sorted ++ omap (nodeMap !!.) q1 ++ rest.
Proof.
  induction q1 as [|u q1 IH]; intros fuel q2 deg sorted r Hr.
  - by apply drain_extends in Hr.
  - destruct fuel as [|fuel]; [done|]. cbn [app drain] in Hr.
    destruct (relax_queue (default [] (adjacency !! u)) deg (q1 ++ q2)) as [newly Hq].
    destruct (relax _ deg (q1 ++ q2)) as [deg' queue']. cbn [snd] in Hq. subst queue'.
    rewrite <- app_assoc in Hr. apply IH in Hr as [rest ->].
    exists rest. cbn [omap list_omap].
    destruct (nodeMap !! u); [by rewrite <- app_assoc|done].
Qed.
End Order.

Lemma omap_nodeMap (nodes l : list WorkflowNode) :
  NoDup (id <$> nodes) → (∀ n, n ∈ l → n ∈ nodes) →
  omap (buildNodeMap nodes !!.) (id <$> l) = l.
Proof.
  intros Hids. induction l as [|n l IH]; intros Hl; [done|].
  cbn [fmap list_fmap omap list_omap].
  rewrite buildNodeMap_lookup by (try done; apply Hl; left).
  f_equal. apply IH. intros m Hm. apply Hl. by right.
Qed.

(** C9 (as amended): on a graph with distinct step ids the scheduler
    returns, returns the same result whatever the fuel, and breaks ties
    among the steps that have no entering connection by the insertion
    order of the step set: they open the order, in that insertion order. *)
Theorem getExecutionOrder_deterministic
    (nodes : list WorkflowNode) (connections : list Connection) :
  NoDup (id <$> nodes) →
  ∃ r,
    (∀ fuel, enoughFuel nodes connections ≤ fuel →
       getExecutionOrder fuel nodes connections = Some r)
    ∧ (∀ fuel r', getExecutionOrder fuel nodes connections = Some r' → r' = r)
    ∧ (∀ order, r = Ordered order →
         ∃ rest, order
           = filter (fun n => edgesInto connections (id n) = 0) nodes ++ rest).
Proof.
  intros Hids.
  destruct (getExecutionOrder_total nodes connections _ Hids (reflexivity _)) as [r Hr].
  assert (∀ f1 f2 r1, getExecutionOrder f1 nodes connections = Some r1 → f1 ≤ f2 →
            getExecutionOrder f2 nodes connections = Some r1) as Hmono.
  { intros f1 f2 r1 H1 Hle. destruct (decide (nodes = [])) as [->|Hne]; [done|].
    rewrite getExecutionOrder_unfold in H1 |- * by done.
    destruct (drain f1 _ _ _ _ _) as [o|] eqn:E; [|done].
    by rewrite (drain_more_fuel _ _ f1 f2 _ _ _ _ E Hle). }
  exists r. split_and!.
  - intros fuel Hfuel. by apply (Hmono _ _ _ Hr).
  - intros fuel r' Hr'.
    pose proof (Hmono _ (fuel `max` enoughFuel nodes connections) _ Hr' ltac:(lia)) as H1.
    pose proof (Hmono _ (fuel `max` enoughFuel nodes connections) _ Hr ltac:(lia)) as H2.
    congruence.
  - intros order ->. destruct (decide (nodes = [])) as [->|Hne].
    { injection Hr as <-. by exists []. }
    rewrite getExecutionOrder_unfold in Hr by done.
    destruct (drain _ _ _ _ _ _) as [o|] eqn:E; [|done].
    cbn [mbind option_bind] in Hr. case_decide; [done|]. injection Hr as ->.
    rewrite <- (app_nil_r (initialQueue _ _)) in E.
    apply drain_prefix in E as [rest ->]. exists rest. cbn [app]. f_equal.
    unfold initialQueue. rewrite omap_nodeMap; [|done|].
    + apply filter_ext_in. intros n Hn. rewrite buildTables_inDegree.
      rewrite decide_True by (left; by apply list_elem_of_fmap_2). naive_solver.
    + intros n. rewrite list_elem_of_filter. naive_solver.
Qed.

(** *** Any graph: the order is topological, and only a cycle prevents it *)

Section Walks.
Context (connections : list Connection).

Lemma walk_app_r (l1 l2 : list string) : walk connections (l1 ++ l2) → walk connections l2.
Proof.
  induction l1 as [|a l1 IH]; [done|]. intros Hw. apply IH.
  destruct l1 as [|b l1]; cbn in Hw |- *; [by destruct l2 as [|? ?]; [|apply Hw]|apply Hw].
Qed.

Lemma walk_snoc (l : list string) (u v : string) :
  walk connections (l ++ [u]) → connected connections u v →
  walk connections ((l ++ [u]) ++ [v]).
Proof.
  intros Hw Huv. induction l as [|a l IH]; [by cbn|].
  destruct l as [|b l]; [cbn in *; tauto|].
  cbn [app walk] in Hw |- *. split; [apply Hw|]. apply IH, Hw.
Qed.

Lemma walk_tc (l : list string) :
  ∀ (x y : string) (rest : list string),
    walk connections (x :: l ++ y :: rest) → tc (connected connections) x y.
Proof.
  induction l as [|a l IH]; intros x y rest Hw.
  - apply tc_once, Hw.
  - destruct Hw as [Hxa Hw]. eapply tc_l; [exact Hxa|]. by eapply IH.
Qed.

Lemma repeated (l : list string) :
  ¬ NoDup l → ∃ x l1 l2 l3, l = l1 ++ x :: l2 ++ x :: l3.
Proof.
  induction l as [|a l IH]; intros Hdup; [destruct Hdup; constructor|].
  destruct (decide (a ∈ l)) as [Hin|Hnin].
  - apply list_elem_of_split in Hin as (l2 & l3 & ->). by exists a, [], l2, l3.
  - destruct IH as (x & l1 & l2 & l3 & ->).
    { intros Hnd. apply Hdup. by constructor. }
    by exists x, (a :: l1), l2, l3.
Qed.

(** In a finite set of ids every member of which has a source in the
    set, some member lies on a cycle. *)
Lemma closed_under_sources_cycle (U : string → Prop) (L : list string) (w : string) :
  (∀ v, U v → v ∈ L) →
  (∀ v, U v → ∃ u, U u ∧ connected connections u v) →
  U w → ∃ v, U v ∧ onCycle connections v.
Proof.
  intros Hfin Hsrc Hw.
  assert (∀ n v, U v → ∃ l, length l = n ∧ Forall U (l ++ [v])
                            ∧ walk connections (l ++ [v])) as Hback.
  { induction n as [|n IH]; intros v Hv.
    - exists []. split_and!; [done|by repeat constructor|done].
    - destruct (Hsrc v Hv) as (u & Hu & Huv).
      destruct (IH u Hu) as (l & Hlen & HU & Hwalk).
      exists (l ++ [u]). split_and!.
      + rewrite length_app. cbn. lia.
      + apply Forall_app. split; [done|by repeat constructor].
      + by apply walk_snoc. }
  destruct (Hback (length L) w Hw) as (l & Hlen & HU & Hwalk).
  destruct (repeated (l ++ [w])) as (x & l1 & l2 & l3 & Heq).
  { intros Hnd.
    assert (length (l ++ [w]) ≤ length L) as Hle.
    { apply submseteq_length, NoDup_submseteq; [done|].
      intros v Hv. apply Hfin. by eapply Forall_forall in HU. }
    rewrite length_app in Hle. cbn in Hle. lia. }
  exists x. split.
  - eapply Forall_forall; [exact HU|]. rewrite Heq. set_solver.
  - rewrite Heq in Hwalk. apply walk_app_r in Hwalk. by eapply walk_tc.
Qed.

End Walks.

Section Filtered.
Context {A : Type} (P : A → Prop) `{∀ x, Decision (P x)}.

(** Filtering keeps the relative position of what it keeps. *)
Lemma filter_keeps_order (l : list A) (i j : nat) (a b : A) :
  i < j → l !! i = Some a → l !! j = Some b → P a → P b →
  ∃ i' j', i' < j' ∧ filter P l !! i' = Some a ∧ filter P l !! j' = Some b.
Proof.
  intros Hlt Hi Hj Ha Hb.
  pose proof (take_drop_middle l i a Hi) as Hl.
  assert (drop (S i) l !! (j - S i) = Some b) as Hj'.
  { rewrite lookup_drop. by replace (S i + (j - S i)) with j by lia. }
  pose proof (take_drop_middle _ _ _ Hj') as Hl2.
  set (l1 := take i l) in *. set (l2 := take (j - S i) (drop (S i) l)) in *.
  set (l3 := drop (S (j - S i)) (drop (S i) l)) in *.
  rewrite <- Hl2 in Hl. rewrite <- Hl.
  rewrite filter_app, filter_cons_True, filter_app, filter_cons_True by done.
  exists (length (filter P l1)), (length (filter P l1 ++ a :: filter P l2)).
  split_and!.
  - rewrite length_app. cbn. lia.
  - by apply list_lookup_middle.
  - replace (filter P l1 ++ a :: filter P l2 ++ b :: filter P l3)
      with ((filter P l1 ++ a :: filter P l2) ++ b :: filter P l3)
      by (by rewrite <- app_assoc).
    by apply list_lookup_middle.
Qed.

(** A filter that keeps less than another one drops something the
    other keeps. *)
Lemma filter_shorter (Q : A → Prop) `{∀ x, Decision (Q x)} (l : list A) :
  length (filter (fun x => P x ∧ Q x) l) < length (filter P l) →
  ∃ x, x ∈ l ∧ P x ∧ ¬ Q x.
Proof.
  induction l as [|a l IH]; [cbn; lia|].
  rewrite !filter_cons. intros Hlt.
  destruct (decide (P a)) as [Ha|Ha].
  - destruct (decide (Q a)) as [Hq|Hq].
    + rewrite decide_True in Hlt by done. cbn [length] in Hlt.
      destruct IH as (x & Hx & ?); [lia|]. exists x. split; [by right|done].
    + exists a. split; [by left|done].
  - rewrite decide_False in Hlt by tauto.
    destruct IH as (x & Hx & ?); [done|]. exists x. split; [by right|done].
Qed.
End Filtered.

Section Sorted.
Context (nodes : list WorkflowNode) (connections : list Connection).
Hypothesis Hids : NoDup (id <$> nodes).

Local Abbreviation T := (buildTables nodes connections).
Local Abbreviation M := (buildNodeMap nodes).

Lemma sourcesFirst_snoc (popped rest : list string) (u : string) (deg : gmap string nat) :
  LoopInv nodes connections popped (u :: rest) deg →
  sourcesFirst connections popped → sourcesFirst connections (popped ++ [u]).
Proof.
  intros Hinv Hfirst c Hc Hto.
  apply elem_of_app in Hto as [Hto|Hto%list_elem_of_singleton].
  - destruct (Hfirst c Hc Hto) as (i & j & Hlt & Hi & Hj).
    exists i, j. split_and!; [done|by apply lookup_app_l_Some..].
  - assert (fromNodeId c ∈ popped) as Hsrc.
    { apply (ready_sources nodes connections popped (u :: rest) deg u c); [done| |done..].
      apply elem_of_app. right. by left. }
    apply list_elem_of_lookup in Hsrc as [i Hi].
    exists i, (length popped). split_and!.
    + by eapply lookup_lt_Some.
    + by apply lookup_app_l_Some.
    + rewrite Hto. by apply list_lookup_middle.
Qed.

(** The loop ends with an empty queue, the invariant still holding. *)
Lemma drain_final (fuel : nat) :
  ∀ (popped queue : list string) (deg : gmap string nat) (sorted : list WorkflowNode),
    LoopInv nodes connections popped queue deg →
    sourcesFirst connections popped →
    length nodes + length connections < length popped + fuel →
    ∃ served deg',
      drain fuel (adj T) M queue deg sorted = Some (sorted ++ omap (M !!.) served)
      ∧ LoopInv nodes connections (popped ++ served) [] deg'
      ∧ sourcesFirst connections (popped ++ served).
Proof.
  induction fuel as [|fuel IH]; intros popped queue deg sorted Hinv Hfirst Hfuel.
  - destruct queue as [|u rest].
    + exists [], deg. cbn. by rewrite !app_nil_r.
    + apply inv_bound in Hinv. rewrite length_app in Hinv. cbn in Hinv. lia.
  - destruct queue as [|u rest].
    + exists [], deg. cbn. by rewrite !app_nil_r.
    + destruct (relax_step nodes connections popped rest u deg Hinv)
        as (deg' & newly & Hrel & Hinv').
      cbn [drain]. rewrite Hrel.
      destruct (IH (popped ++ [u]) (rest ++ newly) deg'
                  (match M !! u with Some node => sorted ++ [node] | None => sorted end))
        as (served & deg'' & -> & Hinv'' & Hfirst'');
        [done|by eapply sourcesFirst_snoc|rewrite length_app; cbn; lia|].
      exists (u :: served), deg''. rewrite <- app_assoc in Hinv'', Hfirst''.
      split; [|done]. cbn [omap list_omap].
      destruct (M !! u); [by rewrite <- app_assoc|done].
Qed.

(** What the loop has dequeued when [getExecutionOrder] has run. *)
Lemma drain_served (fuel : nat) (sortedOrder : list WorkflowNode) :
  drain fuel (adj T) M (initialQueue nodes (inDegree T)) (inDegree T) []
  = Some sortedOrder →
  ∃ served deg',
    sortedOrder = omap (M !!.) served
    ∧ LoopInv nodes connections served [] deg'
    ∧ sourcesFirst connections served.
Proof.
  intros Hrun.
  destruct (drain_final (fuel `max` enoughFuel nodes connections) []
              (initialQueue nodes (inDegree T)) (inDegree T) [])
    as (served & deg' & Hrun' & Hinv & Hfirst).
  - by apply initial_inv.
  - intros c _ Hin. by apply elem_of_nil in Hin.
  - unfold enoughFuel. cbn [length]. lia.
  - exists served, deg'. split; [|done].
    eapply drain_more_fuel in Hrun; [|apply Nat.le_max_l].
    rewrite Hrun in Hrun'. by injection Hrun'.
Qed.

(** At the end an id was dequeued exactly when it has an entry in the
    in-degree table and every connection entering it was processed. *)
Lemma served_iff (served : list string) (deg : gmap string nat) (v : string) :
  LoopInv nodes connections served [] deg →
  v ∈ served ↔ tracked nodes connections v
               ∧ processed nodes connections served v = edgesInto connections v.
Proof.
  intros [_ Hdeg Hready]. rewrite app_nil_r in Hready.
  rewrite Hready, Hdeg. pose proof (processed_le nodes connections served v).
  case_decide as Htr; split.
  - intros [= Hz]. split; [done|lia].
  - intros [_ Heq]. f_equal. lia.
  - done.
  - by intros [? _].
Qed.

Lemma served_sources (served : list string) (deg : gmap string nat) (c : Connection) :
  LoopInv nodes connections served [] deg →
  c ∈ connections → toNodeId c ∈ served →
  fromNodeId c ∈ served ∧ fromNodeId c ∈ id <$> nodes.
Proof.
  intros Hinv Hc Hto. apply (served_iff _ deg) in Hto as [_ Heq]; [|done].
  apply dec_stable. intros Hno.
  assert (processed nodes connections served (toNodeId c)
          < edgesInto connections (toNodeId c)); [|lia].
  apply (length_filter_impl_lt _ _ _ c); naive_solver.
Qed.

Lemma served_nodes (served : list string) :
  NoDup served →
  length (omap (M !!.) served) ≤ length nodes
  ∧ (length (omap (M !!.) served) = length nodes →
     omap (M !!.) served ≡ₚ nodes ∧ ∀ v, v ∈ id <$> nodes → v ∈ served).
Proof.
  intros Hnd.
  assert (filter (fun k => k ∈ id <$> nodes) served ⊆+ id <$> nodes) as Hsub.
  { apply NoDup_submseteq; [by apply NoDup_filter|].
    by intros v [? _]%list_elem_of_filter. }
  rewrite <- (length_fmap id (omap _ _)), <- (length_fmap id nodes), omap_ids.
  split; [by apply submseteq_length|]. intros Hlen.
  apply submseteq_length_Permutation in Hsub; [|lia].
  split.
  - assert (omap (M !!.) served
            = omap (M !!.) (filter (fun k => k ∈ id <$> nodes) served)) as ->.
    { clear. induction served as [|k l IH]; [done|].
      rewrite filter_cons. cbn [omap list_omap].
      destruct (M !! k) as [n|] eqn:E.
      - rewrite decide_True by (apply buildNodeMap_dom; eauto).
        cbn [omap list_omap]. by rewrite E, IH.
      - rewrite decide_False; [done|].
        intros [? Hk]%buildNodeMap_dom. by rewrite E in Hk. }
    rewrite Hsub. by rewrite omap_nodeMap.
  - intros v Hv. rewrite <- Hsub in Hv. by apply list_elem_of_filter in Hv as [_ ?].
Qed.

End Sorted.

(** X1: on a graph with distinct step ids, an order that
    [getExecutionOrder] returns lists every step once, and places the
    source of a connection before its target whenever the target is a
    step of the graph. *)
Theorem getExecutionOrder_topological
    (nodes : list WorkflowNode) (connections : list Connection) (fuel : nat)
    (order : list WorkflowNode) :
  NoDup (id <$> nodes) →
  getExecutionOrder fuel nodes connections = Some (Ordered order) →
  order ≡ₚ nodes
  ∧ ∀ c, c ∈ connections → toNodeId c ∈ id <$> nodes →
      precedes order (fromNodeId c) (toNodeId c).
Proof.
  intros Hids Hrun. destruct (decide (nodes = [])) as [->|Hne].
  { injection Hrun as <-. split; [done|]. intros c _ Hin. by apply elem_of_nil in Hin. }
  rewrite getExecutionOrder_unfold in Hrun by done.
  destruct (drain _ _ _ _ _ _) as [sortedOrder|] eqn:Hdrain; [|done].
  cbn [mbind option_bind] in Hrun. case_decide as Hlen; [done|].
  injection Hrun as <-.
  destruct (drain_served nodes connections Hids fuel sortedOrder Hdrain)
    as (served & deg' & -> & Hinv & Hfirst).
  pose proof (inv_distinct _ _ _ _ _ Hinv) as Hnd. rewrite app_nil_r in Hnd.
  destruct (served_nodes nodes Hids served Hnd) as [_ Hall].
  destruct (Hall Hlen) as [Hperm Hin]. split; [done|].
  intros c Hc Hto. unfold precedes. rewrite omap_ids.
  destruct (served_sources nodes connections served deg' c Hinv Hc (Hin _ Hto))
    as [_ Hfrom].
  destruct (Hfirst c Hc (Hin _ Hto)) as (i & j & Hlt & Hi & Hj).
  by eapply filter_keeps_order.
Qed.

Lemma getExecutionOrder_topological_witness :
  [step "A"; step "B"; step "C"; step "D"] ≡ₚ diamondNodes
  ∧ ∀ c, c ∈ diamondConnections → toNodeId c ∈ id <$> diamondNodes →
      precedes [step "A"; step "B"; step "C"; step "D"] (fromNodeId c) (toNodeId c).
Proof.
  apply (getExecutionOrder_topological diamondNodes diamondConnections 5).
  - by apply (bool_decide_unpack _).
  - by vm_compute.
Defined.

(** An order that is refused although every connection leaves a step of
    the graph: some step lies on a cycle. *)
Lemma getExecutionOrder_invalid_cycle
    (nodes : list WorkflowNode) (connections : list Connection) (fuel : nat) :
  NoDup (id <$> nodes) →
  (∀ c, c ∈ connections → fromNodeId c ∈ id <$> nodes) →
  getExecutionOrder fuel nodes connections = Some Invalid →
  ∃ v, v ∈ id <$> nodes ∧ onCycle connections v.
Proof.
  intros Hids Hfrom Hrun. destruct (decide (nodes = [])) as [->|Hne]; [done|].
  rewrite getExecutionOrder_unfold in Hrun by done.
  destruct (drain _ _ _ _ _ _) as [sortedOrder|] eqn:Hdrain; [|done].
  cbn [mbind option_bind] in Hrun. case_decide as Hlen; [|done].
  destruct (drain_served nodes connections Hids _ sortedOrder Hdrain)
    as (served & deg' & -> & Hinv & _).
  pose proof (inv_distinct _ _ _ _ _ Hinv) as Hnd. rewrite app_nil_r in Hnd.
  set (U := fun v => v ∈ id <$> nodes ∧ v ∉ served).
  assert (∃ w, U w) as [w Hw].
  { destruct (decide (Forall (fun v => v ∈ served) (id <$> nodes))) as [Hall|Hsome].
    - exfalso. apply Hlen. apply Nat.le_antisymm; [by apply served_nodes|].
      rewrite <- (length_fmap id (omap _ _)), <- (length_fmap id nodes), omap_ids.
      apply submseteq_length, NoDup_submseteq; [done|].
      intros v Hv. apply list_elem_of_filter. split; [done|].
      by eapply Forall_forall in Hall.
    - apply not_Forall_Exists in Hsome; [|apply _].
      apply Exists_exists in Hsome as (w & Hin & Hout). by exists w. }
  destruct (closed_under_sources_cycle connections U (id <$> nodes) w)
    as (v & [Hv _] & Hcycle); [by intros v [? _]| |done|by exists v].
  intros v [Hv Hout].
  assert (processed nodes connections served v < edgesInto connections v) as Hlt.
  { pose proof (processed_le nodes connections served v).
    destruct (decide (processed nodes connections served v = edgesInto connections v))
      as [Heq|]; [|lia].
    exfalso. apply Hout. apply (served_iff nodes connections served deg'); [done|].
    split; [by left|done]. }
  apply (filter_shorter (fun c => toNodeId c = v)
            (fun c => fromNodeId c ∈ served ∧ fromNodeId c ∈ id <$> nodes))
    in Hlt as (c & Hc & Hto & Hno).
  exists (fromNodeId c). split; [|by exists c].
  split; [by apply Hfrom|]. intros Hin. apply Hno. split; [done|by apply Hfrom].
Qed.

(** X2: on a graph with distinct step ids whose connections all leave a step
    of the graph, [getExecutionOrder] fails exactly when some step lies
    on a cycle of connections. *)
Theorem getExecutionOrder_invalid_iff_cycle
    (nodes : list WorkflowNode) (connections : list Connection) :
  NoDup (id <$> nodes) →
  (∀ c, c ∈ connections → fromNodeId c ∈ id <$> nodes) →
  getExecutionOrder (enoughFuel nodes connections) nodes connections = Some Invalid
  ↔ ∃ v, v ∈ id <$> nodes ∧ onCycle connections v.
Proof.
  intros Hids Hfrom. split.
  - by apply getExecutionOrder_invalid_cycle.
  - intros (v & Hv & Hcycle). by eapply getExecutionOrder_cycle.
Qed.

Lemma getExecutionOrder_invalid_iff_cycle_witness :
  getExecutionOrder (enoughFuel loopNodes loopConnections) loopNodes loopConnections
  = Some Invalid
  ↔ ∃ v, v ∈ id <$> loopNodes ∧ onCycle loopConnections v.
Proof.
  apply getExecutionOrder_invalid_iff_cycle.
  - by apply (bool_decide_unpack _).
  - intros c Hc.
    repeat (apply elem_of_cons in Hc as [->|Hc]; [by apply (bool_decide_unpack _)|]).
    by apply elem_of_nil in Hc.
Defined.

(** *** Concrete runs *)

Lemma shuffled_is_chain : SingleChain shuffledNodes shuffledConnections shuffledChain.
Proof.
  split.
  - by apply (bool_decide_unpack _).
  - by apply (bool_decide_unpack _).
  - by apply (bool_decide_unpack _).
Defined.

Lemma getExecutionOrder_single_chain_witness :
  ∃ order,
    getExecutionOrder 3 shuffledNodes shuffledConnections = Some (Ordered order)
    ∧ order ≡ₚ shuffledNodes
    ∧ length order = length shuffledNodes
    ∧ ∀ c, c ∈ shuffledConnections → precedes order (fromNodeId c) (toNodeId c).
Proof.
  apply (getExecutionOrder_single_chain shuffledNodes shuffledChain shuffledConnections 3).
  - exact shuffled_is_chain.
  - vm_compute. lia.
Defined.

Example getExecutionOrder_shuffled :
  getExecutionOrder 3 shuffledNodes shuffledConnections = Some (Ordered shuffledChain).
Proof. by vm_compute. Qed.

Lemma getExecutionOrder_cycle_witness :
  getExecutionOrder 5 loopNodes loopConnections = Some Invalid.
Proof.
  apply (getExecutionOrder_cycle loopNodes loopConnections 5 "A").
  - by apply (bool_decide_unpack _).
  - by apply (bool_decide_unpack _).
  - eapply tc_l; [|apply tc_once].
    + exists (edge "A" "B"). by split; [apply (bool_decide_unpack _)|].
    + exists (edge "B" "A"). by split; [apply (bool_decide_unpack _)|].
  - vm_compute. lia.
Defined.

(** A graph with a disconnected extra step: the chain [A -> B] and the
    stray step [C] are accepted, [C] being scheduled between the two chain
    steps. *)
Lemma getExecutionOrder_accepts_stray_step :
  NoDup (id <$> strayNodes)
  ∧ (∀ c, c ∈ strayConnections → fromNodeId c ≠ "C" ∧ toNodeId c ≠ "C")
  ∧ getExecutionOrder (enoughFuel strayNodes strayConnections)
      strayNodes strayConnections
    = Some (Ordered [step "A"; step "C"; step "B"]).
Proof.
  split_and!.
  - by apply (bool_decide_unpack _).
  - intros c ->%list_elem_of_singleton. by split.
  - by vm_compute.
Qed.

Lemma not_precedes_CB :
  ¬ precedes [step "A"; step "B"; step "C"] "C" "B".
Proof.
  intros (i & j & Hlt & Hi & Hj).
  destruct i as [|[|[|i]]]; cbn in Hi; simplify_eq;
    destruct j as [|[|[|j]]]; cbn in Hj; simplify_eq; lia.
Qed.

(** C9, as stated, fails on the fan-out: [B] and [C] are released
    together by [A], [C] was inserted before [B], and yet [B] is scheduled
    first, because the connection to [B] was inserted first. *)
Theorem tie_break_not_by_step_insertion :
  ¬ (∀ nodes connections fuel order,
       NoDup (id <$> nodes) →
       getExecutionOrder fuel nodes connections = Some (Ordered order) →
       tieBreakByInsertion nodes connections order).
Proof.
  intros Hclaim.
  assert (getExecutionOrder 4 fanOutNodes fanOutConnections
          = Some (Ordered [step "A"; step "B"; step "C"])) as Hrun by by vm_compute.
  apply not_precedes_CB.
  apply (Hclaim fanOutNodes fanOutConnections 4 _
           ltac:(by apply (bool_decide_unpack _)) Hrun (step "C") (step "B")).
  - by apply (bool_decide_unpack _).
  - by apply (bool_decide_unpack _).
  - done.
  - exists 1, 2. by split_and!; [lia|..].
Qed.

Lemma getExecutionOrder_deterministic_witness :
  ∃ r,
    (∀ fuel, enoughFuel fanOutNodes fanOutConnections ≤ fuel →
       getExecutionOrder fuel fanOutNodes fanOutConnections = Some r)
    ∧ (∀ fuel r', getExecutionOrder fuel fanOutNodes fanOutConnections = Some r' → r' = r)
    ∧ (∀ order, r = Ordered order →
         ∃ rest, order
           = filter (fun n => edgesInto fanOutConnections (id n) = 0) fanOutNodes ++ rest).
Proof.
  apply (getExecutionOrder_deterministic fanOutNodes fanOutConnections).
  by apply (bool_decide_unpack _).
Defined.

End SchedulerFacts.

(** * Properties of the flow editor *)

Module EditorFacts.
Import Text Scheduler Editor SchedulerFacts.

(** *** Cycles *)

Section Reach.

Lemma connected_mono (connections connections' : list Connection) (a b : string) :
  connections ⊆ connections' →
  connected connections a b → connected connections' a b.
Proof. intros Hsub (c & Hc & ? & ?). exists c. split; [by apply Hsub|done]. Qed.

Lemma onCycle_mono (connections connections' : list Connection) (v : string) :
  connections ⊆ connections' → onCycle connections v → onCycle connections' v.
Proof.
  intros Hsub. unfold onCycle. generalize v at 2 4.
  intros v' H. induction H as [x y Hxy|x y z Hxy _ IH].
  - apply tc_once. by eapply connected_mono.
  - eapply tc_l; [by eapply connected_mono|done].
Qed.

Lemma onCycle_source (connections : list Connection) (v : string) :
  onCycle connections v → ∃ c, c ∈ connections ∧ fromNodeId c = v.
Proof.
  unfold onCycle. generalize v at 2. intros v' H.
  destruct H as [x y (c & ? & ? & ?)|x y z (c & ? & ? & ?) _]; eauto.
Qed.

(** A path through the connections and one more connection [a -> b]
    either avoids the new connection, or reaches [a] and leaves from
    [b]. *)
Lemma tc_extended (connections : list Connection) (extra : Connection) (x y : string) :
  tc (connected (connections ++ [extra])) x y →
  tc (connected connections) x y
  ∨ rtc (connected connections) x (fromNodeId extra)
    ∧ rtc (connected connections) (toNodeId extra) y.
Proof.
  assert (∀ u v, connected (connections ++ [extra]) u v →
            connected connections u v ∨ u = fromNodeId extra ∧ v = toNodeId extra)
    as Hstep.
  { intros u v (c & Hc & <- & <-).
    apply elem_of_app in Hc as [Hc|Hc%list_elem_of_singleton]; [left; by exists c|].
    subst c. by right. }
  induction 1 as [x y Hxy|x z y Hxz _ IH].
  - destruct (Hstep _ _ Hxy) as [?|[-> ->]]; [left; by apply tc_once|by right].
  - destruct (Hstep _ _ Hxz) as [Hold|[-> ->]].
    + destruct IH as [IH|[IH1 IH2]].
      * left. by eapply tc_l.
      * right. split; [by eapply rtc_l|done].
    + right. split; [done|]. destruct IH as [IH|[_ IH]]; [by apply tc_rtc|done].
Qed.

(** With distinct node ids and connections that leave nodes of the
    graph, the workflows that are accepted are those without a cycle. *)
Lemma accepted_acyclic (nodes : list WorkflowNode) (connections : list Connection) :
  NoDup (id <$> nodes) →
  (∀ c, c ∈ connections → fromNodeId c ∈ id <$> nodes) →
  accepted nodes connections ↔ ∀ v, ¬ onCycle connections v.
Proof.
  intros Hids Hfrom. split.
  - intros [order Horder] v Hcycle.
    destruct (onCycle_source _ _ Hcycle) as (c & Hc & <-).
    rewrite (getExecutionOrder_cycle nodes connections _ (fromNodeId c)) in Horder;
      [done|done|by apply Hfrom|done|done].
  - intros Hacyclic.
    destruct (getExecutionOrder_total nodes connections
                (enoughFuel nodes connections) Hids (reflexivity _)) as [[order|] Hr].
    + by exists order.
    + apply getExecutionOrder_invalid_cycle in Hr as (v & _ & Hcycle); [|done..].
      by destruct (Hacyclic v).
Qed.

End Reach.

(** *** Deleting a node *)

Lemma WellFormed_from (nodes : list WorkflowNode) (connections : list Connection) :
  WellFormed nodes connections →
  ∀ c, c ∈ connections → fromNodeId c ∈ id <$> nodes.
Proof. intros Hwf c Hc. by apply (wf_ends _ _ Hwf). Qed.

Lemma filter_ids (k : string) (nodes : list WorkflowNode) :
  id <$> filter (fun node => id node ≠ k) nodes = filter (fun i => i ≠ k) (id <$> nodes).
Proof.
  induction nodes as [|n nodes IH]; [done|].
  cbn [fmap list_fmap]. rewrite !filter_cons. cbn.
  destruct (decide (id n ≠ k)); cbn [fmap list_fmap]; by rewrite IH.
Qed.

Lemma handleConfirmRemove_spec (s : EditorState) (k : string) :
  nodeToDelete s = Some k → k ≠ "" →
  nodes (handleConfirmRemove s) = filter (fun node => id node ≠ k) (nodes s)
  ∧ connections (handleConfirmRemove s)
    = filter (fun conn => fromNodeId conn ≠ k ∧ toNodeId conn ≠ k) (connections s)
  ∧ nodeToDelete (handleConfirmRemove s) = None
  ∧ (WellFormed (nodes s) (connections s) →
     WellFormed (nodes (handleConfirmRemove s)) (connections (handleConfirmRemove s))).
Proof.
  intros Hk Hne. unfold handleConfirmRemove. rewrite Hk.
  destruct k as [|a k]; [done|]. cbn [truthy nodes connections nodeToDelete].
  split_and!; [done..|].
  intros [Hids Hends Hsingle]. split.
  - rewrite filter_ids. by apply NoDup_filter.
  - intros c [[Hfrom Hto] Hc]%list_elem_of_filter.
    destruct (Hends c Hc) as (Hf & Ht & Hdiff).
    rewrite filter_ids, !list_elem_of_filter. done.
  - eapply sublist_NoDup; [exact Hsingle|]. apply fmap_sublist, sublist_filter.
Qed.

(** X3: when the deletion of node [k] is confirmed, [k] and the connections
    that touch it are gone, every other node and connection is kept in
    its place, and the graph is as well formed as it was. *)
Theorem handleConfirmRemove_removes (s : EditorState) (k : string) :
  nodeToDelete s = Some k → k ≠ "" →
  let s' := handleConfirmRemove s in
  id <$> nodes s' = filter (fun i => i ≠ k) (id <$> nodes s)
  ∧ (∀ n, n ∈ nodes s' ↔ n ∈ nodes s ∧ id n ≠ k)
  ∧ (∀ c, c ∈ connections s' ↔ c ∈ connections s ∧ fromNodeId c ≠ k ∧ toNodeId c ≠ k)
  ∧ nodes s' `sublist_of` nodes s
  ∧ connections s' `sublist_of` connections s
  ∧ nodeToDelete s' = None
  ∧ (WellFormed (nodes s) (connections s) → WellFormed (nodes s') (connections s')).
Proof.
  intros Hk Hne s'.
  destruct (handleConfirmRemove_spec s k Hk Hne) as (Hnodes & Hconns & Hnone & Hwf).
  unfold s'. rewrite Hnodes, Hconns. split_and!.
  - apply filter_ids.
  - intros n. rewrite list_elem_of_filter. tauto.
  - intros c. rewrite list_elem_of_filter. tauto.
  - apply sublist_filter.
  - apply sublist_filter.
  - done.
  - by rewrite <- Hnodes, <- Hconns.
Qed.

Lemma handleConfirmRemove_removes_witness :
  let s := mkEditor [step "A"; step "B"; step "C"] [edge "A" "B"; edge "B" "C"]
             None None (Some "B") in
  nodes (handleConfirmRemove s) = [step "A"; step "C"]
  ∧ connections (handleConfirmRemove s) = []
  ∧ (∀ c, c ∈ connections (handleConfirmRemove s)
          ↔ c ∈ connections s ∧ fromNodeId c ≠ "B" ∧ toNodeId c ≠ "B").
Proof.
  intros s. split; [done|]. split; [done|].
  by apply (handleConfirmRemove_removes s "B").
Defined.

(** X4: deleting a node from a workflow that [getExecutionOrder] accepts
    leaves a workflow that it accepts. *)
Theorem handleConfirmRemove_keeps_accepted (s : EditorState) :
  WellFormed (nodes s) (connections s) →
  accepted (nodes s) (connections s) →
  accepted (nodes (handleConfirmRemove s)) (connections (handleConfirmRemove s)).
Proof.
  intros Hwf Hacc. unfold handleConfirmRemove.
  destruct (nodeToDelete s) as [k|] eqn:Hk; [|done].
  destruct (truthy k) eqn:Htruthy; [|done]. cbn [nodes connections].
  assert (k ≠ "") as Hne by (by destruct k).
  destruct (handleConfirmRemove_spec s k Hk Hne) as (Hnodes & Hconns & _ & Hwf').
  specialize (Hwf' Hwf). unfold handleConfirmRemove in Hnodes, Hconns, Hwf'.
  rewrite Hk, Htruthy in Hnodes, Hconns, Hwf'. cbn [nodes connections] in Hnodes, Hconns, Hwf'.
  apply accepted_acyclic; [apply Hwf'|by apply WellFormed_from|].
  intros v Hcycle.
  pose proof (proj1 (accepted_acyclic (nodes s) (connections s) (wf_ids _ _ Hwf)
                       (WellFormed_from _ _ Hwf)) Hacc) as Hacyclic.
  apply (Hacyclic v). eapply onCycle_mono; [|exact Hcycle].
  intros c. rewrite list_elem_of_filter. tauto.
Qed.

Lemma handleConfirmRemove_keeps_accepted_witness :
  let s := mkEditor [step "A"; step "B"; step "C"] [edge "A" "B"; edge "B" "C"]
             None None (Some "B") in
  accepted (nodes (handleConfirmRemove s)) (connections (handleConfirmRemove s)).
Proof.
  intros s. apply (handleConfirmRemove_keeps_accepted s).
  - split.
    + by apply (bool_decide_unpack _).
    + intros c Hc.
      repeat (apply elem_of_cons in Hc as [->|Hc];
              [split_and!; [by apply (bool_decide_unpack _)..|done]|]).
      by apply elem_of_nil in Hc.
    + by apply (bool_decide_unpack _).
  - eexists. by vm_compute.
Defined.

(** *** Drawing a connection *)

Lemma Exists_connected (connections : list Connection) (a b : string) :
  Exists (fun c => fromNodeId c = a ∧ toNodeId c = b) connections
  ↔ connected connections a b.
Proof. rewrite Exists_exists. unfold connected. naive_solver. Qed.

Lemma handleEndConnection_spec (uuid a b : string) (s : EditorState) :
  connecting s = Some a →
  nodes (handleEndConnection uuid b s) = nodes s
  ∧ connecting (handleEndConnection uuid b s) = None
  ∧ (connections (handleEndConnection uuid b s) = connections s
     ∧ (a = b ∨ connected (connections s) a b)
     ∨ connections (handleEndConnection uuid b s) = connections s ++ [mkConn uuid a b]
       ∧ a ≠ b ∧ ¬ connected (connections s) a b).
Proof.
  intros Ha. unfold handleEndConnection. rewrite Ha. cbn [nodes connecting connections].
  split_and!; [done..|].
  case_bool_decide as Hab;
    [|left; split; [done|left; first [done|by apply dec_stable]]].
  case_bool_decide as Hex; [left|right].
  - split; [done|]. right. by apply Exists_connected.
  - split_and!; [done..|]. by rewrite <- Exists_connected.
Qed.

Lemma WellFormed_snoc (nodes : list WorkflowNode) (connections : list Connection)
    (uuid a b : string) :
  WellFormed nodes connections →
  a ∈ id <$> nodes → b ∈ id <$> nodes → a ≠ b → ¬ connected connections a b →
  WellFormed nodes (connections ++ [mkConn uuid a b]).
Proof.
  intros [Hids Hends Hsingle] Ha Hb Hab Hnew. split; [done| |].
  - intros c [Hc|Hc%list_elem_of_singleton]%elem_of_app; [by apply Hends|by subst c].
  - rewrite fmap_app. apply NoDup_app. split_and!; [done| |by apply NoDup_singleton].
    intros p Hp Hp'%list_elem_of_singleton. subst p.
    apply list_elem_of_fmap in Hp as (c & Hc & Hin).
    apply Hnew. exists c. unfold endpoints in Hc. by simplify_eq/=.
Qed.

(** X5: dropping a connection from [a] on [b] adds at most the connection
    [a -> b], at the end: nothing when [a] is [b] or when [a -> b] is
    there already.  The graph stays well formed, and the connection that
    was being drawn is forgotten. *)
Theorem handleEndConnection_connects (uuid a b : string) (s : EditorState) :
  connecting s = Some a →
  WellFormed (nodes s) (connections s) →
  a ∈ id <$> nodes s → b ∈ id <$> nodes s →
  let s' := handleEndConnection uuid b s in
  WellFormed (nodes s') (connections s')
  ∧ nodes s' = nodes s
  ∧ connecting s' = None
  ∧ (a ≠ b → connected (connections s') a b)
  ∧ (a = b ∨ connected (connections s) a b → connections s' = connections s)
  ∧ (a ≠ b → ¬ connected (connections s) a b →
     connections s' = connections s ++ [mkConn uuid a b]).
Proof.
  intros Hconn Hwf Ha Hb s'.
  destruct (handleEndConnection_spec uuid a b s Hconn)
    as (Hnodes & Hnone & [[Hsame Hwhy]|(Hnew & Hab & Hfresh)]);
    unfold s'; rewrite Hnodes.
  - rewrite Hsame. split_and!; [done..| |done|].
    + intros Hab. by destruct Hwhy.
    + intros Hab Hfresh. by destruct Hwhy.
  - rewrite Hnew. split_and!; [by apply WellFormed_snoc|done..| | |done].
    + intros _. exists (mkConn uuid a b). split; [set_solver|done].
    + intros [?|?]; done.
Qed.

Lemma handleEndConnection_connects_witness :
  let s := mkEditor [step "A"; step "B"] [] (Some "A") None None in
  connections (handleEndConnection "u1" "B" s) = [mkConn "u1" "A" "B"]
  ∧ WellFormed (nodes (handleEndConnection "u1" "B" s))
      (connections (handleEndConnection "u1" "B" s)).
Proof.
  intros s. split; [done|].
  apply (handleEndConnection_connects "u1" "A" "B" s).
  - reflexivity.
  - split; [by apply (bool_decide_unpack _)|by intros c ?%elem_of_nil|constructor].
  - by apply (bool_decide_unpack _).
  - by apply (bool_decide_unpack _).
Defined.

(** X6: a connection drawn from [a] to [b] in a workflow that
    [getExecutionOrder] accepts leaves a workflow that it accepts exactly
    when [a] could not be reached from [b]: the only way to lose a valid
    workflow by drawing is to close a cycle. *)
Theorem handleEndConnection_accepted (uuid a b : string) (s : EditorState) :
  connecting s = Some a →
  WellFormed (nodes s) (connections s) →
  accepted (nodes s) (connections s) →
  a ∈ id <$> nodes s → b ∈ id <$> nodes s → a ≠ b →
  let s' := handleEndConnection uuid b s in
  accepted (nodes s') (connections s')
  ↔ ¬ rtc (connected (connections s)) b a.
Proof.
  intros Hconn Hwf Hacc Ha Hb Hab s'.
  pose proof (proj1 (accepted_acyclic (nodes s) (connections s) (wf_ids _ _ Hwf)
                       (WellFormed_from _ _ Hwf)) Hacc) as Hacyclic.
  destruct (handleEndConnection_spec uuid a b s Hconn)
    as (Hnodes & _ & [[Hsame [?|Hwhy]]|(Hnew & _ & Hfresh)]); [done|..];
    unfold s'; rewrite Hnodes.
  - rewrite Hsame. split; [|done]. intros _ Hreach.
    apply (Hacyclic a). eapply tc_rtc_r; [by apply tc_once|done].
  - rewrite Hnew.
    assert (WellFormed (nodes s) (connections s ++ [mkConn uuid a b])) as Hwf'
      by by apply WellFormed_snoc.
    rewrite (accepted_acyclic _ _ (wf_ids _ _ Hwf') (WellFormed_from _ _ Hwf')).
    split.
    + intros Hacyclic' Hreach. apply (Hacyclic' a).
      eapply tc_rtc_r.
      * apply tc_once. exists (mkConn uuid a b). split; [set_solver|done].
      * eapply rtc_subrel; [|exact Hreach].
        intros x y. apply connected_mono. set_solver.
    + intros Hreach v Hcycle.
      apply tc_extended in Hcycle as [Hold|[Hto Hfrom]]; [by apply (Hacyclic v)|].
      apply Hreach. by etrans.
Qed.

Lemma handleEndConnection_accepted_witness :
  let s := mkEditor [step "A"; step "B"] [edge "A" "B"] (Some "B") None None in
  accepted (nodes (handleEndConnection "u1" "A" s))
    (connections (handleEndConnection "u1" "A" s))
  ↔ ¬ rtc (connected (connections s)) "A" "B".
Proof.
  intros s. apply (handleEndConnection_accepted "u1" "B" "A" s).
  - reflexivity.
  - split.
    + by apply (bool_decide_unpack _).
    + intros c Hc.
      repeat (apply elem_of_cons in Hc as [->|Hc];
              [split_and!; [by apply (bool_decide_unpack _)..|done]|]).
      by apply elem_of_nil in Hc.
    + by apply (bool_decide_unpack _).
  - eexists. by vm_compute.
  - by apply (bool_decide_unpack _).
  - by apply (bool_decide_unpack _).
  - done.
Defined.

(** *** Adding a node *)

(** X7: a node added under a fresh id keeps the graph well formed and its
    connections as they are, and the workflow is accepted afterwards
    exactly when it was before: the new node, which nothing connects, is
    no obstacle. *)
Theorem addNode_keeps_accepted (uuid : string) (position : Z * Z) (step : NewStep)
    (s : EditorState) :
  WellFormed (nodes s) (connections s) →
  uuid ∉ id <$> nodes s →
  let s' := addNode uuid position step s in
  WellFormed (nodes s') (connections s')
  ∧ id <$> nodes s' = (id <$> nodes s) ++ [uuid]
  ∧ connections s' = connections s
  ∧ (accepted (nodes s') (connections s') ↔ accepted (nodes s) (connections s)).
Proof.
  intros Hwf Hfresh s'. unfold s', addNode. cbn [nodes connections].
  assert (id <$> nodes s ++ [mkNode uuid (step_type step) (step_prompt step)
                               (step_name step) position]
          = (id <$> nodes s) ++ [uuid]) as Hids by by rewrite fmap_app.
  assert (WellFormed (nodes s ++ [mkNode uuid (step_type step) (step_prompt step)
                                    (step_name step) position]) (connections s)) as Hwf'.
  { destruct Hwf as [Hnd Hends Hsingle]. split; [| |done].
    - rewrite Hids. apply NoDup_app. split_and!; [done| |by apply NoDup_singleton].
      intros x Hx Hx'%list_elem_of_singleton. by subst x.
    - intros c Hc. destruct (Hends c Hc) as (? & ? & ?). rewrite Hids. set_solver. }
  split_and!; [done..|].
  rewrite (accepted_acyclic _ _ (wf_ids _ _ Hwf') (WellFormed_from _ _ Hwf')).
  by rewrite (accepted_acyclic _ _ (wf_ids _ _ Hwf) (WellFormed_from _ _ Hwf)).
Qed.

Lemma addNode_keeps_accepted_witness :
  let s := mkEditor [step "A"; step "B"] [edge "A" "B"] None None None in
  let s' := addNode "C" (0, 0)%Z (mkNewStep CUSTOM "n" "p") s in
  WellFormed (nodes s') (connections s')
  ∧ id <$> nodes s' = (id <$> nodes s) ++ ["C"]
  ∧ connections s' = connections s
  ∧ (accepted (nodes s') (connections s') ↔ accepted (nodes s) (connections s)).
Proof.
  intros s. apply (addNode_keeps_accepted "C" (0, 0)%Z (mkNewStep CUSTOM "n" "p") s).
  - split.
    + by apply (bool_decide_unpack _).
    + intros c Hc.
      repeat (apply elem_of_cons in Hc as [->|Hc];
              [split_and!; [by apply (bool_decide_unpack _)..|done]|]).
      by apply elem_of_nil in Hc.
    + by apply (bool_decide_unpack _).
  - by apply (bool_decide_unpack _).
Defined.

(** *** The step that the modal adds *)

Lemma length_append (a b : string) :
  String.length (a +:+ b) = String.length a + String.length b.
Proof.
  induction a as [|c a IH]; [done|].
  change (Datatypes.S (String.length (a +:+ b))
          = Datatypes.S (String.length a) + String.length b).
  by rewrite IH.
Qed.

Lemma length_substring (n : nat) (s : string) :
  String.length (String.substring 0 n s) ≤ n.
Proof.
  revert s. induction n as [|n IH]; intros [|c s]; cbn; try lia.
  specialize (IH s). lia.
Qed.

(** X8: the button that adds the step is disabled exactly when [handleAdd]
    would add nothing.  A step that is added has the chosen type; a
    custom step has the trimmed text as its prompt, which is not empty,
    and a name of at most 31 characters that starts with [Custom: ]; a
    pre-built step has the name and the prompt of the chosen entry. *)
Theorem handleAdd_enabled (stepType : StepType) (selectedPrebuilt : option (string * string))
    (customPrompt : string) :
  (isAddDisabled stepType selectedPrebuilt customPrompt = false
   ↔ is_Some (handleAdd stepType selectedPrebuilt customPrompt))
  ∧ ∀ step, handleAdd stepType selectedPrebuilt customPrompt = Some step →
      step_type step = stepType
      ∧ (stepType = CUSTOM →
         step_prompt step = trim customPrompt
         ∧ step_prompt step ≠ ""
         ∧ startsWith "Custom: " (step_name step) = true
         ∧ String.length (step_name step) ≤ 31)
      ∧ (stepType = PREBUILT →
         selectedPrebuilt = Some (step_name step, step_prompt step)).
Proof.
  unfold isAddDisabled, handleAdd. destruct stepType.
  - destruct selectedPrebuilt as [[name prompt]|].
    + split; [by split; [eexists|]|]. by intros step [= <-].
    + split; [split; [done|by intros []]|done].
  - destruct (truthy (trim customPrompt)) eqn:Htrim.
    + split; [by split; [eexists|]|]. intros step [= <-]. cbn [step_type step_prompt step_name].
      split_and!; [done| |done].
      intros _. split_and!; [done|by destruct (trim customPrompt)|done|].
      rewrite !length_append.
      pose proof (length_substring 20 (trim customPrompt)).
      change (String.length "Custom: ") with 8.
      case_bool_decide; cbn [String.length]; lia.
    + split; [split; [done|by intros []]|done].
Qed.

End EditorFacts.


(** * Properties of the Gemini service *)

Module GeminiFacts.
Import Text Gemini.

(** *** Matching text *)

Section Matching.


















End Matching.

(** *** Data URLs *)

Section DataUrl.

Lemma stripPrefix_spec (p s r : string) :
  stripPrefix false p s = Some r ↔ s = p +:+ r.
Proof.
  revert s. induction p as [|a p IH]; intros s; cbn.
  - split; [by intros [= ->]|by intros ->].
  - destruct s as [|b s]; [done|].
    destruct (Ascii.eqb a b) eqn:E.
    + apply Ascii.eqb_eq in E as ->. rewrite IH. split; [by intros ->|by intros [= ->]].
    + apply Ascii.eqb_neq in E. split; [done|]. intros [= -> _]. done.
Qed.

Lemma stripPrefix_longer (p t u : string) :
  is_Some (stripPrefix false p t) → is_Some (stripPrefix false p (t +:+ u)).
Proof.
  intros [r Hr]. apply stripPrefix_spec in Hr as ->.
  exists (r +:+ u). apply stripPrefix_spec.
  clear. induction p as [|a p IH]; [done|].
  change (String a ((p +:+ r) +:+ u) = String a (p +:+ (r +:+ u))). by f_equal.
Qed.

Lemma all_app (f : ascii → bool) (a b : string) :
  all f (a +:+ b) = all f a && all f b.
Proof.
  induction a as [|c a IH]; [done|].
  change (f c && all f (a +:+ b) = (f c && all f a) && all f b).
  by rewrite IH, andb_assoc.
Qed.

(** A pattern without the character [a] that matches in front of [a]
    matches without what follows. *)
Lemma stripPrefix_before (q : string) (a : ascii) (rest : string) :
  all (fun c => negb (Ascii.eqb c a)) q = true →
  ∀ t, is_Some (stripPrefix false q (t +:+ String a rest)) →
       is_Some (stripPrefix false q t).
Proof.
  induction q as [|b q IH]; intros Hq t; [by eexists|].
  change (negb (Ascii.eqb b a) && all (fun c => negb (Ascii.eqb c a)) q = true) in Hq.
  apply andb_true_iff in Hq as [Hb Hq].
  destruct t as [|c t].
  - change ("" +:+ String a rest) with (String a rest). cbn [stripPrefix].
    apply negb_true_iff in Hb. rewrite Hb. by intros [].
  - change (String c t +:+ String a rest) with (String c (t +:+ String a rest)).
    cbn [stripPrefix]. destruct (Ascii.eqb b c); [by apply IH|by intros []].
Qed.

Lemma splitAt_sound (sep s pre post : string) :
  splitAt sep s = Some (pre, post) → s = pre +:+ sep +:+ post.
Proof.
  revert pre post. induction s as [|c s IH]; intros pre post; cbn [splitAt].
  - destruct (stripPrefix false sep "") as [r|] eqn:E; [|done].
    intros [= <- <-]. by apply stripPrefix_spec in E.
  - destruct (stripPrefix false sep (String c s)) as [r|] eqn:E.
    + intros [= <- <-]. by apply stripPrefix_spec in E.
    + destruct (splitAt sep s) as [[pre' post']|]; [|done].
      cbn [mbind option_bind]. intros [= <- <-].
      change (String c s = String c (pre' +:+ sep +:+ post')).
      f_equal. by apply IH.
Qed.

(** What precedes the first occurrence of a separator does not hold
    it. *)
Lemma splitAt_before (sep s pre post : string) :
  sep ≠ "" → splitAt sep s = Some (pre, post) → includes false sep pre = false.
Proof.
  intros Hsep. revert pre post. induction s as [|c s IH]; intros pre post; cbn [splitAt].
  - destruct (stripPrefix false sep "") as [r|] eqn:E; [|done].
    intros [= <- <-]. by destruct sep.
  - destruct (stripPrefix false sep (String c s)) as [r|] eqn:E.
    + intros [= <- <-]. by destruct sep.
    + destruct (splitAt sep s) as [[pre' post']|] eqn:Hs; [|done].
      cbn [mbind option_bind]. intros [= <- <-]. specialize (IH pre' post' eq_refl).
      unfold includes in *. cbn [firstMatch].
      destruct (stripPrefix false sep (String c pre')) as [r|] eqn:E'; [|exact IH].
      apply splitAt_sound in Hs as ->.
      destruct (stripPrefix_longer sep (String c pre') (sep +:+ post') ltac:(eauto))
        as [r' Hr'].
      change (String c pre' +:+ sep +:+ post')
        with (String c (pre' +:+ sep +:+ post')) in Hr'.
      by rewrite E in Hr'.
Qed.

(** A separator whose first character does not come back in it is
    found right after a text that does not hold it. *)
Lemma splitAt_first (a : ascii) (p pre post : string) :
  all (fun c => negb (Ascii.eqb c a)) p = true →
  includes false (String a p) pre = false →
  splitAt (String a p) (pre +:+ String a p +:+ post) = Some (pre, post).
Proof.
  intros Hp. induction pre as [|c pre IH]; intros Hpre.
  - assert (stripPrefix false (String a p) (String a p +:+ post) = Some post) as Hs
      by by apply stripPrefix_spec.
    change ("" +:+ String a p +:+ post) with (String a (p +:+ post)).
    change (String a p +:+ post) with (String a (p +:+ post)) in Hs.
    cbn [splitAt]. by rewrite Hs.
  - unfold includes in Hpre. cbn [firstMatch] in Hpre.
    destruct (stripPrefix false (String a p) (String c pre)) as [r|] eqn:E; [done|].
    change (String c pre +:+ String a p +:+ post)
      with (String c (pre +:+ String a p +:+ post)).
    cbn [splitAt].
    destruct (stripPrefix false (String a p) (String c (pre +:+ String a p +:+ post)))
      as [r|] eqn:E'.
    + exfalso. cbn in E, E'. destruct (Ascii.eqb a c); [|done].
      destruct (stripPrefix_before p a (p +:+ post) Hp pre ltac:(eauto)) as [r' Hr'].
      by rewrite Hr' in E.
    + rewrite IH; [done|]. unfold includes. exact Hpre.
Qed.

End DataUrl.

(** X9: [parseDataUrl] accepts exactly the texts [data:<mime>;base64,<data>]
    without a line break, in which [;base64,] does not occur in the mime
    type, and gives their two parts back: parsing and writing a data URL
    are inverse to each other. *)
Theorem parseDataUrl_iff (url base64Data mimeType : string) :
  parseDataUrl url = Some (base64Data, mimeType)
  ↔ url = "data:" +:+ mimeType +:+ ";base64," +:+ base64Data
    ∧ all (fun c => negb (isLineTerminator c)) mimeType = true
    ∧ all (fun c => negb (isLineTerminator c)) base64Data = true
    ∧ includes false ";base64," mimeType = false.
Proof.
  unfold parseDataUrl. split.
  - destruct (stripPrefix false "data:" url) as [rest|] eqn:Hdata; [|done].
    cbn [mbind option_bind].
    destruct (all _ rest) eqn:Hall; [|done].
    destruct (splitAt ";base64," rest) as [[mime base64]|] eqn:Hsplit; [|done].
    cbn [mbind option_bind]. intros [= <- <-].
    apply stripPrefix_spec in Hdata as ->.
    pose proof (splitAt_before ";base64," _ _ _ ltac:(done) Hsplit) as Hbefore.
    apply splitAt_sound in Hsplit as ->.
    rewrite !all_app in Hall. apply andb_true_iff in Hall as [Hm Hall].
    apply andb_true_iff in Hall as [_ Hd]. done.
  - intros (-> & Hm & Hd & Hbefore).
    assert (stripPrefix false "data:" ("data:" +:+ mimeType +:+ ";base64," +:+ base64Data)
            = Some (mimeType +:+ ";base64," +:+ base64Data)) as ->
      by by apply stripPrefix_spec.
    cbn [mbind option_bind]. rewrite !all_app, Hm, Hd. cbn [andb].
    change (all (fun c => negb (isLineTerminator c)) ";base64,") with true.
    cbn [andb].
    change ";base64," with (String ";"%char "base64,") in *.
    by rewrite splitAt_first.
Qed.

Lemma parseDataUrl_iff_witness :
  parseDataUrl "data:image/png;base64,AAAA" = Some ("AAAA", "image/png")
  ↔ "data:image/png;base64,AAAA" = "data:" +:+ "image/png" +:+ ";base64," +:+ "AAAA"
    ∧ all (fun c => negb (isLineTerminator c)) "image/png" = true
    ∧ all (fun c => negb (isLineTerminator c)) "AAAA" = true
    ∧ includes false ";base64," "image/png" = false.
Proof. apply parseDataUrl_iff. Defined.

(** *** One round of [attemptGenerate] *)

Section Rounds.
Context {S : Type} (provider : nat → Request → CallOutcome).
Implicit Types (w : World S) (options : Options S).

Lemma throwIfAborted_quiet options w (t : nat) :
  quietAt options t → ticks w ≤ t → throwIfAborted options w = (Ok tt, w).
Proof.
  unfold throwIfAborted, bind, aborted, quietAt.
  destruct (signal options); intros; [rewrite bool_decide_false by lia|]; done.
Qed.

Lemma throwIfAborted_seen options w (after : nat) :
  signal options = Some after → after ≤ ticks w →
  throwIfAborted options w = (Throw (Error "Request aborted"), w).
Proof.
  unfold throwIfAborted, bind, aborted. intros -> ?.
  by rewrite bool_decide_true by lia.
Qed.

Lemma quietAt_le options (t t' : nat) : quietAt options t → t' ≤ t → quietAt options t'.
Proof. unfold quietAt. destruct (signal options); [lia|done]. Qed.

(** A round of the loop, when the signal is quiet: the call is made, and
    either an image comes back or the [catch] block takes over. *)
Lemma attemptLoop_round (fuel attempt : nat) options (request : Request) w :
  attempt ≤ MAX_RETRIES → quietAt options (ticks w) →
  attemptLoop provider (Datatypes.S fuel) options request attempt w
  = match provider (calls w) request with
    | Responds response =>
        match readResponse response with
        | Ok url => (Ok (mkAttempt true (Some url)), called request w)
        | Throw e =>
            afterError options (model request) (Datatypes.S attempt) e
              (attemptLoop provider fuel options request (Datatypes.S attempt))
              (called request w)
        end
    | Fails e =>
        afterError options (model request) (Datatypes.S attempt) e
          (attemptLoop provider fuel options request (Datatypes.S attempt))
          (called request w)
    end.
Proof.
  intros Hle Hquiet. cbn [attemptLoop]. rewrite bool_decide_true by done.
  unfold tryCatch, attemptOnce, bind at 1.
  rewrite (throwIfAborted_quiet options w (ticks w)) by done.
  unfold bind, generateContent.
  destruct (provider (calls w) request) as [response|e]; [|done].
  by destruct (readResponse response).
Qed.

(** The [catch] block on a quota error with retries left: [onRetry] is
    called, the loop sleeps for the backoff and goes on. *)
Lemma afterError_retry options (model : string) (attempt : nat) (e : Thrown)
    (continue : M S AttemptResult) w :
  isQuota (messageOf e) = true → attempt ≤ MAX_RETRIES →
  quietAt options (Datatypes.S (ticks w)) →
  afterError options model attempt e continue w
  = continue (suspend (EvSleep (backoff (messageOf e) attempt))
                (notified options attempt (backoff (messageOf e) attempt) model w)).
Proof.
  intros Hq Hle Hquiet. unfold afterError.
  rewrite Hq, bool_decide_true by done. cbn [andb].
  unfold bind at 1, notifyRetry. unfold bind at 1.
  assert (ticks (notified options attempt (backoff (messageOf e) attempt) model w)
          = ticks w) as Ht by (unfold notified; by destruct (onRetry options)).
  rewrite (throwIfAborted_quiet options _ (Datatypes.S (ticks w))) by (done || lia).
  unfold bind at 1, sleep. unfold bind at 1.
  rewrite (throwIfAborted_quiet options _ (Datatypes.S (ticks w))); [done..|].
  cbn. lia.
Qed.

(** The [catch] block on a quota error when the retries are used up. *)
Lemma afterError_exhausted options (model : string) (attempt : nat) (e : Thrown)
    (continue : M S AttemptResult) w :
  isQuota (messageOf e) = true → MAX_RETRIES < attempt →
  afterError options model attempt e continue w = (Ok (mkAttempt false None), w).
Proof.
  intros Hq Hlt. unfold afterError.
  by rewrite Hq, bool_decide_false by lia.
Qed.

(** The [catch] block on any other error. *)
Lemma afterError_fatal options (model : string) (attempt : nat) (e : Thrown)
    (continue : M S AttemptResult) w :
  isQuota (messageOf e) = false →
  afterError options model attempt e continue w = (Throw (fatalError e), w).
Proof. intros Hq. unfold afterError. by rewrite Hq. Qed.

Lemma attemptLoop_failed (fuel attempt : nat) options (request : Request) w
    (e : Thrown) :
  attempt ≤ MAX_RETRIES → quietAt options (ticks w) →
  failureOf (provider (calls w) request) = Some e →
  attemptLoop provider (Datatypes.S fuel) options request attempt w
  = afterError options (model request) (Datatypes.S attempt) e
      (attemptLoop provider fuel options request (Datatypes.S attempt))
      (called request w).
Proof.
  intros Hle Hquiet Hfail. rewrite attemptLoop_round by done.
  unfold failureOf in Hfail.
  destruct (provider (calls w) request) as [response|e']; [|by simplify_eq].
  destruct (readResponse response); by simplify_eq.
Qed.

Lemma attemptLoop_answered (fuel attempt : nat) options (request : Request) w
    (response : GenerateContentResponse) (url : string) :
  attempt ≤ MAX_RETRIES → quietAt options (ticks w) →
  provider (calls w) request = Responds response → readResponse response = Ok url →
  attemptLoop provider (Datatypes.S fuel) options request attempt w
  = (Ok (mkAttempt true (Some url)), called request w).
Proof.
  intros Hle Hquiet Hresp Hurl. rewrite attemptLoop_round by done.
  by rewrite Hresp, Hurl.
Qed.

Section Retries.
Context (options : Options S) (request : Request) (errors : nat → Thrown).

Lemma ticks_notified (attempt : nat) (delay : Delay) (model : string) w :
  ticks (notified options attempt delay model w) = ticks w.
Proof. unfold notified. by destruct (onRetry options). Qed.

Lemma calls_notified (attempt : nat) (delay : Delay) (model : string) w :
  calls (notified options attempt delay model w) = calls w.
Proof. unfold notified. by destruct (onRetry options). Qed.

Lemma ai_notified (attempt : nat) (delay : Delay) (model : string) w :
  ai (notified options attempt delay model w) = ai w.
Proof. unfold notified. by destruct (onRetry options). Qed.

Lemma ticks_afterRetries (k : nat) w :
  ticks (afterRetries options request errors k w) = ticks w + 2 * k.
Proof.
  induction k as [|k IH]; cbn [afterRetries]; [lia|].
  cbn [suspend ticks]. rewrite ticks_notified. cbn [called ticks]. lia.
Qed.

Lemma calls_afterRetries (k : nat) w :
  calls (afterRetries options request errors k w) = calls w + k.
Proof.
  induction k as [|k IH]; cbn [afterRetries]; [lia|].
  cbn [suspend calls]. rewrite calls_notified. cbn [called calls]. lia.
Qed.

Lemma ai_afterRetries (k : nat) w :
  ai (afterRetries options request errors k w) = ai w.
Proof.
  induction k as [|k IH]; cbn [afterRetries]; [done|].
  cbn [suspend ai]. rewrite ai_notified. by cbn [called ai].
Qed.

(** While calls fail with quota errors and the signal is quiet, the
    loop goes from round to round. *)
Lemma attemptLoop_retries (k : nat) :
  ∀ (fuel : nat) w,
    k ≤ MAX_RETRIES →
    (∀ j, j < k → failureOf (provider (calls w + j) request) = Some (errors j)
                   ∧ isQuota (messageOf (errors j)) = true) →
    quietAt options (ticks w + 2 * k) →
    attemptLoop provider (k + fuel) options request 0 w
    = attemptLoop provider fuel options request k
        (afterRetries options request errors k w).
Proof.
  induction k as [|k IH]; intros fuel w Hk Herr Hquiet; [done|].
  replace (Datatypes.S k + fuel) with (k + Datatypes.S fuel) by lia.
  rewrite IH; [|lia|intros j Hj; apply Herr; lia|eapply quietAt_le; [done|lia]].
  destruct (Herr k) as [Hfail Hq]; [lia|].
  rewrite (attemptLoop_failed _ _ _ _ _ (errors k)).
  - rewrite afterError_retry; [done|done|done|].
    cbn [called ticks]. rewrite ticks_afterRetries.
    eapply quietAt_le; [done|lia].
  - lia.
  - rewrite ticks_afterRetries. eapply quietAt_le; [done|lia].
  - by rewrite calls_afterRetries.
Qed.
End Retries.

(** *** What every call of the service leaves untouched *)

Context (options : Options S) (I : S → Prop).
Hypothesis HI : ∀ callback, onRetry options = Some callback →
                  ∀ n d m s, I s → I (callback n d m s).

Lemma follows_refl w : follows options I w w.
Proof. by split. Qed.

Lemma follows_trans w1 w2 w3 :
  follows options I w1 w2 → follows options I w2 w3 → follows options I w1 w3.
Proof.
  intros [Ha Ht Hk Hs Hc] [Ha' Ht' Hk' Hs' Hc']. split.
  - congruence.
  - by etrans.
  - lia.
  - intros after Hsig Hle. eapply Hs'; [done|]. by eapply Hs.
  - auto.
Qed.

(** A suspension that an abort check guards. *)
Lemma follows_guarded (m : M S unit) (suspended : World S → World S) w :
  (∀ v, ai (suspended v) = ai v ∧ ticks (suspended v) = Datatypes.S (ticks v)
        ∧ trace v `prefix_of` trace (suspended v) ∧ caller (suspended v) = caller v) →
  throwIfAborted options w = (Ok tt, w) →
  follows options I w (suspended w).
Proof.
  intros Hsus Hquiet. destruct (Hsus w) as (Ha & Ht & Hp & Hc). split; try done.
  - lia.
  - intros after Hsig Hle. rewrite Ht.
    destruct (decide (after ≤ ticks w)) as [Hseen|]; [|lia].
    by rewrite (throwIfAborted_seen options w after) in Hquiet.
  - by rewrite Hc.
Qed.

Lemma throwIfAborted_cases w :
  throwIfAborted options w = (Ok tt, w)
  ∨ throwIfAborted options w = (Throw (Error "Request aborted"), w).
Proof.
  unfold throwIfAborted, bind, aborted.
  destruct (signal options); [case_bool_decide|]; auto.
Qed.

Lemma suspend_facts (e : Event) (v : World S) :
  ai (suspend e v) = ai v ∧ ticks (suspend e v) = Datatypes.S (ticks v)
  ∧ trace v `prefix_of` trace (suspend e v) ∧ caller (suspend e v) = caller v.
Proof. split_and!; try done. by apply prefix_app_r. Qed.

Lemma called_facts (request : Request) (v : World S) :
  ai (called request v) = ai v ∧ ticks (called request v) = Datatypes.S (ticks v)
  ∧ trace v `prefix_of` trace (called request v)
  ∧ caller (called request v) = caller v.
Proof. split_and!; try done. by apply prefix_app_r. Qed.

Lemma follows_notified (attempt : nat) (delay : Delay) (model : string) w :
  follows options I w (notified options attempt delay model w).
Proof.
  unfold notified. destruct (onRetry options) as [callback|] eqn:E;
    [|apply follows_refl].
  split; cbn; try done; [by apply prefix_app_r|]. by apply HI.
Qed.

Lemma follows_bind {A B} (m : M S A) (k : A → M S B) w :
  follows options I w (m w).2 → (∀ a v, follows options I v (k a v).2) →
  follows options I w (bind m k w).2.
Proof.
  intros Hm Hk. unfold bind. destruct (m w) as [[a|e] w1]; cbn [snd] in *; [|done].
  eapply follows_trans; [exact Hm|apply Hk].
Qed.

Lemma follows_tryCatch {A} (m : M S A) (handler : Thrown → M S A) w :
  follows options I w (m w).2 → (∀ e v, follows options I v (handler e v).2) →
  follows options I w (tryCatch m handler w).2.
Proof.
  intros Hm Hh. unfold tryCatch. destruct (m w) as [[a|e] w1]; cbn [snd] in *; [done|].
  eapply follows_trans; [exact Hm|apply Hh].
Qed.

(** [throwIfAborted ;; sleep d ;; k] *)
Lemma follows_guarded_sleep {A} (delay : Delay) (k : unit → M S A) w :
  (∀ v, follows options I v (k tt v).2) →
  follows options I w
    (bind (throwIfAborted options) (fun _ => bind (sleep delay) k) w).2.
Proof.
  intros Hk. unfold bind at 1.
  destruct (throwIfAborted_cases w) as [Hq|Hq]; rewrite Hq; [|apply follows_refl].
  unfold bind, sleep. eapply follows_trans; [|apply Hk].
  apply (follows_guarded (ret tt)); [apply suspend_facts|done].
Qed.

(** [throwIfAborted ;; generateContent request ;; k] *)
Lemma follows_guarded_call {A} (request : Request)
    (k : GenerateContentResponse → M S A) w :
  (∀ r v, follows options I v (k r v).2) →
  follows options I w
    (bind (throwIfAborted options) (fun _ => bind (generateContent provider request) k) w).2.
Proof.
  intros Hk. unfold bind at 1.
  destruct (throwIfAborted_cases w) as [Hq|Hq]; rewrite Hq; [|apply follows_refl].
  assert (follows options I w (called request w)) as Hcall
    by (apply (follows_guarded (ret tt)); [apply called_facts|done]).
  unfold bind, generateContent.
  destruct (provider (calls w) request) as [response|e]; [|done].
  eapply follows_trans; [exact Hcall|apply Hk].
Qed.

Lemma follows_throwIfAborted {A} (k : unit → M S A) w :
  (∀ v, follows options I v (k tt v).2) →
  follows options I w (bind (throwIfAborted options) k w).2.
Proof.
  intros Hk. unfold bind.
  destruct (throwIfAborted_cases w) as [Hq|Hq]; rewrite Hq; [apply Hk|apply follows_refl].
Qed.

Lemma follows_afterError (model : string) (attempt : nat) (e : Thrown)
    (continue : M S AttemptResult) w :
  (∀ v, follows options I v (continue v).2) →
  follows options I w (afterError options model attempt e continue w).2.
Proof.
  intros Hcont. unfold afterError.
  destruct (isQuota (messageOf e) && bool_decide (attempt ≤ MAX_RETRIES)).
  2:{ destruct (isQuota (messageOf e)); apply follows_refl. }
  apply follows_bind; [apply follows_notified|]. intros _ v.
  apply follows_guarded_sleep. intros v'.
  by apply follows_throwIfAborted.
Qed.

Lemma follows_attemptLoop (fuel : nat) (request : Request) :
  ∀ (attempt : nat) w,
    follows options I w (attemptLoop provider fuel options request attempt w).2.
Proof.
  induction fuel as [|fuel IH]; intros attempt w; cbn [attemptLoop];
    [apply follows_refl|].
  case_bool_decide; [|apply follows_refl].
  apply follows_tryCatch.
  - apply follows_guarded_call. intros r v.
    destruct (readResponse r); apply follows_refl.
  - intros e v. apply follows_afterError. intros v'. apply IH.
Qed.

Lemma follows_tryModel (base64Data mimeType prompt model : string)
    (modelFailures : list (string * ModelFailure)) w :
  follows options I w
    (tryModel provider options base64Data mimeType prompt modelFailures model w).2.
Proof.
  assert (∀ (a : string + list (string * ModelFailure)) v,
            follows options I v
              ((bind (throwIfAborted options) (fun _ =>
                  bind (sleep (Millis 250)) (fun _ =>
                    bind (throwIfAborted options) (fun _ => ret a)))) v).2) as Hpause.
  { intros a v. apply follows_guarded_sleep. intros v'.
    apply follows_throwIfAborted. intros v''. apply follows_refl. }
  apply follows_tryCatch.
  - apply follows_bind; [apply follows_attemptLoop|].
    intros [ok url] v. destruct ok; [destruct url as [url|]; [destruct (truthy url)|]|];
      first [apply follows_refl | apply Hpause].
  - intros e v. destruct e; apply follows_refl.
Qed.

Lemma follows_tryModels (base64Data mimeType prompt : string) (models : list string) :
  ∀ (modelFailures : list (string * ModelFailure)) w,
    follows options I w
      (tryModels provider options base64Data mimeType prompt models modelFailures w).2.
Proof.
  induction models as [|model rest IH]; intros modelFailures w; cbn [tryModels];
    [apply follows_refl|].
  apply follows_bind; [apply follows_tryModel|].
  intros [url|failures] v; [apply follows_refl|apply IH].
Qed.

Lemma follows_bind_rest {A B} (m : M S A) (k : A → M S B) w :
  (∀ a v, follows options I v (k a v).2) →
  follows options I (m w).2 (bind m k w).2.
Proof.
  intros Hk. unfold bind. destruct (m w) as [[a|e] w1]; cbn [snd];
    [apply Hk|apply follows_refl].
Qed.

Lemma follows_tryCatch_rest {A} (m : M S A) (handler : Thrown → M S A) w :
  (∀ e v, follows options I v (handler e v).2) →
  follows options I (m w).2 (tryCatch m handler w).2.
Proof.
  intros Hh. unfold tryCatch. destruct (m w) as [[a|e] w1]; cbn [snd];
    [apply follows_refl|apply Hh].
Qed.

(** What the loop over the models does after the first [attemptGenerate]. *)
Lemma follows_after_attemptGenerate (base64Data mimeType prompt model : string)
    (otherModels : list string) (modelFailures : list (string * ModelFailure)) w :
  follows options I
    (attemptGenerate provider model base64Data mimeType prompt options w).2
    (tryModels provider options base64Data mimeType prompt (model :: otherModels)
       modelFailures w).2.
Proof.
  cbn [tryModels].
  eapply follows_trans;
    [|apply follows_bind_rest; intros [url|failures] v;
      [apply follows_refl|apply follows_tryModels]].
  unfold tryModel.
  eapply follows_trans;
    [|apply follows_tryCatch_rest; intros e v; destruct e; apply follows_refl].
  apply follows_bind_rest.
  intros [ok url] v. destruct ok; [destruct url as [url|]; [destruct (truthy url)|]|];
    first [apply follows_refl
          | apply follows_guarded_sleep; intros v';
            apply follows_throwIfAborted; intros v''; apply follows_refl].
Qed.

(** Every call of [editImage] leaves the client alone, only adds to the
    trace, starts no suspension once the signal reads as aborted, and
    changes the caller's state through [onRetry] only. *)
Lemma follows_editImage (url prompt : string) w :
  follows options I w (editImage provider url prompt options w).2.
Proof.
  unfold editImage. destruct (ai w); [|apply follows_refl].
  apply follows_throwIfAborted. intros v.
  destruct (parseDataUrl url) as [[base64Data mimeType]|]; [|apply follows_refl].
  apply follows_tryModels.
Qed.

End Rounds.

(** *** Cancellation inside the service *)

Section Cancel.
Context {S : Type} (provider : nat → Request → CallOutcome) (options : Options S).
Implicit Types (w : World S).

Lemma throwIfAborted_ok_quiet w :
  throwIfAborted options w = (Ok tt, w) → quietAt options (ticks w).
Proof.
  unfold throwIfAborted, bind, aborted, quietAt.
  destruct (signal options); [|done]. case_bool_decide; [done|lia].
Qed.

Lemma settles_ret {A} (a : A) : settles options (ret a).
Proof. intros w Hw. by right. Qed.

Lemma settles_throw {A} (e : Thrown) : settles options (throw (A:=A) e).
Proof. intros w Hw. by right. Qed.

Lemma settles_bind {A B} (m : M S A) (k : A → M S B) :
  settles options m → (∀ x, settles options (k x)) → settles options (bind m k).
Proof.
  intros Hm Hk w Hw. unfold bind. specialize (Hm w Hw).
  destruct (m w) as [[x|e] w1]; cbn [fst snd] in *.
  - destruct Hm as [|Hm]; [done|]. by apply Hk.
  - destruct Hm as [[= ->]|Hm]; [by left|by right].
Qed.

(** A [try] block that never leaves a disturbed world. *)
Lemma settles_tryCatch {A} (m : M S A) (handler : Thrown → M S A) :
  (∀ w, undisturbed options w → undisturbed options (m w).2) →
  (∀ e, settles options (handler e)) →
  settles options (tryCatch m handler).
Proof.
  intros Hm Hh w Hw. unfold tryCatch. specialize (Hm w Hw).
  destruct (m w) as [[x|e] w1]; cbn [fst snd] in *; [by right|].
  by apply Hh.
Qed.

(** A [catch] block that throws the abort error again. *)
Lemma settles_tryCatch_rethrow {A} (m : M S A) (handler : Thrown → M S A) :
  settles options m →
  (∀ e, settles options (handler e)) →
  (∀ w, handler (Error "Request aborted") w = (Throw (Error "Request aborted"), w)) →
  settles options (tryCatch m handler).
Proof.
  intros Hm Hh Hre w Hw. unfold tryCatch. specialize (Hm w Hw).
  destruct (m w) as [[x|e] w1]; cbn [fst snd] in *.
  - destruct Hm as [|Hm]; [done|]. by right.
  - destruct Hm as [[= ->]|Hm]; [rewrite Hre; by left|]. by apply Hh.
Qed.

Lemma settles_throwIfAborted : settles options (throwIfAborted options).
Proof.
  intros w Hw. destruct (throwIfAborted_cases options w) as [Hq|Hq]; rewrite Hq;
    [by right|by left].
Qed.

(** [throwIfAborted ;; sleep d ;; throwIfAborted ;; k] *)
Lemma settles_checked_sleep {A} (delay : Delay) (k : M S A) :
  settles options k →
  settles options
    (bind (throwIfAborted options) (fun _ =>
       bind (sleep delay) (fun _ => bind (throwIfAborted options) (fun _ => k)))).
Proof.
  intros Hk w Hw. unfold bind, sleep.
  destruct (throwIfAborted_cases options w) as [Hq|Hq]; rewrite !Hq; [|by left].
  set (w1 := suspend (EvSleep delay) w).
  destruct (throwIfAborted_cases options w1) as [Hq1|Hq1]; rewrite !Hq1; [|by left].
  apply Hk. left. by apply throwIfAborted_ok_quiet.
Qed.

Lemma undisturbed_called (request : Request) w : undisturbed options (called request w).
Proof. right. exists request. cbn [called trace]. apply last_snoc. Qed.

Lemma attemptOnce_undisturbed (request : Request) w :
  undisturbed options w → undisturbed options (attemptOnce provider options request w).2.
Proof.
  intros Hw. unfold attemptOnce, bind at 1.
  destruct (throwIfAborted_cases options w) as [Hq|Hq]; rewrite Hq; [|done].
  unfold bind, generateContent.
  destruct (provider (calls w) request) as [response|e]; cbn [snd];
    [|apply undisturbed_called].
  destruct (readResponse response); apply undisturbed_called.
Qed.

Lemma settles_afterError (model : string) (attempt : nat) (e : Thrown)
    (continue : M S AttemptResult) :
  settles options continue →
  settles options (afterError options model attempt e continue).
Proof.
  intros Hcont w Hw. unfold afterError.
  destruct (isQuota (messageOf e) && bool_decide (attempt ≤ MAX_RETRIES)).
  2:{ destruct (isQuota (messageOf e)); by right. }
  unfold bind at 1, notifyRetry.
  set (w1 := notified options attempt _ model w).
  assert (settles options
            (bind (throwIfAborted options) (fun _ =>
               bind (sleep (backoff (messageOf e) attempt)) (fun _ =>
                 bind (throwIfAborted options) (fun _ => continue))))) as Hrest
    by by apply settles_checked_sleep.
  destruct (throwIfAborted_cases options w1) as [Hq|Hq].
  - apply Hrest. left. by apply throwIfAborted_ok_quiet.
  - left. unfold bind. by rewrite Hq.
Qed.

Lemma settles_attemptLoop (fuel : nat) (request : Request) :
  ∀ attempt : nat, settles options (attemptLoop provider fuel options request attempt).
Proof.
  induction fuel as [|fuel IH]; intros attempt; cbn [attemptLoop];
    [apply settles_ret|].
  case_bool_decide; [|apply settles_ret].
  apply settles_tryCatch.
  - apply attemptOnce_undisturbed.
  - intros e. apply settles_afterError, IH.
Qed.

Lemma settles_tryModel (base64Data mimeType prompt model : string)
    (modelFailures : list (string * ModelFailure)) :
  settles options
    (tryModel provider options base64Data mimeType prompt modelFailures model).
Proof.
  apply settles_tryCatch_rethrow.
  - apply settles_bind; [apply settles_attemptLoop|].
    intros [ok url]. destruct ok; [destruct url as [url|]; [destruct (truthy url)|]|];
      first [apply settles_ret | apply settles_checked_sleep, settles_ret].
  - intros e. destruct e; first [apply settles_ret | apply settles_throw].
  - done.
Qed.

Lemma settles_tryModels (base64Data mimeType prompt : string) (models : list string) :
  ∀ modelFailures : list (string * ModelFailure),
    settles options
      (tryModels provider options base64Data mimeType prompt models modelFailures).
Proof.
  induction models as [|model rest IH]; intros modelFailures; cbn [tryModels];
    [apply settles_throw|].
  apply settles_bind; [apply settles_tryModel|].
  intros [url|failures]; [apply settles_ret|apply IH].
Qed.

(** Once the signal has changed, [editImage] either throws the abort
    error or has done nothing since the call that was in flight. *)
Lemma settles_editImage (url prompt : string) :
  settles options (editImage provider url prompt options).
Proof.
  intros w Hw. unfold editImage. destruct (ai w); [|by right].
  revert w Hw. apply settles_bind; [apply settles_throwIfAborted|]. intros _.
  destruct (parseDataUrl url) as [[base64Data mimeType]|]; [|apply settles_throw].
  apply settles_tryModels.
Qed.

End Cancel.

(** *** What a trace holds *)

Section Traces.
Context {S : Type}.
Implicit Types (w : World S) (options : Options S).

Lemma sleepsOf_app (l k : list Event) : sleepsOf (l ++ k) = sleepsOf l ++ sleepsOf k.
Proof. apply omap_app. Qed.

Lemma requestsOf_app (l k : list Event) :
  requestsOf (l ++ k) = requestsOf l ++ requestsOf k.
Proof. apply omap_app. Qed.

Lemma trace_notified options (attempt : nat) (delay : Delay) (model : string) w :
  ∃ notice,
    trace (notified options attempt delay model w) = trace w ++ notice
    ∧ sleepsOf notice = [] ∧ requestsOf notice = []
    ∧ (∀ callback, onRetry options = Some callback →
         notice = [EvRetry attempt delay model]).
Proof.
  unfold notified. destruct (onRetry options) as [callback|].
  - exists [EvRetry attempt delay model]. by split_and!.
  - exists []. by rewrite app_nil_r.
Qed.

Lemma trace_afterRetries options (request : Request) (errors : nat → Thrown)
    (k : nat) w :
  ∃ events,
    trace (afterRetries options request errors k w) = trace w ++ events
    ∧ length (sleepsOf events) = k
    ∧ requestsOf events = replicate k request.
Proof.
  induction k as [|k (events & Ht & Hs & Hr)]; cbn [afterRetries].
  - exists []. by rewrite app_nil_r.
  - destruct (trace_notified options (Datatypes.S k)
                (backoff (messageOf (errors k)) (Datatypes.S k)) (model request)
                (called request (afterRetries options request errors k w)))
      as (notice & Hn & Hns & Hnr & _).
    exists (events ++ [EvGenerate request] ++ notice
            ++ [EvSleep (backoff (messageOf (errors k)) (Datatypes.S k))]).
    split_and!.
    + cbn [suspend trace]. rewrite Hn. cbn [called trace]. rewrite Ht.
      by rewrite <- !app_assoc.
    + rewrite !sleepsOf_app, Hns, !length_app, Hs. cbn. lia.
    + rewrite !requestsOf_app, Hnr, Hr. cbn [requestsOf omap list_omap app].
      by rewrite replicate_S_end.
Qed.

End Traces.

(** C10: without an API key [editImage] throws at once, the world being
    left as it was (no parsing, no call, no retry, no other model); and
    [setApiKey] rejects the empty key by throwing, without storing it. *)
Theorem editImage_requires_api_key {S : Type} :
  (∀ w : World S, setApiKey "" w = (Throw (Error "API key is required"), w))
  ∧ (∀ (provider : nat → Request → CallOutcome) (url prompt : string)
       (options : Options S) (w : World S),
       ai w = None →
       editImage provider url prompt options w
       = (Throw (Error "API key not configured. Please set your Gemini API key in the settings."),
          w)).
Proof.
  split; [done|]. intros provider url prompt options w Hai.
  unfold editImage. by rewrite Hai.
Qed.

Lemma editImage_requires_api_key_witness :
  editImage (fun _ _ => Fails (Error "unreachable")) "not a data URL" "prompt"
    (mkOptions (Some 0) None) (mkWorld None 0 0 [] tt)
  = (Throw (Error "API key not configured. Please set your Gemini API key in the settings."),
     mkWorld None 0 0 [] tt).
Proof.
  apply (proj2 (@editImage_requires_api_key unit)). reflexivity.
Defined.

(** C5: when the first two calls to a backend fail with quota errors and
    the third brings back an image, [attemptGenerate] returns the image
    after exactly three calls and two retries; [onRetry] is called exactly
    twice, each time just before the sleep it announces, with the number
    of the attempt, the delay and the model. *)
Theorem attemptGenerate_succeeds_on_third_attempt {S : Type}
    (provider : nat → Request → CallOutcome) (options : Options S)
    (callback : nat → Delay → string → S → S)
    (model base64Data mimeType prompt : string) (w : World S)
    (e1 e2 : Thrown) (response : GenerateContentResponse) (url : string) :
  let request := mkRequest model base64Data mimeType prompt in
  let d1 := backoff (messageOf e1) 1 in
  let d2 := backoff (messageOf e2) 2 in
  onRetry options = Some callback →
  quietAt options (ticks w + 4) →
  failureOf (provider (calls w) request) = Some e1 → isQuota (messageOf e1) = true →
  failureOf (provider (calls w + 1) request) = Some e2 → isQuota (messageOf e2) = true →
  provider (calls w + 2) request = Responds response → readResponse response = Ok url →
  attemptGenerate provider model base64Data mimeType prompt options w
  = (Ok (mkAttempt true (Some url)),
     mkWorld (ai w) (ticks w + 5) (calls w + 3)
       (trace w ++ [EvGenerate request; EvRetry 1 d1 model; EvSleep d1;
                    EvGenerate request; EvRetry 2 d2 model; EvSleep d2;
                    EvGenerate request])
       (callback 2 d2 model (callback 1 d1 model (caller w)))).
Proof.
  intros request d1 d2 Hcb Hquiet Hf1 Hq1 Hf2 Hq2 Hresp Hurl.
  unfold attemptGenerate. fold request.
  change (Datatypes.S MAX_RETRIES) with (2 + 2).
  rewrite (attemptLoop_retries provider options request
             (fun j => match j with 0 => e1 | _ => e2 end) 2).
  - rewrite (attemptLoop_answered provider _ _ _ _ _ response url); try done.
    + f_equal. cbn [afterRetries]. unfold notified. rewrite Hcb.
      unfold called, suspend. cbn. f_equal; [lia..|].
      by rewrite <- !app_assoc.
    + unfold MAX_RETRIES. lia.
    + rewrite ticks_afterRetries. eapply quietAt_le; [done|lia].
    + by rewrite calls_afterRetries.
  - unfold MAX_RETRIES. lia.
  - intros [|[|j]] Hj; [by rewrite Nat.add_0_r|done|lia].
  - eapply quietAt_le; [done|lia].
Qed.

(** While the calls to a backend fail with quota errors, the sleep before
    the [n]-th retry ([n] from 1 to 3) lasts [backoff] of the text of the
    [n]-th error, and [onRetry] is told the same delay. *)
Lemma attemptGenerate_retry_delay {S : Type}
    (provider : nat → Request → CallOutcome) (options : Options S)
    (model base64Data mimeType prompt : string) (w : World S)
    (errors : nat → Thrown) (n : nat) :
  let request := mkRequest model base64Data mimeType prompt in
  let delay := backoff (messageOf (errors (n - 1))) n in
  1 ≤ n ≤ MAX_RETRIES →
  (∀ j, j < n → failureOf (provider (calls w + j) request) = Some (errors j)
                 ∧ isQuota (messageOf (errors j)) = true) →
  quietAt options (ticks w + 2 * n - 1) →
  ∃ before after,
    trace (attemptGenerate provider model base64Data mimeType prompt options w).2
    = trace w ++ before ++ EvSleep delay :: after
    ∧ length (sleepsOf before) = n - 1
    ∧ (∀ callback, onRetry options = Some callback →
         last before = Some (EvRetry n delay model)).
Proof.
  intros request delay [Hn1 Hn3] Herr Hquiet.
  destruct n as [|m]; [lia|]. unfold delay. clear delay.
  replace (Datatypes.S m - 1) with m by lia.
  unfold attemptGenerate. fold request.
  replace (Datatypes.S MAX_RETRIES) with (m + Datatypes.S (MAX_RETRIES - m)) by lia.
  rewrite (attemptLoop_retries provider options request errors m);
    [|lia|intros j Hj; apply Herr; lia|eapply quietAt_le; [done|lia]].
  destruct (Herr m) as [Hfail Hq]; [lia|].
  set (wm := afterRetries options request errors m w).
  assert (ticks wm = ticks w + 2 * m) as Hticks by apply ticks_afterRetries.
  rewrite (attemptLoop_failed provider _ _ _ _ _ (errors m));
    [|lia|rewrite Hticks; eapply quietAt_le; [done|lia]
     |unfold wm; by rewrite calls_afterRetries].
  unfold afterError. rewrite Hq, bool_decide_true by done. cbn [andb].
  set (d := backoff (messageOf (errors m)) (Datatypes.S m)).
  unfold bind at 1, notifyRetry. unfold bind at 1.
  set (w1 := notified options (Datatypes.S m) d (Gemini.model request) (called request wm)).
  rewrite (throwIfAborted_quiet options w1 (ticks w + 2 * Datatypes.S m - 1));
    [|done|unfold w1; rewrite ticks_notified; cbn [called ticks]; lia].
  unfold bind at 1, sleep. unfold bind at 1.
  set (w2 := suspend (EvSleep d) w1).
  assert (follows options (fun _ => True) w2
            (bind (throwIfAborted options)
               (fun _ => attemptLoop provider (MAX_RETRIES - m) options request
                           (Datatypes.S m)) w2).2) as Hrest.
  { apply follows_throwIfAborted. intros v. by apply follows_attemptLoop. }
  unfold bind in Hrest. destruct Hrest as [_ [after Hafter] _ _ _].
  destruct (trace_afterRetries options request errors m w) as (events & Hev & Hsl & _).
  destruct (trace_notified options (Datatypes.S m) d (Gemini.model request) (called request wm))
    as (notice & Hnotice & Hns & _ & Hcb).
  exists (events ++ [EvGenerate request] ++ notice), after. split_and!.
  - rewrite Hafter. unfold w2. cbn [suspend trace]. fold w1. unfold w1.
    rewrite Hnotice. cbn [called trace]. unfold wm. rewrite Hev.
    by rewrite <- !app_assoc.
  - rewrite !sleepsOf_app, Hns, !length_app, Hsl. cbn. lia.
  - intros callback Hsome. rewrite (Hcb callback Hsome).
    by rewrite !app_assoc, last_snoc.
Qed.

Lemma attemptGenerate_succeeds_on_third_attempt_witness :
  let provider := fun (n : nat) (_ : Request) =>
    match n with
    | 0 => Fails (Error "429 Too Many Requests")
    | 1 => Fails (Error "RESOURCE_EXHAUSTED: please retry in 2.5s")
    | _ => Responds (mkResponse
             (Some [mkCandidate
                      (Some [mkPart (Some (mkBlob (Some "image/png") (Some "OUT")))])
                      (Some "STOP")]) None)
    end in
  let request := mkRequest "m" "IN" "image/png" "p" in
  attemptGenerate provider "m" "IN" "image/png" "p"
    (mkOptions None (Some (fun n _ _ (count : nat) => count + n)))
    (mkWorld (Some "key") 0 0 [] 0)
  = (Ok (mkAttempt true (Some "data:image/png;base64,OUT")),
     mkWorld (Some "key") 5 3
       [EvGenerate request; EvRetry 1 (Millis 1000) "m"; EvSleep (Millis 1000);
        EvGenerate request; EvRetry 2 (FromServer "2.5") "m"; EvSleep (FromServer "2.5");
        EvGenerate request]
       3).
Proof.
  intros provider request.
  apply (attemptGenerate_succeeds_on_third_attempt provider
           (mkOptions None (Some (fun n _ _ (count : nat) => count + n)))
           (fun n _ _ (count : nat) => count + n)
           "m" "IN" "image/png" "p" (mkWorld (Some "key") 0 0 [] 0)
           (Error "429 Too Many Requests")
           (Error "RESOURCE_EXHAUSTED: please retry in 2.5s")
           (mkResponse
              (Some [mkCandidate
                       (Some [mkPart (Some (mkBlob (Some "image/png") (Some "OUT")))])
                       (Some "STOP")]) None)
           "data:image/png;base64,OUT");
    first [reflexivity | exact Logic.I].
Defined.

(** C6 fails at an error text whose [retryDelay] field holds a backslash
    before the digits, which the second expression lets into the group
    it captures.  The first call fails with a quota error that carries
    such a field of 5 seconds.  The service reads the field, not the
    exponential backoff: the delay that it tells [onRetry] and sleeps
    before the retry is [parseFloat] of a text that starts with a
    backslash, which is not a number.  The delay is neither the 5000 ms
    of the field nor the 1000 ms of the backoff. *)
Theorem retry_delay_not_a_number :
  let msg := "429 RESOURCE_EXHAUSTED " +:+ doubleQuote +:+ "retryDelay" +:+ doubleQuote
             +:+ ": " +:+ doubleQuote +:+ "\5s" +:+ doubleQuote in
  let provider := fun (n : nat) (_ : Request) =>
    match n with
    | 0 => Fails (Error msg)
    | _ => Responds (mkResponse
                       (Some [mkCandidate
                                (Some [mkPart (Some (mkBlob (Some "image/png") (Some "OUT")))])
                                (Some "STOP")]) None)
    end in
  let options :=
    mkOptions None (Some (fun _ told _ (seen : list Delay) => seen ++ [told])) in
  let request := mkRequest "m" "IN" "image/png" "p" in
  let delay := FromServer "\5" in
  isQuota msg = true
  ∧ suggestedDelayMs msg = Some delay
  ∧ backoff msg 1 = delay
  ∧ (attemptGenerate provider "m" "IN" "image/png" "p" options
       (mkWorld (Some "key") 0 0 [] [])).1
    = Ok (mkAttempt true (Some "data:image/png;base64,OUT"))
  ∧ trace (attemptGenerate provider "m" "IN" "image/png" "p" options
             (mkWorld (Some "key") 0 0 [] [])).2
    = [EvGenerate request; EvRetry 1 delay "m"; EvSleep delay; EvGenerate request]
  ∧ caller (attemptGenerate provider "m" "IN" "image/png" "p" options
              (mkWorld (Some "key") 0 0 [] [])).2
    = [delay]
  ∧ delayIsNaN delay = true
  ∧ delay ≠ Millis 5000
  ∧ delay ≠ Millis (Z.min (INITIAL_DELAY_MS * 2 ^ (1 - 1)) MAX_DELAY_MS).
Proof. by vm_compute. Qed.

(** *** All backends out of quota *)

Section Exhausted.
Context {S : Type} (provider : nat → Request → CallOutcome) (options : Options S).
Context (base64Data mimeType prompt : string).
Hypothesis Hquota : ∀ k request, ∃ e,
    failureOf (provider k request) = Some e ∧ isQuota (messageOf e) = true.

(** The entry that a backend out of quota leaves in [modelFailures]. *)
Local Abbreviation noResult := (mkFailure "quota_or_rate_limit_or_no_result" None).

Lemma attemptGenerate_exhausted (model : string) (w : World S) :
  quietAt options (ticks w + 6) →
  ∃ w' events,
    attemptGenerate provider model base64Data mimeType prompt options w
    = (Ok (mkAttempt false None), w')
    ∧ ai w' = ai w ∧ ticks w' = ticks w + 7 ∧ calls w' = calls w + 4
    ∧ trace w' = trace w ++ events
    ∧ requestsOf events
      = replicate 4 (mkRequest model base64Data mimeType prompt).
Proof.
  intros Hquiet. set (request := mkRequest model base64Data mimeType prompt).
  set (errors := fun j => default (Error "") (failureOf (provider (calls w + j) request))).
  assert (∀ j, failureOf (provider (calls w + j) request) = Some (errors j)
               ∧ isQuota (messageOf (errors j)) = true) as Herr.
  { intros j. unfold errors. destruct (Hquota (calls w + j) request) as (e & -> & Hq).
    done. }
  set (w3 := afterRetries options request errors 3 w).
  exists (called request w3).
  destruct (trace_afterRetries options request errors 3 w) as (events & Hev & _ & Hreq).
  exists (events ++ [EvGenerate request]).
  unfold attemptGenerate. fold request.
  change (Datatypes.S MAX_RETRIES) with (3 + 1).
  rewrite (attemptLoop_retries provider options request errors 3);
    [|done|intros j _; apply Herr|done].
  fold w3.
  assert (ticks w3 = ticks w + 6) as Ht by apply ticks_afterRetries.
  assert (calls w3 = calls w + 3) as Hc by apply calls_afterRetries.
  destruct (Herr 3) as [Hf3 Hq3].
  rewrite (attemptLoop_failed provider _ _ _ _ _ (errors 3));
    [|done|by rewrite Ht|by rewrite Hc].
  rewrite afterError_exhausted; [|done|unfold MAX_RETRIES; lia].
  split_and!; try done.
  - apply ai_afterRetries.
  - cbn [called ticks]. lia.
  - cbn [called calls]. lia.
  - cbn [called trace]. fold w3 in Hev. rewrite Hev. by rewrite <- app_assoc.
  - rewrite requestsOf_app, Hreq. by cbn.
Qed.

Lemma tryModel_exhausted (model : string)
    (modelFailures : list (string * ModelFailure)) (w : World S) :
  quietAt options (ticks w + 8) →
  ∃ w' events,
    tryModel provider options base64Data mimeType prompt modelFailures model w
    = (Ok (inr (setKey model noResult modelFailures)), w')
    ∧ ai w' = ai w ∧ ticks w' = ticks w + 8 ∧ calls w' = calls w + 4
    ∧ trace w' = trace w ++ events
    ∧ requestsOf events
      = replicate 4 (mkRequest model base64Data mimeType prompt).
Proof.
  intros Hquiet.
  destruct (attemptGenerate_exhausted model w) as (w1 & events & Hrun & Ha & Ht & Hc & Htr & Hreq);
    [eapply quietAt_le; [done|lia]|].
  exists (suspend (EvSleep (Millis 250)) w1), (events ++ [EvSleep (Millis 250)]).
  unfold tryModel, tryCatch. unfold bind at 1. rewrite Hrun.
  unfold bind at 1.
  rewrite (throwIfAborted_quiet options w1 (ticks w + 8)) by (done || lia).
  unfold bind at 1, sleep. unfold bind at 1.
  rewrite (throwIfAborted_quiet options _ (ticks w + 8)) by (done || cbn; lia).
  split_and!; try done.
  - cbn [suspend ticks]. lia.
  - cbn [suspend trace]. rewrite Htr. by rewrite <- app_assoc.
  - rewrite requestsOf_app, Hreq. cbn [requestsOf omap list_omap].
    by rewrite app_nil_r.
Qed.

Lemma tryModels_exhausted (models : list string) :
  ∀ (modelFailures : list (string * ModelFailure)) (w : World S),
    quietAt options (ticks w + 8 * length models) →
    ∃ w' events,
      tryModels provider options base64Data mimeType prompt models modelFailures w
      = (Throw (QuotaError quotaMessage
                  (foldl (fun failures model => setKey model noResult failures)
                     modelFailures models)), w')
      ∧ trace w' = trace w ++ events
      ∧ requestsOf events
        = models ≫= (fun model =>
            replicate 4 (mkRequest model base64Data mimeType prompt)).
Proof.
  induction models as [|model rest IH]; intros modelFailures w Hquiet.
  - exists w, []. by rewrite app_nil_r.
  - destruct (tryModel_exhausted model modelFailures w)
      as (w1 & events & Hrun & _ & Ht & _ & Htr & Hreq);
      [eapply quietAt_le; [done|cbn [length]; lia]|].
    destruct (IH (setKey model noResult modelFailures) w1)
      as (w2 & events' & Hrun' & Htr' & Hreq');
      [eapply quietAt_le; [done|cbn [length]; lia]|].
    exists w2, (events ++ events'). cbn [tryModels foldl]. unfold bind. rewrite Hrun.
    split_and!; [done| |].
    + by rewrite Htr', Htr, <- app_assoc.
    + by rewrite requestsOf_app, Hreq, Hreq'.
Qed.
End Exhausted.

(** C4: when every attempt on every backend fails with a quota error,
    [editImage] goes through the backends in the order of
    [MODEL_PREFERENCES], makes four attempts (three retries) on each
    before moving to the next, and then throws one [QuotaError] whose
    details name every backend; nothing else is thrown. *)
Theorem editImage_all_backends_out_of_quota {S : Type}
    (provider : nat → Request → CallOutcome) (options : Options S)
    (url prompt base64Data mimeType key : string) (w : World S) :
  ai w = Some key →
  parseDataUrl url = Some (base64Data, mimeType) →
  quietAt options (ticks w + 8 * length MODEL_PREFERENCES) →
  (∀ k request, ∃ e,
      failureOf (provider k request) = Some e ∧ isQuota (messageOf e) = true) →
  ∃ w' events,
    editImage provider url prompt options w
    = (Throw (QuotaError quotaMessage
                ((fun model => (model, mkFailure "quota_or_rate_limit_or_no_result" None))
                   <$> MODEL_PREFERENCES)), w')
    ∧ trace w' = trace w ++ events
    ∧ requestsOf events
      = MODEL_PREFERENCES ≫= (fun model =>
          replicate (Datatypes.S MAX_RETRIES)
            (mkRequest model base64Data mimeType prompt)).
Proof.
  intros Hai Hurl Hquiet Hquota.
  destruct (tryModels_exhausted provider options base64Data mimeType prompt Hquota
              MODEL_PREFERENCES [] w Hquiet) as (w' & events & Hrun & Htr & Hreq).
  exists w', events. split_and!; [|done..].
  unfold editImage. rewrite Hai. unfold bind.
  rewrite (throwIfAborted_quiet options w (ticks w + 8 * length MODEL_PREFERENCES))
    by (done || lia).
  by rewrite Hurl, Hrun.
Qed.

Lemma editImage_all_backends_out_of_quota_witness :
  let provider := fun (n : nat) (_ : Request) =>
    if Nat.even n then Fails (Error "429 Too Many Requests")
    else Responds (mkResponse None (Some "quota")) in
  ∃ w' events,
    editImage provider "data:image/png;base64,IN" "p" (mkOptions (Some 33) None)
      (mkWorld (Some "key") 0 0 [] tt)
    = (Throw (QuotaError quotaMessage
                ((fun model => (model, mkFailure "quota_or_rate_limit_or_no_result" None))
                   <$> MODEL_PREFERENCES)), w')
    ∧ trace w' = [] ++ events
    ∧ requestsOf events
      = MODEL_PREFERENCES ≫= (fun model =>
          replicate (Datatypes.S MAX_RETRIES) (mkRequest model "IN" "image/png" "p")).
Proof.
  intros provider.
  apply (editImage_all_backends_out_of_quota provider (mkOptions (Some 33) None)
           "data:image/png;base64,IN" "p" "IN" "image/png" "key"
           (mkWorld (Some "key") 0 0 [] tt)).
  - reflexivity.
  - reflexivity.
  - vm_compute. lia.
  - intros k request. unfold provider. destruct (Nat.even k).
    + exists (Error "429 Too Many Requests"). split; reflexivity.
    + eexists. split; reflexivity.
Defined.

(** *** Errors that are retried and errors that are not *)

Section Classified.
Context {S : Type} (provider : nat → Request → CallOutcome) (options : Options S).
Context (base64Data mimeType prompt model : string).
Context (errors : nat → Thrown) (k : nat) (e : Thrown) (w : World S).

Local Abbreviation request := (mkRequest model base64Data mimeType prompt).
Local Abbreviation wk := (afterRetries options request errors k w).

(** The first [k] calls failed with quota errors, the signal being quiet
    until the next call, which fails with [e]. *)
Hypothesis Hk : k ≤ MAX_RETRIES.
Hypothesis Hbefore : ∀ j, j < k →
    failureOf (provider (calls w + j) request) = Some (errors j)
    ∧ isQuota (messageOf (errors j)) = true.
Hypothesis Hquiet : quietAt options (ticks w + 2 * k).
Hypothesis Hfails : failureOf (provider (calls w + k) request) = Some e.

Lemma attemptGenerate_at_failure :
  attemptGenerate provider model base64Data mimeType prompt options w
  = afterError options model (Datatypes.S k) e
      (attemptLoop provider (MAX_RETRIES - k) options request (Datatypes.S k))
      (called request wk).
Proof.
  unfold attemptGenerate.
  replace (Datatypes.S MAX_RETRIES) with (k + Datatypes.S (MAX_RETRIES - k)) by lia.
  rewrite (attemptLoop_retries provider options request errors k); [|done..].
  rewrite (attemptLoop_failed provider _ _ _ _ _ e); [done|done| |].
  - by rewrite ticks_afterRetries.
  - by rewrite calls_afterRetries.
Qed.

(** A quota error with retries left: the backend is called again, after
    the notice and the sleep. *)
Lemma attemptGenerate_retried :
  isQuota (messageOf e) = true → k < MAX_RETRIES →
  quietAt options (ticks w + 2 * k + 2) →
  let delay := backoff (messageOf e) (Datatypes.S k) in
  let wr := suspend (EvSleep delay)
              (notified options (Datatypes.S k) delay model (called request wk)) in
  trace (called request wr)
    `prefix_of` trace (attemptGenerate provider model base64Data mimeType prompt
                         options w).2.
Proof.
  intros Hq Hlt Hquiet' delay wr. rewrite attemptGenerate_at_failure.
  assert (ticks wr = ticks w + 2 * k + 2) as Ht.
  { unfold wr. cbn [suspend ticks]. rewrite ticks_notified. cbn [called ticks].
    rewrite ticks_afterRetries. lia. }
  rewrite afterError_retry; [|done|lia|].
  2:{ cbn [called ticks]. rewrite ticks_afterRetries.
      eapply quietAt_le; [exact Hquiet'|lia]. }
  fold delay wr.
  destruct (MAX_RETRIES - k) as [|fuel] eqn:Hfuel; [lia|].
  rewrite attemptLoop_round; [|lia|by rewrite Ht].
  assert (∀ e', trace (called request wr)
                  `prefix_of` trace (afterError options model
                                       (Datatypes.S (Datatypes.S k)) e'
                                       (attemptLoop provider fuel options request
                                          (Datatypes.S (Datatypes.S k)))
                                       (called request wr)).2) as Hrest.
  { intros e'.
    apply (follows_trace options (fun _ => True)).
    apply follows_afterError; [done|]. intros v. by apply follows_attemptLoop. }
  destruct (provider (calls wr) request) as [response|e']; [|apply Hrest].
  destruct (readResponse response); [done|apply Hrest].
Qed.

Lemma editImage_retried (url key : string) (otherModels : list string) :
  ai w = Some key → parseDataUrl url = Some (base64Data, mimeType) →
  MODEL_PREFERENCES = model :: otherModels →
  isQuota (messageOf e) = true → k < MAX_RETRIES →
  quietAt options (ticks w + 2 * k + 2) →
  let delay := backoff (messageOf e) (Datatypes.S k) in
  let wr := suspend (EvSleep delay)
              (notified options (Datatypes.S k) delay model (called request wk)) in
  trace (called request wr)
    `prefix_of` trace (editImage provider url prompt options w).2.
Proof.
  intros Hai Hparse Hmodels Hq Hlt Hquiet' delay wr.
  unfold editImage. rewrite Hai. unfold bind.
  rewrite (throwIfAborted_quiet options w (ticks w + 2 * k)) by (done || lia).
  rewrite Hparse, Hmodels.
  etrans; [by apply attemptGenerate_retried|].
  apply (follows_trace options (fun _ => True)).
  by apply follows_after_attemptGenerate.
Qed.

(** Any other error is thrown at once, wrapped, by [attemptGenerate]... *)
Lemma attemptGenerate_fatal :
  isQuota (messageOf e) = false →
  attemptGenerate provider model base64Data mimeType prompt options w
  = (Throw (fatalError e), called request wk).
Proof. intros Hq. rewrite attemptGenerate_at_failure. by apply afterError_fatal. Qed.

(** ... and leaves the loop over the models, whatever models are left. *)
Lemma tryModels_fatal (otherModels : list string)
    (modelFailures : list (string * ModelFailure)) :
  isQuota (messageOf e) = false →
  tryModels provider options base64Data mimeType prompt (model :: otherModels)
    modelFailures w
  = (Throw (fatalError e), called request wk).
Proof.
  intros Hq. cbn [tryModels]. unfold bind at 1, tryModel, tryCatch. unfold bind at 1.
  rewrite attemptGenerate_fatal by done. by destruct e.
Qed.

Lemma editImage_fatal (url key : string) (otherModels : list string) :
  ai w = Some key → parseDataUrl url = Some (base64Data, mimeType) →
  MODEL_PREFERENCES = model :: otherModels →
  isQuota (messageOf e) = false →
  editImage provider url prompt options w = (Throw (fatalError e), called request wk).
Proof.
  intros Hai Hparse Hmodels Hq.
  unfold editImage. rewrite Hai. unfold bind.
  rewrite (throwIfAborted_quiet options w (ticks w + 2 * k)) by (done || lia).
  rewrite Hparse, Hmodels. by apply tryModels_fatal.
Qed.

End Classified.

(** *** What a call of the service spends *)

Section Effort.
Context {S : Type} (provider : nat → Request → CallOutcome) (options : Options S).
Implicit Types (w : World S) (events : list Event).

Lemma adds_refl w : adds [] w w.
Proof. split; cbn; by rewrite ?app_nil_r, ?Nat.add_0_r. Qed.

Lemma adds_trans events events' w w1 w2 :
  adds events w w1 → adds events' w1 w2 → adds (events ++ events') w w2.
Proof.
  intros [Ha Ht Hc Hk] [Ha' Ht' Hc' Hk'].
  split; rewrite ?requestsOf_app, ?sleepsOf_app, ?length_app.
  - congruence.
  - by rewrite Ht', Ht, <- app_assoc.
  - lia.
  - lia.
Qed.

Lemma rounds_nil (request : Request) (k s : nat) : rounds request k s [].
Proof. split_and!; [exists 0; split; [lia|done]|cbn; lia|constructor]. Qed.

Lemma rounds_app (request : Request) (k k' s s' : nat) events events' :
  rounds request k s events → rounds request k' s' events' →
  rounds request (k + k') (s + s') (events ++ events').
Proof.
  intros ((n & Hn & Hr) & Hs & Hd) ((n' & Hn' & Hr') & Hs' & Hd').
  split_and!.
  - exists (n + n'). split; [lia|].
    by rewrite requestsOf_app, Hr, Hr', replicate_add.
  - rewrite sleepsOf_app, length_app. lia.
  - rewrite sleepsOf_app. by apply Forall_app.
Qed.

Lemma rounds_mono (request : Request) (k k' s s' : nat) events :
  rounds request k s events → k ≤ k' → s ≤ s' → rounds request k' s' events.
Proof.
  intros ((n & Hn & Hr) & Hs & Hd) Hk Hs'.
  split_and!; [exists n; split; [lia|done]|lia|done].
Qed.

Lemma yields_ret {A} (P : list Event → Prop) (a : A) : P [] → yields P (ret (S:=S) a).
Proof. intros HP w. exists []. split; [apply adds_refl|done]. Qed.

Lemma yields_throw {A} (P : list Event → Prop) (e : Thrown) :
  P [] → yields P (throw (S:=S) (A:=A) e).
Proof. intros HP w. exists []. split; [apply adds_refl|done]. Qed.

Lemma yields_mono {A} (P Q : list Event → Prop) (m : M S A) :
  yields P m → (∀ events, P events → Q events) → yields Q m.
Proof. intros Hm HPQ w. destruct (Hm w) as (events & ? & ?). exists events. auto. Qed.

Lemma yields_bind {A B} (P Q R : list Event → Prop) (m : M S A) (k : A → M S B) :
  yields P m → (∀ a, yields Q (k a)) →
  (∀ events, P events → R events) →
  (∀ events events', P events → Q events' → R (events ++ events')) →
  yields R (bind m k).
Proof.
  intros Hm Hk Hthrow Hboth w. unfold bind.
  destruct (Hm w) as (events & Hadds & HP).
  destruct (m w) as [[a|e] w1]; cbn [snd] in *.
  - destruct (Hk a w1) as (events' & Hadds' & HQ).
    exists (events ++ events'). split; [by eapply adds_trans|by apply Hboth].
  - exists events. split; [done|by apply Hthrow].
Qed.

Lemma yields_tryCatch {A} (P Q R : list Event → Prop) (m : M S A)
    (handler : Thrown → M S A) :
  yields P m → (∀ e, yields Q (handler e)) →
  (∀ events, P events → R events) →
  (∀ events events', P events → Q events' → R (events ++ events')) →
  yields R (tryCatch m handler).
Proof.
  intros Hm Hh Hok Hboth w. unfold tryCatch.
  destruct (Hm w) as (events & Hadds & HP).
  destruct (m w) as [[a|e] w1]; cbn [snd] in *.
  - exists events. split; [done|by apply Hok].
  - destruct (Hh e w1) as (events' & Hadds' & HQ).
    exists (events ++ events'). split; [by eapply adds_trans|by apply Hboth].
Qed.

(** The two combinators on [rounds]. *)
Lemma rounds_bind {A B} (request : Request) (k k' s s' : nat)
    (m : M S A) (f : A → M S B) :
  yields (rounds request k s) m → (∀ a, yields (rounds request k' s') (f a)) →
  yields (rounds request (k + k') (s + s')) (bind m f).
Proof.
  intros Hm Hf. eapply yields_bind; [exact Hm|exact Hf| |].
  - intros events H. eapply rounds_mono; [exact H|lia..].
  - intros events events'. apply rounds_app.
Qed.

Lemma rounds_tryCatch {A} (request : Request) (k k' s s' : nat)
    (m : M S A) (handler : Thrown → M S A) :
  yields (rounds request k s) m → (∀ e, yields (rounds request k' s') (handler e)) →
  yields (rounds request (k + k') (s + s')) (tryCatch m handler).
Proof.
  intros Hm Hh. eapply yields_tryCatch; [exact Hm|exact Hh| |].
  - intros events H. eapply rounds_mono; [exact H|lia..].
  - intros events events'. apply rounds_app.
Qed.

Lemma rounds_throwIfAborted (request : Request) :
  yields (rounds request 0 0) (throwIfAborted options).
Proof.
  intros w. exists []. split; [|apply rounds_nil].
  destruct (throwIfAborted_cases options w) as [-> | ->]; apply adds_refl.
Qed.

Lemma rounds_sleep (request : Request) (delay : Delay) :
  knownDelay delay → yields (rounds request 0 1) (sleep (S:=S) delay).
Proof.
  intros Hd w. exists [EvSleep delay]. split.
  - split; cbn; [done..|lia|lia].
  - split_and!; [exists 0; split; [lia|done]|cbn; lia|by repeat constructor].
Qed.

Lemma rounds_notifyRetry (request : Request) (attempt : nat) (delay : Delay)
    (model : string) :
  yields (rounds request 0 0) (notifyRetry options attempt delay model).
Proof.
  intros w. unfold notifyRetry, notified. cbn [snd].
  destruct (onRetry options) as [callback|].
  - exists [EvRetry attempt delay model]. split.
    + split; cbn; [done..|lia|lia].
    + split_and!; [exists 0; split; [lia|done]|cbn; lia|constructor].
  - exists []. split; [apply adds_refl|apply rounds_nil].
Qed.

Lemma rounds_generateContent (request : Request) :
  yields (rounds request 1 0) (generateContent (S:=S) provider request).
Proof.
  intros w. exists [EvGenerate request].
  assert (adds [EvGenerate request] w (called request w)) as Hcalled
    by (split; cbn; [done..|lia|lia]).
  split.
  - unfold generateContent. by destruct (provider (calls w) request).
  - split_and!; [exists 1; split; [lia|done]|cbn; lia|constructor].
Qed.

(** The backoff before a retry is a delay the server suggested, or 1, 2
    or 4 seconds: the cap of 30 seconds is never reached. *)
Lemma backoff_known (msg : string) (attempt : nat) :
  1 ≤ attempt ≤ MAX_RETRIES → knownDelay (backoff msg attempt).
Proof.
  intros Hattempt. unfold backoff. destruct (suggestedDelayMs msg) as [d|] eqn:Hd.
  - unfold suggestedDelayMs in Hd.
    destruct (firstMatch matchRetryIn msg); [by injection Hd as <-|].
    destruct (firstMatch matchRetryDelay msg); by simplify_eq/=.
  - unfold MAX_RETRIES in Hattempt.
    assert (attempt = 1 ∨ attempt = 2 ∨ attempt = 3) as [->|[->| ->]] by lia;
      cbv; set_solver.
Qed.

Lemma rounds_afterError (request : Request) (attempt : nat) (e : Thrown)
    (continue : M S AttemptResult) :
  yields (rounds request (Datatypes.S MAX_RETRIES - Datatypes.S attempt)
            (MAX_RETRIES - Datatypes.S attempt)) continue →
  yields (rounds request (Datatypes.S MAX_RETRIES - Datatypes.S attempt)
            (MAX_RETRIES - attempt))
    (afterError options (model request) (Datatypes.S attempt) e continue).
Proof.
  intros Hcont. unfold afterError.
  destruct (isQuota (messageOf e)) eqn:Hq; cbn [andb];
    [case_bool_decide as Hle|]; [|by apply yields_ret, rounds_nil
                                  |by apply yields_throw, rounds_nil].
  eapply yields_mono.
  - eapply (rounds_bind request 0 _ 0 _); [apply rounds_notifyRetry|]. intros _.
    eapply (rounds_bind request 0 _ 0 _); [apply rounds_throwIfAborted|]. intros _.
    eapply (rounds_bind request 0 _ 1 _).
    { apply rounds_sleep, backoff_known. lia. }
    intros _.
    eapply (rounds_bind request 0 _ 0 _); [apply rounds_throwIfAborted|]. intros _.
    exact Hcont.
  - intros events H. eapply rounds_mono; [exact H|unfold MAX_RETRIES in *; lia..].
Qed.

(** From attempt [attempt] on, [attemptGenerate] makes at most
    [4 - attempt] calls and sleeps at most [3 - attempt] times. *)
Lemma rounds_attemptLoop (fuel : nat) (request : Request) :
  ∀ attempt : nat,
    yields (rounds request (Datatypes.S MAX_RETRIES - attempt) (MAX_RETRIES - attempt))
      (attemptLoop provider fuel options request attempt).
Proof.
  induction fuel as [|fuel IH]; intros attempt; cbn [attemptLoop];
    [by apply yields_ret, rounds_nil|].
  case_bool_decide as Hle; [|by apply yields_ret, rounds_nil].
  eapply yields_mono.
  - apply (rounds_tryCatch request 1 (Datatypes.S MAX_RETRIES - Datatypes.S attempt)
             0 (MAX_RETRIES - attempt)).
    + unfold attemptOnce.
      eapply yields_mono;
        [|intros events H; eapply rounds_mono; [exact H|..]; reflexivity].
      apply (rounds_bind request 0 1 0 0); [apply rounds_throwIfAborted|]. intros _.
      eapply yields_mono;
        [|intros events H; eapply rounds_mono; [exact H|..]; reflexivity].
      apply (rounds_bind request 1 0 0 0); [apply rounds_generateContent|].
      intros response. destruct (readResponse response);
        [by apply yields_ret, rounds_nil|by apply yields_throw, rounds_nil].
    + intros e. apply rounds_afterError, IH.
  - intros events H. eapply rounds_mono; [exact H|unfold MAX_RETRIES in *; lia..].
Qed.

Lemma rounds_tryModel (base64Data mimeType prompt model : string)
    (modelFailures : list (string * ModelFailure)) :
  yields (rounds (mkRequest model base64Data mimeType prompt) 4 4)
    (tryModel provider options base64Data mimeType prompt modelFailures model).
Proof.
  set (request := mkRequest model base64Data mimeType prompt).
  assert (∀ a : string + list (string * ModelFailure),
            yields (rounds request 0 1)
              (bind (throwIfAborted options) (fun _ =>
                 bind (sleep (Millis 250)) (fun _ =>
                   bind (throwIfAborted options) (fun _ => ret a))))) as Hpause.
  { intros a.
    apply (rounds_bind request 0 0 0 1); [apply rounds_throwIfAborted|]. intros _.
    apply (rounds_bind request 0 0 1 0); [apply rounds_sleep; cbn; set_solver|].
    intros _.
    apply (rounds_bind request 0 0 0 0); [apply rounds_throwIfAborted|]. intros _.
    by apply yields_ret, rounds_nil. }
  unfold tryModel.
  apply (rounds_tryCatch request 4 0 4 0).
  - apply (rounds_bind request 4 0 3 1); [apply (rounds_attemptLoop _ request 0)|].
    intros [ok url]. destruct ok; [destruct url as [url|]; [destruct (truthy url)|]|];
      first [by apply yields_ret, rounds_nil | apply Hpause].
  - intros e. destruct e; first [by apply yields_ret, rounds_nil
                                | by apply yields_throw, rounds_nil].
Qed.

Lemma attempts_nil (mk : string → Request) (models : list string) :
  attempts mk models [].
Proof.
  split_and!; [|cbn; lia|constructor].
  exists (replicate (length models) 0). split_and!.
  - by rewrite length_replicate.
  - apply Forall_replicate. lia.
  - induction models as [|model rest IH]; [done|]. cbn. exact IH.
Qed.

Lemma attempts_cons (mk : string → Request) (model : string) (rest : list string)
    events events' :
  rounds (mk model) 4 4 events → attempts mk rest events' →
  attempts mk (model :: rest) (events ++ events').
Proof.
  intros ((n & Hn & Hr) & Hs & Hd) ((counts & Hlen & Hle & Hreq) & Hs' & Hd').
  split_and!.
  - exists (n :: counts). split_and!.
    + cbn. by rewrite Hlen.
    + by constructor.
    + rewrite requestsOf_app, Hr, Hreq. done.
  - rewrite sleepsOf_app, length_app. cbn [length]. lia.
  - rewrite sleepsOf_app. by apply Forall_app.
Qed.

Lemma attempts_tryModels (base64Data mimeType prompt : string) (models : list string) :
  ∀ modelFailures : list (string * ModelFailure),
    yields (attempts (fun model => mkRequest model base64Data mimeType prompt) models)
      (tryModels provider options base64Data mimeType prompt models modelFailures).
Proof.
  set (mk := fun model => mkRequest model base64Data mimeType prompt).
  induction models as [|model rest IH]; intros modelFailures; cbn [tryModels].
  - apply yields_throw, attempts_nil.
  - apply (yields_bind (rounds (mk model) 4 4) (attempts mk rest)
             (attempts mk (model :: rest))).
    + apply rounds_tryModel.
    + intros [url|failures]; [apply yields_ret, attempts_nil|apply IH].
    + intros events H. rewrite <- (app_nil_r events).
      apply attempts_cons; [done|apply attempts_nil].
    + intros events events'. apply attempts_cons.
Qed.

(** What one call of [editImage] adds to the trace. *)
Lemma attempts_editImage (url prompt : string) :
  yields (fun events =>
            events = []
            ∨ ∃ base64Data mimeType,
                parseDataUrl url = Some (base64Data, mimeType)
                ∧ attempts (fun model => mkRequest model base64Data mimeType prompt)
                    MODEL_PREFERENCES events)
    (editImage provider url prompt options).
Proof.
  intros w. unfold editImage. destruct (ai w); [|exists []; split; [apply adds_refl|by left]].
  unfold bind.
  destruct (throwIfAborted_cases options w) as [-> | ->];
    [|exists []; split; [apply adds_refl|by left]].
  destruct (parseDataUrl url) as [[base64Data mimeType]|];
    [|exists []; split; [apply adds_refl|by left]].
  destruct (attempts_tryModels base64Data mimeType prompt MODEL_PREFERENCES [] w)
    as (events & Hadds & Hattempts).
  exists events. split; [done|]. right. by exists base64Data, mimeType.
Qed.

End Effort.

Lemma attempts_calls (mk : string → Request) (models : list string)
    (events : list Event) :
  attempts mk models events → length (requestsOf events) ≤ 4 * length models.
Proof.
  intros ((counts & Hlen & Hle & ->) & _). clear events.
  revert counts Hlen Hle. induction models as [|model rest IH];
    intros [|n counts] Hlen Hle; cbn in Hlen |- *; try lia.
  apply Forall_cons in Hle as [Hn Hle].
  rewrite length_app, length_replicate.
  specialize (IH counts ltac:(lia) Hle). cbn in IH. lia.
Qed.

Lemma editImage_spends {S : Type} (provider : nat → Request → CallOutcome)
    (options : Options S) (url prompt : string) (w : World S) :
  ∃ events,
    adds events w (editImage provider url prompt options w).2
    ∧ length (requestsOf events) ≤ 16
    ∧ length (sleepsOf events) ≤ 16.
Proof.
  destruct (attempts_editImage provider options url prompt w)
    as (events & Hadds & Hshape).
  exists events. split; [done|].
  destruct Hshape as [->|(base64Data & mimeType & _ & Hattempts)]; [cbn; lia|].
  pose proof (attempts_calls _ _ _ Hattempts) as Hcalls.
  destruct Hattempts as (_ & Hsleeps & _). cbn in Hcalls, Hsleeps. lia.
Qed.

(** X10: one call of [editImage] makes at most 16 calls of the backend (four
    for each of the four models) and is suspended at most 32 times,
    whatever the backend answers; it leaves the client as it is, and the
    trace records every call and every sleep. *)
Theorem editImage_bounded {S : Type} (provider : nat → Request → CallOutcome)
    (options : Options S) (url prompt : string) (w : World S) :
  ∃ events,
    adds events w (editImage provider url prompt options w).2
    ∧ length (requestsOf events) ≤ 16
    ∧ length (sleepsOf events) ≤ 16
    ∧ calls (editImage provider url prompt options w).2 ≤ calls w + 16
    ∧ ticks (editImage provider url prompt options w).2 ≤ ticks w + 32.
Proof.
  destruct (editImage_spends provider options url prompt w)
    as (events & Hadds & Hr & Hs).
  exists events. split; [done|].
  destruct Hadds as [_ _ Hc Ht]. split_and!; lia.
Qed.

(** X11: the calls of one [editImage] go through the models in the order of
    [MODEL_PREFERENCES], at most four calls for each, and every request
    carries the data and the mime type of the data URL and the prompt. *)
Theorem editImage_requests_in_order {S : Type} (provider : nat → Request → CallOutcome)
    (options : Options S) (url prompt base64Data mimeType : string) (w : World S) :
  parseDataUrl url = Some (base64Data, mimeType) →
  ∃ events counts,
    trace (editImage provider url prompt options w).2 = trace w ++ events
    ∧ length counts = length MODEL_PREFERENCES
    ∧ Forall (fun n => n ≤ 4) counts
    ∧ requestsOf events
      = concat (zip_with
                  (fun n model => replicate n (mkRequest model base64Data mimeType prompt))
                  counts MODEL_PREFERENCES).
Proof.
  intros Hparse.
  destruct (attempts_editImage provider options url prompt w)
    as (events & Hadds & Hshape).
  exists events.
  assert (attempts (fun model => mkRequest model base64Data mimeType prompt)
            MODEL_PREFERENCES events) as ((counts & Hlen & Hle & Hreq) & _).
  { destruct Hshape as [->|(base64Data' & mimeType' & Hparse' & Hattempts)];
      [apply attempts_nil|]. by simplify_eq. }
  exists counts. split_and!; [apply Hadds|done..].
Qed.

Lemma editImage_requests_in_order_witness :
  let provider := fun (n : nat) (_ : Request) =>
    if bool_decide (n < 4) then Fails (Error "429") else App.imageResponse "OUT" in
  let w := App.freshWorld [] [] [] in
  ∃ events counts,
    trace (editImage provider "data:image/png;base64,AAAA" "make it blue"
             (mkOptions None None : Options App.AppState) w).2 = trace w ++ events
    ∧ length counts = length MODEL_PREFERENCES
    ∧ Forall (fun n => n ≤ 4) counts
    ∧ requestsOf events
      = concat (zip_with
                  (fun n model => replicate n (mkRequest model "AAAA" "image/png" "make it blue"))
                  counts MODEL_PREFERENCES).
Proof.
  intros provider w.
  apply (editImage_requests_in_order provider (mkOptions None None : Options App.AppState)
           "data:image/png;base64,AAAA" "make it blue" "AAAA" "image/png" w).
  reflexivity.
Defined.


(** *** What the service throws *)

Section Thrown.
Context {S : Type} (provider : nat → Request → CallOutcome) (options : Options S).

Lemma throwsOnly_ret {A} (P : Thrown → Prop) (a : A) : throwsOnly P (ret (S:=S) a).
Proof. by intros w e w'. Qed.

Lemma throwsOnly_throw {A} (P : Thrown → Prop) (e : Thrown) :
  P e → throwsOnly P (throw (S:=S) (A:=A) e).
Proof. intros HP w e' w' [= <- _]. done. Qed.

Lemma throwsOnly_bind {A B} (P : Thrown → Prop) (m : M S A) (k : A → M S B) :
  throwsOnly P m → (∀ a, throwsOnly P (k a)) → throwsOnly P (bind m k).
Proof.
  intros Hm Hk w e w'. unfold bind. destruct (m w) as [[a|e'] w1] eqn:E.
  - apply Hk.
  - intros [= <- _]. by eapply Hm.
Qed.

Lemma throwsOnly_tryCatch {A} (P Q : Thrown → Prop) (m : M S A)
    (handler : Thrown → M S A) :
  throwsOnly P m → (∀ e, P e → throwsOnly Q (handler e)) →
  throwsOnly Q (tryCatch m handler).
Proof.
  intros Hm Hh w e w'. unfold tryCatch. destruct (m w) as [[a|e'] w1] eqn:E; [done|].
  apply Hh. by eapply Hm.
Qed.

Lemma returnsOnly_bind {A B} (Q : B → Prop) (m : M S A) (k : A → M S B) :
  (∀ a, returnsOnly Q (k a)) → returnsOnly Q (bind m k).
Proof.
  intros Hk w b w'. unfold bind. destruct (m w) as [[a|e'] w1]; [apply Hk|done].
Qed.

Lemma throwsOnly_throwIfAborted (P : Thrown → Prop) :
  P (Error "Request aborted") → throwsOnly P (throwIfAborted options).
Proof.
  intros HP w e w'.
  destruct (throwIfAborted_cases options w) as [-> | ->]; [done|by intros [= <- _]].
Qed.

Lemma fatalError_attemptError (e : Thrown) :
  isQuota (messageOf e) = false → attemptError (fatalError e).
Proof.
  intros Hq. destruct e as [m|m details|t]; cbn [fatalError messageOf] in *.
  - right. left. by exists m.
  - right. left. by exists m.
  - right. by right.
Qed.

Lemma throwsOnly_afterError (model : string) (attempt : nat) (e : Thrown)
    (continue : M S AttemptResult) :
  throwsOnly attemptError continue →
  throwsOnly attemptError (afterError options model attempt e continue).
Proof.
  intros Hcont. unfold afterError.
  destruct (isQuota (messageOf e)) eqn:Hq; cbn [andb];
    [case_bool_decide|]; [|apply throwsOnly_ret
                          |by apply throwsOnly_throw, fatalError_attemptError].
  apply throwsOnly_bind; [by intros w e' w'|]. intros _.
  apply throwsOnly_bind; [apply throwsOnly_throwIfAborted; by left|]. intros _.
  apply throwsOnly_bind; [by intros w e' w'|]. intros _.
  apply throwsOnly_bind; [apply throwsOnly_throwIfAborted; by left|]. intros _.
  exact Hcont.
Qed.

Lemma throwsOnly_attemptLoop (fuel : nat) (request : Request) :
  ∀ attempt : nat,
    throwsOnly attemptError (attemptLoop provider fuel options request attempt).
Proof.
  induction fuel as [|fuel IH]; intros attempt; cbn [attemptLoop];
    [apply throwsOnly_ret|].
  case_bool_decide; [|apply throwsOnly_ret].
  apply (throwsOnly_tryCatch (fun _ => True)); [by intros w e w'|].
  intros e _. apply throwsOnly_afterError, IH.
Qed.

(** The [try] block of one round of the loop over the models. *)
Lemma tryModel_body (base64Data mimeType prompt model : string)
    (modelFailures : list (string * ModelFailure))
    (body : M S (string + list (string * ModelFailure))) :
  body = bind (attemptGenerate provider model base64Data mimeType prompt options)
           (fun attempt =>
              match attempt with
              | mkAttempt true (Some url) =>
                  if truthy url then ret (inl url)
                  else
                    bind (throwIfAborted options) (fun _ =>
                      bind (sleep (Millis 250)) (fun _ =>
                        bind (throwIfAborted options) (fun _ =>
                          ret (inr (setKey model noResultEntry modelFailures)))))
              | _ =>
                  bind (throwIfAborted options) (fun _ =>
                    bind (sleep (Millis 250)) (fun _ =>
                      bind (throwIfAborted options) (fun _ =>
                        ret (inr (setKey model noResultEntry modelFailures)))))
              end) →
  throwsOnly attemptError body
  ∧ returnsOnly (fun r => ∀ failures, r = inr failures →
                   failures = setKey model noResultEntry modelFailures) body.
Proof.
  intros ->.
  assert (throwsOnly attemptError
            (bind (throwIfAborted options) (fun _ =>
               bind (sleep (Millis 250)) (fun _ =>
                 bind (throwIfAborted options) (fun _ =>
                   ret (inr (B:=list (string * ModelFailure)) (A:=string)
                          (setKey model noResultEntry modelFailures))))))) as Hpause.
  { apply throwsOnly_bind; [apply throwsOnly_throwIfAborted; by left|]. intros _.
    apply throwsOnly_bind; [by intros w e' w'|]. intros _.
    apply throwsOnly_bind; [apply throwsOnly_throwIfAborted; by left|]. intros _.
    apply throwsOnly_ret. }
  assert (returnsOnly (fun r => ∀ failures, r = inr failures →
                         failures = setKey model noResultEntry modelFailures)
            (bind (throwIfAborted options) (fun _ =>
               bind (sleep (Millis 250)) (fun _ =>
                 bind (throwIfAborted options) (fun _ =>
                   ret (inr (B:=list (string * ModelFailure)) (A:=string)
                          (setKey model noResultEntry modelFailures))))))) as Hreturn.
  { do 3 (apply returnsOnly_bind; intros _).
    intros w a w' [= <- _] failures [= <-]. done. }
  split.
  - apply throwsOnly_bind; [apply throwsOnly_attemptLoop|].
    intros [ok url]. destruct ok; [destruct url as [url|]; [destruct (truthy url)|]|];
      first [apply throwsOnly_ret | exact Hpause].
  - apply returnsOnly_bind.
    intros [ok url]. destruct ok; [destruct url as [url|]; [destruct (truthy url)|]|];
      first [exact Hreturn | by intros w a w' [= <- _] failures].
Qed.

(** A model that gave no image leaves the entry
    [quota_or_rate_limit_or_no_result]: the [try] block never throws a
    [QuotaError], so the entry [quota] of the [catch] block is never
    written. *)
Lemma tryModel_outcome (base64Data mimeType prompt model : string)
    (modelFailures : list (string * ModelFailure)) :
  throwsOnly attemptError
    (tryModel provider options base64Data mimeType prompt modelFailures model)
  ∧ returnsOnly (fun r => ∀ failures, r = inr failures →
                   failures = setKey model noResultEntry modelFailures)
      (tryModel provider options base64Data mimeType prompt modelFailures model).
Proof.
  destruct (tryModel_body base64Data mimeType prompt model modelFailures _ eq_refl)
    as [Hthrows Hreturns].
  split.
  - eapply throwsOnly_tryCatch; [exact Hthrows|].
    intros e He. destruct e as [m|m details|t].
    + by apply throwsOnly_throw.
    + destruct He as [?|[(? & _ & ?)|?]]; done.
    + by apply throwsOnly_throw.
  - intros w r w'. unfold tryModel, tryCatch.
    match goal with |- context [bind ?m ?k w] => destruct (bind m k w) as [[r'|e] w1] eqn:E end.
    + intros [= <- _]. by eapply Hreturns.
    + apply Hthrows in E. destruct e as [m|m details|t]; [done| |done].
      destruct E as [?|[(? & _ & ?)|?]]; done.
Qed.

Lemma throwsOnly_tryModels (base64Data mimeType prompt : string) (models : list string) :
  ∀ modelFailures : list (string * ModelFailure),
    throwsOnly
      (fun e => attemptError e
                ∨ e = QuotaError quotaMessage
                        (foldl (fun failures model => setKey model noResultEntry failures)
                           modelFailures models))
      (tryModels provider options base64Data mimeType prompt models modelFailures).
Proof.
  induction models as [|model rest IH]; intros modelFailures; cbn [tryModels foldl].
  - apply throwsOnly_throw. by right.
  - destruct (tryModel_outcome base64Data mimeType prompt model modelFailures)
      as [Hthrows Hreturns].
    intros w e w'. unfold bind.
    destruct (tryModel _ _ _ _ _ _ _ w) as [[[url|failures]|e'] w1] eqn:E.
    + done.
    + rewrite (Hreturns _ _ _ E failures eq_refl). apply IH.
    + intros [= <- _]. left. by eapply Hthrows.
Qed.

End Thrown.

(** X13: whatever the backend does, [editImage] throws one of these: the
    missing-key error, the cancellation, the data-URL error, the wrapped
    error of a call or a response whose message holds no quota marker, or
    one [QuotaError] that names each of the four models with the reason
    [quota_or_rate_limit_or_no_result]. *)
Theorem editImage_errors {S : Type} (provider : nat → Request → CallOutcome)
    (options : Options S) (url prompt : string) (w w' : World S) (e : Thrown) :
  editImage provider url prompt options w = (Throw e, w') → editImageError e.
Proof.
  unfold editImage. destruct (ai w); [|intros [= <- _]; by left].
  unfold bind.
  destruct (throwIfAborted_cases options w) as [-> | ->];
    [|intros [= <- _]; right; right; left; by left].
  destruct (parseDataUrl url) as [[base64Data mimeType]|];
    [|intros [= <- _]; right; by left].
  intros Hrun.
  apply (throwsOnly_tryModels provider options base64Data mimeType prompt
           MODEL_PREFERENCES []) in Hrun as [He| ->].
  - right. right. by left.
  - right. right. by right.
Qed.

Lemma editImage_errors_witness :
  editImageError
    (QuotaError quotaMessage ((fun model => (model, noResultEntry)) <$> MODEL_PREFERENCES)).
Proof.
  set (provider := fun (_ : nat) (_ : Request) => Fails (Error "429 quota")).
  set (w := App.freshWorld [] [] []).
  apply (editImage_errors provider (mkOptions None None)
           "data:image/png;base64,AAAA" "p" w
           (editImage provider "data:image/png;base64,AAAA" "p" (mkOptions None None) w).2).
  by vm_compute.
Defined.

(** *** What [editImage] returns *)

Section Returned.
Context {S : Type} (provider : nat → Request → CallOutcome) (options : Options S).

Lemma returnsIn_bind {A B} (Q : B → World S → Prop) (m : M S A) (k : A → M S B) :
  (∀ a, returnsIn Q (k a)) → returnsIn Q (bind m k).
Proof.
  intros Hk w b w'. unfold bind. destruct (m w) as [[a|e'] w1]; [apply Hk|done].
Qed.

Lemma returnsIn_tryCatch {A} (Q : A → World S → Prop) (m : M S A)
    (handler : Thrown → M S A) :
  returnsIn Q m → (∀ e, returnsIn Q (handler e)) → returnsIn Q (tryCatch m handler).
Proof.
  intros Hm Hh w a w'. unfold tryCatch. destruct (m w) as [[a'|e] w1] eqn:E.
  - intros [= <- <-]. by eapply Hm.
  - apply Hh.
Qed.

Lemma returnsIn_ret {A} (Q : A → World S → Prop) (a : A) :
  (∀ w, Q a w) → returnsIn Q (ret a).
Proof. intros HQ w a' w' [= <- <-]. apply HQ. Qed.

Lemma returnsIn_throw {A} (Q : A → World S → Prop) (e : Thrown) :
  returnsIn Q (throw e).
Proof. by intros w a w'. Qed.

Lemma returnsIn_attemptOnce (request : Request) :
  returnsIn (fromAnswer provider request) (attemptOnce provider options request).
Proof.
  unfold attemptOnce. apply returnsIn_bind. intros _.
  intros w r w'. unfold bind, generateContent.
  destruct (provider (calls w) request) as [response|error] eqn:Hcall; [|done].
  destruct (readResponse response) as [url|e] eqn:Hread; [|done].
  intros [= <- <-] url' [= <-].
  exists (calls w), response. split_and!; [done| |done..].
  cbn [called trace]. by rewrite last_snoc.
Qed.

Lemma returnsIn_afterError (request : Request) (attempt : nat) (e : Thrown)
    (continue : M S AttemptResult) :
  returnsIn (fromAnswer provider request) continue →
  returnsIn (fromAnswer provider request) (afterError options (model request) attempt e continue).
Proof.
  intros Hcont. unfold afterError.
  destruct (isQuota (messageOf e)); cbn [andb];
    [case_bool_decide|]; [|by apply returnsIn_ret|apply returnsIn_throw].
  by do 4 (apply returnsIn_bind; intros _).
Qed.

Lemma returnsIn_attemptLoop (fuel : nat) (request : Request) :
  ∀ attempt : nat,
    returnsIn (fromAnswer provider request) (attemptLoop provider fuel options request attempt).
Proof.
  induction fuel as [|fuel IH]; intros attempt; cbn [attemptLoop];
    [by apply returnsIn_ret|].
  case_bool_decide; [|by apply returnsIn_ret].
  apply returnsIn_tryCatch; [apply returnsIn_attemptOnce|].
  intros e. apply returnsIn_afterError, IH.
Qed.

Lemma returnsIn_tryModel (base64Data mimeType prompt model : string)
    (modelFailures : list (string * ModelFailure)) :
  returnsIn (fun r w => ∀ url, r = inl url →
               answeredBy provider (mkRequest model base64Data mimeType prompt) url w)
    (tryModel provider options base64Data mimeType prompt modelFailures model).
Proof.
  unfold tryModel. apply returnsIn_tryCatch.
  - intros w r w'. unfold bind at 1.
    destruct (attemptGenerate _ _ _ _ _ _ w) as [[attempt|e] w1] eqn:Hattempt; [|done].
    apply returnsIn_attemptLoop in Hattempt.
    destruct attempt as [[] [result|]].
    1: destruct (truthy result).
    1: { intros [= <- <-] url [= <-]. by apply Hattempt. }
    all: revert w1 r w' Hattempt; intros w1 r w' _.
    all: revert w1 r w'; change (returnsIn (fun r w => ∀ url, r = inl url →
               answeredBy provider (mkRequest model base64Data mimeType prompt) url w)
               (bind (throwIfAborted options) (fun _ =>
                  bind (sleep (Millis 250)) (fun _ =>
                    bind (throwIfAborted options) (fun _ =>
                      ret (inr (setKey model
                             (mkFailure "quota_or_rate_limit_or_no_result" None)
                             modelFailures))))))).
    all: do 3 (apply returnsIn_bind; intros _); by apply returnsIn_ret.
  - intros [m|m details|t]; [apply returnsIn_throw|by apply returnsIn_ret|apply returnsIn_throw].
Qed.

Lemma returnsIn_tryModels (base64Data mimeType prompt : string) (models : list string) :
  ∀ modelFailures : list (string * ModelFailure),
    returnsIn (fun url w => ∃ model, model ∈ models
                 ∧ answeredBy provider (mkRequest model base64Data mimeType prompt) url w)
      (tryModels provider options base64Data mimeType prompt models modelFailures).
Proof.
  induction models as [|model rest IH]; intros modelFailures; cbn [tryModels].
  - apply returnsIn_throw.
  - intros w url w'. unfold bind.
    destruct (tryModel _ _ _ _ _ _ _ w) as [[[url'|failures]|e] w1] eqn:E; [| |done].
    + intros [= <- <-]. exists model. split; [apply list_elem_of_here|].
      by apply (returnsIn_tryModel _ _ _ _ _ _ _ _ E).
    + intros (model' & Hin & Hans)%IH. exists model'. split; [by apply list_elem_of_further|done].
Qed.

End Returned.

(** The text that [readResponse] returns is a data URL. *)
Lemma readResponse_form (response : GenerateContentResponse) (url : string) :
  readResponse response = Ok url →
  ∃ mime base64, url = "data:" +:+ mime +:+ ";base64," +:+ base64.
Proof.
  unfold readResponse. repeat case_match; try done.
  all: intros [= <-]; by eexists _, _.
Qed.

Lemma editImage_answer {S : Type} (provider : nat → Request → CallOutcome)
    (options : Options S) (url prompt result : string) (w w' : World S) :
  editImage provider url prompt options w = (Ok result, w') →
  ∃ base64Data mimeType model,
    parseDataUrl url = Some (base64Data, mimeType)
    ∧ model ∈ MODEL_PREFERENCES
    ∧ answeredBy provider (mkRequest model base64Data mimeType prompt) result w'.
Proof.
  unfold editImage. destruct (ai w); [|done].
  unfold bind.
  destruct (throwIfAborted_cases options w) as [-> | ->]; [|done].
  destruct (parseDataUrl url) as [[base64Data mimeType]|]; [|done].
  intros (model & Hin & Hans)%returnsIn_tryModels.
  by exists base64Data, mimeType, model.
Qed.

(** X14: an image that [editImage] returns is what [readResponse] makes of
    the response to the last call: that call carried the data and the
    type of the image passed in, the prompt and one of the four models,
    nothing was called or slept after it, and the image is a text
    [data:<type>;base64,<data>]. *)
Theorem editImage_returns {S : Type} (provider : nat → Request → CallOutcome)
    (options : Options S) (url prompt result : string) (w w' : World S) :
  editImage provider url prompt options w = (Ok result, w') →
  ∃ base64Data mimeType model n response,
    parseDataUrl url = Some (base64Data, mimeType)
    ∧ model ∈ MODEL_PREFERENCES
    ∧ calls w' = Datatypes.S n
    ∧ last (trace w') = Some (EvGenerate (mkRequest model base64Data mimeType prompt))
    ∧ provider n (mkRequest model base64Data mimeType prompt) = Responds response
    ∧ readResponse response = Ok result
    ∧ ∃ mime base64, result = "data:" +:+ mime +:+ ";base64," +:+ base64.
Proof.
  intros (base64Data & mimeType & model & Hparse & Hin & n & response
          & Hcalls & Hlast & Hcall & Hread)%editImage_answer.
  exists base64Data, mimeType, model, n, response.
  split_and!; [done..|]. by eapply readResponse_form.
Qed.

Lemma editImage_returns_witness :
  let provider := fun (_ : nat) (_ : Request) => App.imageResponse "OUT" in
  let w := App.freshWorld [] [] [] in
  let url := "data:image/png;base64,AAAA" in
  let result := "data:image/png;base64,OUT" in
  let w' := (editImage provider url "p" (mkOptions None None) w).2 in
  editImage provider url "p" (mkOptions None None) w = (Ok result, w')
  ∧ ∃ base64Data mimeType model n response,
      parseDataUrl url = Some (base64Data, mimeType)
      ∧ model ∈ MODEL_PREFERENCES
      ∧ calls w' = Datatypes.S n
      ∧ last (trace w') = Some (EvGenerate (mkRequest model base64Data mimeType "p"))
      ∧ provider n (mkRequest model base64Data mimeType "p") = Responds response
      ∧ readResponse response = Ok result
      ∧ ∃ mime base64, result = "data:" +:+ mime +:+ ";base64," +:+ base64.
Proof.
  intros provider w url result w'. split; [by vm_compute|].
  apply (editImage_returns provider (mkOptions None None) url "p" result w w').
  by vm_compute.
Defined.

(** *** What happens at each call *)

Section Served.
Context {S : Type} (provider : nat → Request → CallOutcome) (options : Options S).
Implicit Types (w : World S) (events : list Event).

Lemma adds_called (request : Request) w : adds [EvGenerate request] w (called request w).
Proof. split; cbn; [done..|lia|lia]. Qed.

Lemma adds_slept (delay : Delay) w : adds [EvSleep delay] w (suspend (EvSleep delay) w).
Proof. split; cbn; [done..|lia|lia]. Qed.

Lemma adds_notified (attempt : nat) (delay : Delay) (model : string) w :
  ∃ notice, adds notice w (notified options attempt delay model w)
            ∧ requestsOf notice = [] ∧ sleepsOf notice = [].
Proof.
  unfold notified. destruct (onRetry options) as [callback|].
  - exists [EvRetry attempt delay model]. split_and!; [|done..].
    split; cbn; [done..|lia|lia].
  - exists []. split_and!; [apply adds_refl|done..].
Qed.

Lemma throwIfAborted_loud w :
  throwIfAborted options w = (Throw (Error "Request aborted"), w) →
  ¬ quietAt options (ticks w).
Proof.
  intros Hthrown Hquiet.
  by rewrite (throwIfAborted_quiet options w (ticks w)) in Hthrown.
Qed.

Lemma quietThrough_app w w1 events events' :
  adds events w w1 → quietThrough options w (events ++ events') →
  quietThrough options w events ∧ quietThrough options w1 events'.
Proof.
  intros [_ _ _ Hticks]. unfold quietThrough.
  rewrite requestsOf_app, sleepsOf_app, !length_app, Hticks. intros Hquiet.
  split; (eapply quietAt_le; [exact Hquiet|lia]).
Qed.

(** One round of the loop. *)
Lemma attemptLoop_cases (fuel attempt : nat) (request : Request) w :
  attempt ≤ MAX_RETRIES →
  (throwIfAborted options w = (Throw (Error "Request aborted"), w)
   ∧ attemptLoop provider (Datatypes.S fuel) options request attempt w
     = (Throw (fatalError (Error "Request aborted")), w))
  ∨ (throwIfAborted options w = (Ok tt, w)
     ∧ attemptLoop provider (Datatypes.S fuel) options request attempt w
       = match provider (calls w) request with
         | Responds response =>
             match readResponse response with
             | Ok url => (Ok (mkAttempt true (Some url)), called request w)
             | Throw e =>
                 afterError options (model request) (Datatypes.S attempt) e
                   (attemptLoop provider fuel options request (Datatypes.S attempt))
                   (called request w)
             end
         | Fails e =>
             afterError options (model request) (Datatypes.S attempt) e
               (attemptLoop provider fuel options request (Datatypes.S attempt))
               (called request w)
         end).
Proof.
  intros Hle.
  destruct (throwIfAborted_cases options w) as [Hok|Hthrown]; [right|left];
    (split; [done|]); cbn [attemptLoop]; rewrite bool_decide_true by done;
    unfold tryCatch, attemptOnce; unfold bind at 1.
  - rewrite Hok. unfold bind, generateContent.
    destruct (provider (calls w) request) as [response|e]; [|done].
    by destruct (readResponse response).
  - rewrite Hthrown. by apply afterError_fatal.
Qed.

(** The [catch] block. *)
Lemma afterError_cases (model : string) (attempt : nat) (e : Thrown)
    (continue : M S AttemptResult) w :
  isQuota (messageOf e) = true → attempt ≤ MAX_RETRIES →
  let delay := backoff (messageOf e) attempt in
  let wn := notified options attempt delay model w in
  (afterError options model attempt e continue w = (Throw (Error "Request aborted"), wn)
   ∧ ¬ quietAt options (ticks w))
  ∨ (afterError options model attempt e continue w
     = (Throw (Error "Request aborted"), suspend (EvSleep delay) wn)
     ∧ ¬ quietAt options (Datatypes.S (ticks w)))
  ∨ afterError options model attempt e continue w = continue (suspend (EvSleep delay) wn).
Proof.
  intros Hq Hle delay wn.
  assert (ticks wn = ticks w) as Hticks by apply ticks_notified.
  assert (afterError options model attempt e continue w
          = match throwIfAborted options wn with
            | (Ok _, _) =>
                match throwIfAborted options (suspend (EvSleep delay) wn) with
                | (Ok _, w') => continue w'
                | (Throw e', w') => (Throw e', w')
                end
            | (Throw e', w') => (Throw e', w')
            end) as ->.
  { unfold afterError. rewrite Hq, bool_decide_true by done. cbn [andb].
    unfold bind, notifyRetry, sleep. fold delay. fold wn.
    destruct (throwIfAborted_cases options wn) as [-> | ->]; done. }
  destruct (throwIfAborted_cases options wn) as [Hok|Hthrown].
  - rewrite Hok.
    destruct (throwIfAborted_cases options (suspend (EvSleep delay) wn)) as [Hok'|Hthrown'].
    + rewrite Hok'. by right; right.
    + rewrite Hthrown'. right. left. split; [done|].
      apply throwIfAborted_loud in Hthrown'. cbn [suspend ticks] in Hthrown'.
      by rewrite Hticks in Hthrown'.
  - rewrite Hthrown. left. split; [done|].
    apply throwIfAborted_loud in Hthrown. by rewrite Hticks in Hthrown.
Qed.

Lemma looped_attemptLoop (fuel : nat) (request : Request) :
  ∀ (attempt : nat) w,
    Datatypes.S MAX_RETRIES ≤ fuel + attempt →
    ∃ events,
      adds events w (attemptLoop provider fuel options request attempt w).2
      ∧ looped provider options request attempt w events
          (attemptLoop provider fuel options request attempt w).1
      ∧ (quietAt options (ticks w) → attempt ≤ MAX_RETRIES → requestsOf events ≠ []).
Proof.
  induction fuel as [|fuel IH]; intros attempt w Hfuel.
  { exists []. split_and!; [apply adds_refl| |cbn in Hfuel; lia].
    exists 0. split_and!; [done|lia|done]. }
  destruct (decide (attempt ≤ MAX_RETRIES)) as [Hle|Hgt].
  2:{ cbn [attemptLoop]. rewrite bool_decide_false by done.
      exists []. split_and!; [apply adds_refl| |done].
      exists 0. split_and!; [done|lia|done]. }
  destruct (attemptLoop_cases fuel attempt request w Hle) as [[Hloud ->]|[Hquiet ->]].
  { exists []. split_and!; [apply adds_refl| |].
    - exists 0. split_and!; [done|lia|done].
    - intros Hquiet. by apply throwIfAborted_loud in Hloud. }
  apply throwIfAborted_ok_quiet in Hquiet.
  (* the round ends with the error [e] *)
  assert (∀ e, failureOf (provider (calls w) request) = Some e →
            ∃ events,
              adds events w
                (afterError options (model request) (Datatypes.S attempt) e
                   (attemptLoop provider fuel options request (Datatypes.S attempt))
                   (called request w)).2
              ∧ looped provider options request attempt w events
                  (afterError options (model request) (Datatypes.S attempt) e
                     (attemptLoop provider fuel options request (Datatypes.S attempt))
                     (called request w)).1
              ∧ requestsOf events ≠ []) as Hfailed.
  { intros e He. destruct (isQuota (messageOf e)) eqn:Hq.
    2:{ rewrite afterError_fatal by done. exists [EvGenerate request].
        split_and!; [apply adds_called| |done]. exists 1. split_and!; [done| |done].
        intros i e' Hi. assert (i = 0) as -> by lia. rewrite Nat.add_0_r, He.
        intros [= <-]. by rewrite Hq. }
    destruct (decide (Datatypes.S attempt ≤ MAX_RETRIES)) as [Hnext|Hlast].
    2:{ rewrite afterError_exhausted by (done || lia). exists [EvGenerate request].
        split_and!; [apply adds_called| |done]. exists 1. split_and!; [done| |done].
        intros i e' Hi. assert (i = 0) as -> by lia. rewrite Nat.add_0_r, He.
        intros [= <-]. rewrite Hq. intros _. right. lia. }
    set (delay := backoff (messageOf e) (Datatypes.S attempt)).
    set (wn := notified options (Datatypes.S attempt) delay (model request)
                 (called request w)).
    destruct (adds_notified (Datatypes.S attempt) delay (model request) (called request w))
      as (notice & Hnotice & Hnr & Hns). fold wn in Hnotice.
    pose proof (adds_trans _ _ _ _ _ (adds_called request w) Hnotice) as Hwn.
    pose proof (adds_trans _ _ _ _ _ Hwn (adds_slept delay wn)) as Hws.
    destruct (afterError_cases (model request) (Datatypes.S attempt) e
                (attemptLoop provider fuel options request (Datatypes.S attempt))
                (called request w) Hq Hnext) as [[-> Hloud] | [[-> Hloud] | -> ]];
      fold delay; fold wn.
    - exists ([EvGenerate request] ++ notice). split_and!; [exact Hwn| |done].
      exists 1. split_and!; [by rewrite requestsOf_app, Hnr| |done].
      intros i e' Hi. assert (i = 0) as -> by lia. rewrite Nat.add_0_r, He.
      intros [= <-]. rewrite Hq. intros Hthrough. exfalso. apply Hloud.
      unfold quietThrough in Hthrough.
      rewrite requestsOf_app, sleepsOf_app, Hnr, Hns in Hthrough.
      cbn in Hthrough. eapply quietAt_le; [exact Hthrough|cbn [called ticks]; lia].
    - exists (([EvGenerate request] ++ notice) ++ [EvSleep delay]).
      split_and!; [exact Hws| |done].
      exists 1. split_and!; [by rewrite !requestsOf_app, Hnr| |done].
      intros i e' Hi. assert (i = 0) as -> by lia. rewrite Nat.add_0_r, He.
      intros [= <-]. rewrite Hq. intros Hthrough. exfalso. apply Hloud.
      unfold quietThrough in Hthrough.
      rewrite !requestsOf_app, !sleepsOf_app, Hnr, Hns in Hthrough.
      cbn in Hthrough. eapply quietAt_le; [exact Hthrough|cbn [called ticks]; lia].
    - set (ws := suspend (EvSleep delay) wn) in *.
      destruct (IH (Datatypes.S attempt) ws ltac:(lia))
        as (events & Hadds & (n & Hreq & Hcalls & Himage) & Hcalled).
      exists ((([EvGenerate request] ++ notice) ++ [EvSleep delay]) ++ events).
      split_and!; [by eapply adds_trans| |done].
      assert (calls ws = Datatypes.S (calls w)) as Hcw.
      { destruct Hws as [_ _ Hc _]. rewrite Hc, !requestsOf_app, Hnr. cbn. lia. }
      assert (ticks ws = ticks w + 2) as Htw.
      { destruct Hws as [_ _ _ Ht]. rewrite Ht, !requestsOf_app, !sleepsOf_app, Hnr, Hns.
        cbn. lia. }
      exists (Datatypes.S n). split_and!.
      + by rewrite !requestsOf_app, Hnr, Hreq.
      + intros [|i] e' Hi.
        * rewrite Nat.add_0_r, He. intros [= <-]. rewrite Hq. intros Hthrough.
          destruct (quietThrough_app _ _ _ _ Hws Hthrough) as [_ Hrest].
          left. destruct n as [|n]; [|lia]. exfalso.
          apply Hcalled; [|done|by rewrite Hreq].
          eapply quietAt_le; [exact Hrest|lia].
        * replace (calls w + Datatypes.S i) with (calls ws + i) by lia.
          intros He'. specialize (Hcalls i e' ltac:(lia) He').
          destruct (isQuota (messageOf e')).
          -- intros Hthrough.
             destruct (quietThrough_app _ _ _ _ Hws Hthrough) as [_ Hrest].
             destruct (Hcalls Hrest); [left|right]; lia.
          -- destruct Hcalls as (Hn & Hlast & Ho). split_and!; [lia| |done].
             by rewrite last_app, Hlast.
      + intros url Ho. destruct (Himage url Ho) as (i & response & Hn & Hlast & Hresp & Hurl).
        exists (Datatypes.S i), response. split_and!; [lia| | |done].
        * by rewrite last_app, Hlast.
        * by replace (calls w + Datatypes.S i) with (calls ws + i) by lia. }
  destruct (provider (calls w) request) as [response|e] eqn:Hcall.
  - destruct (readResponse response) as [url|e] eqn:Hread.
    + exists [EvGenerate request]. split_and!; [apply adds_called| |done].
      exists 1. split_and!; [done| |].
      * intros i e' Hi. assert (i = 0) as -> by lia. rewrite Nat.add_0_r.
        unfold failureOf. by rewrite Hcall, Hread.
      * intros url' [= <-]. exists 0, response. rewrite Nat.add_0_r. by split_and!.
    + destruct (Hfailed e) as (events & ? & ? & ?); [by unfold failureOf; rewrite Hread|].
      by exists events.
  - destruct (Hfailed e) as (events & ? & ? & ?); [done|]. by exists events.
Qed.

(** What comes before a part that returned is kept. *)
Lemma served_app {A B} (shows : A → string → Prop) (shows' : B → string → Prop)
    (allowed : Request → Prop) w w1 events events' (a : A) (o : Outcome B) :
  adds events w w1 →
  served provider options shows allowed w events (Ok a) →
  served provider options shows' allowed w1 events' o →
  served provider options shows' allowed w (events ++ events') o.
Proof.
  intros Hadds [Hreq Hfatal Hretry _] [Hreq' Hfatal' Hretry' Himage'].
  assert (calls w1 = calls w + length (requestsOf events)) as Hcalls by apply Hadds.
  split; unfold failedAt; rewrite ?requestsOf_app.
  - by apply Forall_app.
  - intros i request e [Hi He] Hq. apply lookup_app_Some in Hi as [Hi|[Hle Hi]].
    + by destruct (Hfatal i request e (conj Hi He) Hq) as (_ & _ & ?).
    + destruct (Hfatal' (i - length (requestsOf events)) request e) as (Hn & Hlast & Ho);
        [split; [done|]|done|].
      { by replace (calls w1 + (i - length (requestsOf events))) with (calls w + i) by lia. }
      split_and!; [rewrite length_app; lia|by rewrite last_app, Hlast|done].
  - intros i request e [Hi He] Hq Hquiet.
    destruct (quietThrough_app _ _ _ _ Hadds Hquiet) as [Hquiet1 Hquiet2].
    apply lookup_app_Some in Hi as [Hi|[Hle Hi]].
    + destruct (Hretry i request e (conj Hi He) Hq Hquiet1) as [Hnext|[Hi3 Hrow]].
      * left. by apply lookup_app_l_Some.
      * right. split; [done|]. intros j Hj. by apply lookup_app_l_Some, Hrow.
    + destruct (Hretry' (i - length (requestsOf events)) request e) as [Hnext|[Hi3 Hrow]];
        [split; [done|]|done|done| |].
      { by replace (calls w1 + (i - length (requestsOf events))) with (calls w + i) by lia. }
      * left. rewrite lookup_app_r by lia.
        by replace (Datatypes.S i - length (requestsOf events))
             with (Datatypes.S (i - length (requestsOf events))) by lia.
      * right. split; [lia|]. intros j Hj. rewrite lookup_app_r by lia.
        replace (i - j - length (requestsOf events))
          with (i - length (requestsOf events) - j) by lia.
        by apply Hrow.
  - intros b url Ho Hshows.
    destruct (Himage' b url Ho Hshows) as (i & request & response & Hn & Hi & Hlast & Hresp & Hurl).
    exists (length (requestsOf events) + i), request, response.
    split_and!; [rewrite length_app; lia| |by rewrite last_app, Hlast| |done].
    + rewrite lookup_app_r by lia.
      by replace (length (requestsOf events) + i - length (requestsOf events)) with i by lia.
    + by replace (calls w + (length (requestsOf events) + i)) with (calls w1 + i) by lia.
Qed.

(** Events without a call after a part that returned no image and threw
    nothing. *)
Lemma served_idle {A B} (shows : A → string → Prop) (shows' : B → string → Prop)
    (allowed : Request → Prop) w events events' (a : A) (o : Outcome B) :
  served provider options shows allowed w events (Ok a) →
  requestsOf events' = [] →
  (∀ b url, o = Ok b → ¬ shows' b url) →
  served provider options shows' allowed w (events ++ events') o.
Proof.
  intros [Hreq Hfatal Hretry _] Hnone Hshows.
  split; unfold failedAt; rewrite ?requestsOf_app, ?Hnone, ?app_nil_r.
  - done.
  - intros i request e [Hi He] Hq.
    by destruct (Hfatal i request e (conj Hi He) Hq) as (_ & _ & ?).
  - intros i request e [Hi He] Hq Hquiet. apply (Hretry i request e); [done..|].
    unfold quietThrough in *. rewrite requestsOf_app, sleepsOf_app, !length_app in Hquiet.
    eapply quietAt_le; [exact Hquiet|lia].
  - intros b url Ho Hb. by destruct (Hshows b url Ho).
Qed.

Lemma served_nil {A} (shows : A → string → Prop) (allowed : Request → Prop) w
    (o : Outcome A) :
  (∀ a url, o = Ok a → ¬ shows a url) →
  served provider options shows allowed w [] o.
Proof.
  intros Hshows. split; [constructor|by intros i request e [? _]..|].
  intros a url Ho Ha. by destruct (Hshows a url Ho).
Qed.

Lemma bind_eq {A B} (m : M S A) (k : A → M S B) w :
  bind m k w
  = match m w with
    | (Ok a, w') => k a w'
    | (Throw e, w') => (Throw e, w')
    end.
Proof. done. Qed.

(** The pause between two models. *)
Lemma pause_cases {A} (a : A) w :
  ∃ events,
    adds events w
      (bind (throwIfAborted options) (fun _ =>
         bind (sleep (Millis 250)) (fun _ =>
           bind (throwIfAborted options) (fun _ => ret a))) w).2
    ∧ requestsOf events = []
    ∧ ((bind (throwIfAborted options) (fun _ =>
          bind (sleep (Millis 250)) (fun _ =>
            bind (throwIfAborted options) (fun _ => ret a))) w).1 = Ok a
       ∨ (bind (throwIfAborted options) (fun _ =>
            bind (sleep (Millis 250)) (fun _ =>
              bind (throwIfAborted options) (fun _ => ret a))) w).1
         = Throw (Error "Request aborted")).
Proof.
  unfold bind at 1 4 7.
  destruct (throwIfAborted_cases options w) as [-> | ->].
  - unfold bind at 1 3 5, sleep. unfold bind.
    destruct (throwIfAborted_cases options (suspend (EvSleep (Millis 250)) w)) as [-> | ->];
      exists [EvSleep (Millis 250)]; (split_and!; [apply adds_slept|done|]); auto.
  - exists []. split_and!; [apply adds_refl|done|]. auto.
Qed.

(** The [catch] block of a round of the loop over the models throws again
    what the [try] block threw. *)
Lemma tryModel_unfold (base64Data mimeType prompt model : string)
    (modelFailures : list (string * ModelFailure)) w :
  tryModel provider options base64Data mimeType prompt modelFailures model w
  = bind (attemptGenerate provider model base64Data mimeType prompt options)
      (fun attempt =>
         match attempt with
         | mkAttempt true (Some url) =>
             if truthy url then ret (inl url)
             else
               bind (throwIfAborted options) (fun _ =>
                 bind (sleep (Millis 250)) (fun _ =>
                   bind (throwIfAborted options) (fun _ =>
                     ret (inr (setKey model noResultEntry modelFailures)))))
         | _ =>
             bind (throwIfAborted options) (fun _ =>
               bind (sleep (Millis 250)) (fun _ =>
                 bind (throwIfAborted options) (fun _ =>
                   ret (inr (setKey model noResultEntry modelFailures)))))
         end) w.
Proof.
  destruct (tryModel_body provider options base64Data mimeType prompt model modelFailures
              _ eq_refl) as [Hthrows _].
  unfold tryModel, tryCatch.
  change (mkFailure "quota_or_rate_limit_or_no_result" None) with noResultEntry.
  match goal with |- context [bind ?m ?k w] => destruct (bind m k w) as [[r|e] w1] eqn:E end;
    [done|].
  apply Hthrows in E. destruct e as [m|m details|t]; [done| |done].
  destruct E as [?|[(? & _ & ?)|?]]; done.
Qed.

Lemma served_tryModel (base64Data mimeType prompt model : string)
    (modelFailures : list (string * ModelFailure)) w :
  let m := tryModel provider options base64Data mimeType prompt modelFailures model in
  ∃ events,
    adds events w (m w).2
    ∧ served provider options (fun r url => r = inl url)
        (fun request => request = mkRequest model base64Data mimeType prompt)
        w events (m w).1.
Proof.
  intros m. unfold m. rewrite tryModel_unfold. clear m.
  set (request := mkRequest model base64Data mimeType prompt).
  destruct (looped_attemptLoop (Datatypes.S MAX_RETRIES) request 0 w ltac:(lia))
    as (events & Hadds & (n & Hreq & Hcalls & Himage) & _).
  rewrite bind_eq. unfold attemptGenerate. fold request.
  destruct (attemptLoop provider (Datatypes.S MAX_RETRIES) options request 0 w)
    as [[attempt|e] w1] eqn:Hloop; cbn [fst snd] in *.
  - (* the rounds returned *)
    assert (served provider options
              (fun (r : AttemptResult) url => r = mkAttempt true (Some url))
              (fun r => r = request) w events (Ok attempt)) as Hserved.
    { split; unfold failedAt; rewrite ?Hreq.
      - by apply Forall_replicate.
      - intros i r e [[-> Hi]%lookup_replicate He] Hq.
        specialize (Hcalls i e Hi He). rewrite Hq in Hcalls. by destruct Hcalls as (_ & _ & ?).
      - intros i r e [[-> Hi]%lookup_replicate He] Hq Hquiet.
        specialize (Hcalls i e Hi He). rewrite Hq in Hcalls.
        destruct (Hcalls Hquiet) as [Hnext|Hlast].
        + left. by apply lookup_replicate_2.
        + right. unfold MAX_RETRIES in Hlast. split; [lia|].
          intros j Hj. apply lookup_replicate_2. lia.
      - intros r url [= <-] ->.
        destruct (Himage url eq_refl) as (i & response & Hn & Hlast & Hresp & Hurl).
        exists i, request, response. split_and!; [by rewrite length_replicate| |done..].
        apply lookup_replicate_2. lia. }
    assert (∃ events',
              adds events' w
                (bind (throwIfAborted options) (fun _ =>
                   bind (sleep (Millis 250)) (fun _ =>
                     bind (throwIfAborted options) (fun _ =>
                       ret (inr (A:=string) (setKey model noResultEntry modelFailures)))))
                   w1).2
              ∧ served provider options (fun r url => r = inl url)
                  (fun r => r = request) w events'
                  (bind (throwIfAborted options) (fun _ =>
                     bind (sleep (Millis 250)) (fun _ =>
                       bind (throwIfAborted options) (fun _ =>
                         ret (inr (A:=string) (setKey model noResultEntry modelFailures)))))
                     w1).1) as Hpause.
    { destruct (pause_cases (inr (A:=string) (setKey model noResultEntry modelFailures)) w1)
        as (pause & Hpause & Hnone & Ho).
      exists (events ++ pause). split; [by eapply adds_trans|].
      eapply served_idle; [exact Hserved|exact Hnone|].
      intros b url Hb ->. destruct Ho as [Ho|Ho]; rewrite Ho in Hb; done. }
    destruct attempt as [[] [url|]]; try exact Hpause.
    destruct (truthy url); [|exact Hpause].
    exists events. split; [done|].
    destruct Hserved as [H1 H2 H3 H4]. split; [done| | |].
    + intros i r e Hf Hq. by destruct (H2 i r e Hf Hq) as (_ & _ & ?).
    + done.
    + intros r url' [= <-] [= <-]. by apply (H4 _ url eq_refl).
  - (* the rounds threw *)
    exists events. split; [done|]. split; unfold failedAt; rewrite ?Hreq.
    + by apply Forall_replicate.
    + intros i r e' [[-> Hi]%lookup_replicate He] Hq.
      specialize (Hcalls i e' Hi He). rewrite Hq in Hcalls.
      rewrite length_replicate. destruct Hcalls as (? & ? & [= ->]). by split_and!.
    + intros i r e' [[-> Hi]%lookup_replicate He] Hq Hquiet.
      specialize (Hcalls i e' Hi He). rewrite Hq in Hcalls.
      destruct (Hcalls Hquiet) as [Hnext|Hlast].
      * left. by apply lookup_replicate_2.
      * right. unfold MAX_RETRIES in Hlast. split; [lia|].
        intros j Hj. apply lookup_replicate_2. lia.
    + done.
Qed.

Lemma served_weaken {A} (shows : A → string → Prop) (allowed allowed' : Request → Prop)
    w events (o : Outcome A) :
  (∀ request, allowed request → allowed' request) →
  served provider options shows allowed w events o →
  served provider options shows allowed' w events o.
Proof.
  intros Himpl [H1 H2 H3 H4]. split; [|done..].
  eapply Forall_impl; [exact H1|exact Himpl].
Qed.

Lemma served_tryModels (base64Data mimeType prompt : string) (models : list string) :
  ∀ (modelFailures : list (string * ModelFailure)) w,
    let m := tryModels provider options base64Data mimeType prompt models modelFailures in
    ∃ events,
      adds events w (m w).2
      ∧ served provider options eq
          (fun request => ∃ model, model ∈ models
             ∧ request = mkRequest model base64Data mimeType prompt)
          w events (m w).1.
Proof.
  induction models as [|model rest IH]; intros modelFailures w; cbn [tryModels].
  { exists []. split; [apply adds_refl|]. by apply served_nil. }
  cbv zeta. unfold bind.
  destruct (served_tryModel base64Data mimeType prompt model modelFailures w)
    as (events & Hadds & Hserved). cbv zeta in Hadds, Hserved.
  apply (served_weaken _ _ (fun request => ∃ model', model' ∈ model :: rest
             ∧ request = mkRequest model' base64Data mimeType prompt)) in Hserved.
  2:{ intros request ->. exists model. split; [left|done]. }
  destruct (tryModel provider options base64Data mimeType prompt modelFailures model w)
    as [[[url|failures]|e] w1]; cbn [fst snd] in *.
  - exists events. split; [done|]. destruct Hserved as [H1 H2 H3 H4]. split; [done| |done|].
    + intros i r e Hf Hq. by destruct (H2 i r e Hf Hq) as (_ & _ & ?).
    + intros a url' [= <-] <-. by apply (H4 (inl url)).
  - destruct (IH failures w1) as (events' & Hadds' & Hserved'). cbv zeta in Hadds', Hserved'.
    exists (events ++ events'). split; [by eapply adds_trans|].
    eapply served_app; [exact Hadds|exact Hserved|].
    eapply served_weaken; [|exact Hserved'].
    intros request (model' & Hin & ->). exists model'. split; [by right|done].
  - exists events. split; [done|]. destruct Hserved as [H1 H2 H3 H4]. split; [done| |done|done].
    intros i r e' Hf Hq. destruct (H2 i r e' Hf Hq) as (? & ? & [= ->]). by split_and!.
Qed.

Lemma served_editImage (url prompt : string) w :
  ∃ events,
    adds events w (editImage provider url prompt options w).2
    ∧ served provider options eq
        (fun request => model request ∈ MODEL_PREFERENCES ∧ text request = prompt)
        w events (editImage provider url prompt options w).1.
Proof.
  unfold editImage. destruct (ai w).
  2:{ exists []. split; [apply adds_refl|]. by apply served_nil. }
  unfold bind.
  destruct (throwIfAborted_cases options w) as [-> | ->].
  2:{ exists []. split; [apply adds_refl|]. by apply served_nil. }
  destruct (parseDataUrl url) as [[base64Data mimeType]|].
  2:{ exists []. split; [apply adds_refl|]. by apply served_nil. }
  destruct (served_tryModels base64Data mimeType prompt MODEL_PREFERENCES [] w)
    as (events & Hadds & Hserved).
  exists events. split; [done|].
  eapply served_weaken; [|exact Hserved]. by intros request (model & Hin & ->).
Qed.





End Served.


End GeminiFacts.

(** * Properties of the runner *)

Module AppFacts.
Import Text Scheduler Gemini App GeminiFacts.

Section Loops.
Context (provider : nat → Request → CallOutcome) (options : Options AppState).

(** The callback leaves logs, outputs and error message alone. *)
Hypothesis Hretry : ∀ callback, onRetry options = Some callback →
                      ∀ n d m a, sameRecords a (callback n d m a).

Lemma sameRecords_refl (a : AppState) : sameRecords a a.
Proof. by split_and!. Qed.

Lemma sameRecords_trans (a b c : AppState) :
  sameRecords a b → sameRecords b c → sameRecords a c.
Proof. intros (?&?&?) (?&?&?). split_and!; congruence. Qed.

(** [editImage] changes the state of the component through [onRetry]
    only, and so keeps the records. *)
Lemma editImage_follows (url prompt : string) (w : World AppState) :
  follows options (sameRecords (caller w)) w
    (editImage provider url prompt options w).2.
Proof.
  apply follows_editImage. intros callback Hcb n d m a Ha.
  eapply sameRecords_trans; [exact Ha|by apply Hretry].
Qed.

Lemma editImage_records (url prompt : string) (w : World AppState) :
  sameRecords (caller w) (caller (editImage provider url prompt options w).2).
Proof. apply editImage_follows, sameRecords_refl. Qed.

Lemma runSteps_app (image : ImageFile) (imageIndex totalImages totalSteps : nat)
    (pre post : list WorkflowNode) :
  ∀ (stepIndex : nat) (current : string) (w : World AppState),
    runSteps provider options image imageIndex totalImages totalSteps
      (pre ++ post) stepIndex current w
    = match runSteps provider options image imageIndex totalImages totalSteps
              pre stepIndex current w with
      | (RanThrough, current', w') =>
          runSteps provider options image imageIndex totalImages totalSteps
            post (stepIndex + length pre) current' w'
      | (Returned, current', w') => (Returned, current', w')
      end.
Proof.
  induction pre as [|step pre IH]; intros stepIndex current w.
  - cbn [app runSteps length]. by rewrite Nat.add_0_r.
  - cbn [app runSteps length].
    destruct (editImage _ _ _ _ _) as [[url|e] w2]; [|done].
    rewrite IH. by replace (Datatypes.S stepIndex + length pre)
                     with (stepIndex + Datatypes.S (length pre)) by lia.
Qed.

Lemma runImages_app (totalImages : nat) (workflow : list WorkflowNode)
    (pre post : list ImageFile) :
  ∀ (imageIndex : nat) (w : World AppState),
    runImages provider options totalImages workflow (pre ++ post) imageIndex w
    = match runImages provider options totalImages workflow pre imageIndex w with
      | (Ok RanThrough, w') =>
          runImages provider options totalImages workflow post
            (imageIndex + length pre) w'
      | other => other
      end.
Proof.
  induction pre as [|image pre IH]; intros imageIndex w.
  - cbn [app runImages length]. by rewrite Nat.add_0_r.
  - cbn [app runImages length].
    destruct (aborted options w) as [[[]|] ?]; try done;
      (destruct (runSteps _ _ _ _ _ _ _ _ _ _) as [[[] ?] w']; [|done];
       rewrite IH;
       by replace (Datatypes.S imageIndex + length pre)
            with (imageIndex + Datatypes.S (length pre)) by lia).
Qed.

Lemma stepSucceeded_records (image : ImageFile) (step : WorkflowNode)
    (stepIndex totalSteps : nat) (url : string) (a : AppState) :
  logs (stepSucceeded image step stepIndex totalSteps url a)
  = logs a ++ [successLog image step]
  ∧ error (stepSucceeded image step stepIndex totalSteps url a) = error a
  ∧ outputs (stepSucceeded image step stepIndex totalSteps url a)
    = outputs a ++ (if bool_decide (stepIndex = totalSteps - 1)
                    then [mkOutput (image_id image) (file_name image) url] else []).
Proof.
  unfold stepSucceeded. case_bool_decide; cbn; by rewrite ?app_nil_r.
Qed.

(** The steps of an image that ran through: one success record each,
    and the output of the image once its last step is done. *)
Lemma runSteps_ranThrough (image : ImageFile) (imageIndex totalImages totalSteps : nat)
    (steps : list WorkflowNode) :
  ∀ (stepIndex : nat) (current current' : string) (w w' : World AppState),
    stepIndex + length steps ≤ totalSteps →
    runSteps provider options image imageIndex totalImages totalSteps
      steps stepIndex current w = (RanThrough, current', w') →
    logs (caller w') = logs (caller w) ++ (successLog image <$> steps)
    ∧ error (caller w') = error (caller w)
    ∧ outputs (caller w')
      = outputs (caller w)
        ++ (if bool_decide (steps ≠ [] ∧ stepIndex + length steps = totalSteps)
            then [mkOutput (image_id image) (file_name image) current'] else []).
Proof.
  induction steps as [|step rest IH];
    intros stepIndex current current' w w' Hlen Hrun; cbn [runSteps] in Hrun.
  - injection Hrun as <- <-. rewrite bool_decide_false by naive_solver.
    by rewrite !app_nil_r.
  - set (w1 := update _ w) in Hrun.
    pose proof (editImage_records current (prompt step) w1) as (Hl & Ho & He).
    destruct (editImage _ _ _ _ w1) as [[url|e] w2]; [|done]. cbn [snd] in *.
    cbn [length] in Hlen.
    destruct (stepSucceeded_records image step stepIndex totalSteps url (caller w2))
      as (Hl3 & He3 & Ho3).
    rewrite Hl, He, Ho in *. cbn [update caller w1 setLoadingMessage logs error outputs] in *.
    destruct rest as [|step' rest].
    + cbn [runSteps] in Hrun. injection Hrun as <- <-.
      cbn [update caller fmap list_fmap length]. rewrite Hl3, He3, Ho3.
      split_and!; [done..|]. f_equal.
      apply (f_equal (fun b : bool => if b then _ else _)).
      apply bool_decide_ext. cbn [length] in Hlen. split; [intros ->|intros [_ ?]]; [split|]; [done|lia..].
    + apply IH in Hrun as (Hl' & He' & Ho'); [|cbn [length] in *; lia].
      cbn [update caller] in *. rewrite Hl', He', Ho', Hl3, He3, Ho3.
      rewrite (bool_decide_false (stepIndex = _)) by (cbn [length] in Hlen; lia).
      rewrite app_nil_r. split_and!.
      * by rewrite <- app_assoc.
      * done.
      * f_equal. apply (f_equal (fun b : bool => if b then _ else _)).
        apply bool_decide_ext. cbn [length]. split; intros [_ ?]; (split; [done|lia]).
Qed.

(** The images that ran through: their records, one output each. *)
Lemma runImages_ranThrough (totalImages : nat) (workflow : list WorkflowNode)
    (imgs : list ImageFile) :
  ∀ (imageIndex : nat) (w w' : World AppState),
    workflow ≠ [] →
    runImages provider options totalImages workflow imgs imageIndex w
    = (Ok RanThrough, w') →
    logs (caller w')
    = logs (caller w) ++ (imgs ≫= fun image => successLog image <$> workflow)
    ∧ error (caller w') = error (caller w)
    ∧ originalImageId <$> outputs (caller w')
      = (originalImageId <$> outputs (caller w)) ++ (image_id <$> imgs).
Proof.
  induction imgs as [|image rest IH]; intros imageIndex w w' Hwf Hrun;
    cbn [runImages] in Hrun.
  - injection Hrun as <-. by rewrite !app_nil_r.
  - assert (∃ current' w1,
              runSteps provider options image imageIndex totalImages (length workflow)
                workflow 0 (dataUrl image) w = (RanThrough, current', w1)
              ∧ runImages provider options totalImages workflow rest
                  (Datatypes.S imageIndex) w1 = (Ok RanThrough, w'))
      as (current' & w1 & Hsteps & Hrest).
    { destruct (aborted options w) as [[[]|] ?]; try done;
        destruct (runSteps _ _ _ _ _ _ _ _ _ _) as [[[] current'] w1]; try done;
        eauto. }
    apply runSteps_ranThrough in Hsteps as (Hl & He & Ho); [|cbn; lia].
    apply IH in Hrest as (Hl' & He' & Ho'); [|done].
    rewrite bool_decide_true in Ho by (split; [done|cbn; lia]).
    rewrite Hl', He', Ho', Hl, He, Ho. cbn [mbind list_bind fmap list_fmap].
    rewrite fmap_app. cbn [fmap list_fmap originalImageId].
    by rewrite <- !app_assoc.
Qed.

(** *** Cancellation in the loops *)

(** No suspension is started once the signal reads as aborted. *)
Lemma runSteps_ticks (image : ImageFile) (imageIndex totalImages totalSteps : nat)
    (steps : list WorkflowNode) (after : nat) :
  signal options = Some after →
  ∀ (stepIndex : nat) (current : string) (w : World AppState),
    ticks w ≤ after →
    ticks (runSteps provider options image imageIndex totalImages totalSteps
             steps stepIndex current w).2 ≤ after.
Proof.
  intros Hsig. induction steps as [|step rest IH]; intros stepIndex current w Hw;
    cbn [runSteps]; [done|].
  set (w1 := update _ w).
  pose proof (follows_signal _ _ _ _ (editImage_follows current (prompt step) w1)
                after Hsig Hw) as Hw2.
  destruct (editImage _ _ _ _ w1) as [[url|e] w2]; cbn [snd] in *; [|done].
  by apply IH.
Qed.

Lemma runImages_ticks (totalImages : nat) (workflow : list WorkflowNode)
    (imgs : list ImageFile) (after : nat) :
  signal options = Some after →
  ∀ (imageIndex : nat) (w : World AppState),
    ticks w ≤ after →
    ticks (runImages provider options totalImages workflow imgs imageIndex w).2 ≤ after.
Proof.
  intros Hsig. induction imgs as [|image rest IH]; intros imageIndex w Hw;
    cbn [runImages]; [done|].
  pose proof (runSteps_ticks image imageIndex totalImages (length workflow) workflow
                after Hsig 0 (dataUrl image) w Hw) as Hsteps.
  destruct (aborted options w) as [[[]|] ?]; try done;
    destruct (runSteps _ _ _ _ _ _ _ _ _ _) as [[[] ?] w']; cbn [snd] in *;
    by first [apply IH | idtac].
Qed.

(** The steps that ran through leave the world undisturbed. *)
Lemma runSteps_undisturbed (image : ImageFile) (imageIndex totalImages totalSteps : nat)
    (steps : list WorkflowNode) :
  ∀ (stepIndex : nat) (current current' : string) (w w' : World AppState),
    undisturbed options w →
    runSteps provider options image imageIndex totalImages totalSteps
      steps stepIndex current w = (RanThrough, current', w') →
    undisturbed options w'.
Proof.
  induction steps as [|step rest IH]; intros stepIndex current current' w w' Hw Hrun;
    cbn [runSteps] in Hrun.
  - by injection Hrun as _ <-.
  - set (w1 := update _ w) in Hrun.
    destruct (settles_editImage provider options current (prompt step) w1 Hw)
      as [Habort|Hund];
      destruct (editImage _ _ _ _ w1) as [[url|e] w2]; try done.
    by eapply IH; [|exact Hrun].
Qed.

(** A run of the steps that returned: the steps before ran through, and
    [editImage] threw at the next one. *)
Lemma runSteps_returned (image : ImageFile) (imageIndex totalImages totalSteps : nat)
    (steps : list WorkflowNode) :
  ∀ (stepIndex : nat) (current current' : string) (w w' : World AppState),
    runSteps provider options image imageIndex totalImages totalSteps
      steps stepIndex current w = (Returned, current', w') →
    ∃ stepsBefore step stepsAfter current1 w1 e w2,
      steps = stepsBefore ++ step :: stepsAfter
      ∧ runSteps provider options image imageIndex totalImages totalSteps
          stepsBefore stepIndex current w = (RanThrough, current1, w1)
      ∧ editImage provider current1 (prompt step) options
          (update (setLoadingMessage
                     (progress image imageIndex totalImages
                        step (stepIndex + length stepsBefore) totalSteps)) w1)
        = (Throw e, w2)
      ∧ w' = update (stepFailed image step e) w2.
Proof.
  induction steps as [|step rest IH]; intros stepIndex current current' w w' Hrun;
    cbn [runSteps] in Hrun; [done|].
  destruct (editImage _ _ _ _ _) as [[url|e] w2] eqn:Hedit.
  - apply IH in Hrun
      as (stepsBefore & step' & stepsAfter & current1 & w1 & e & w3 & -> & Hpre & He & ->).
    exists (step :: stepsBefore), step', stepsAfter, current1, w1, e, w3.
    split_and!; [done| |by rewrite <- He; cbn [length]; rewrite Nat.add_succ_r|done].
    cbn [runSteps]. by rewrite Hedit.
  - injection Hrun as _ <-.
    exists [], step, rest, current, w, e, w2.
    split_and!; [done..| |done].
    cbn [length]. unfold progress. by rewrite Nat.add_0_r.
Qed.

(** A run of the images that did not return from inside the steps leaves
    the world undisturbed. *)
Lemma runImages_undisturbed (totalImages : nat) (workflow : list WorkflowNode)
    (imgs : list ImageFile) :
  ∀ (imageIndex : nat) (o : Outcome Exit) (w w' : World AppState),
    undisturbed options w →
    runImages provider options totalImages workflow imgs imageIndex w = (o, w') →
    o ≠ Ok Returned →
    undisturbed options w'.
Proof.
  induction imgs as [|image rest IH]; intros imageIndex o w w' Hw Hrun Ho;
    cbn [runImages] in Hrun.
  - by injection Hrun as _ <-.
  - assert (o = Throw (Error "Request aborted") ∧ w' = w
            ∨ ∃ current' w1,
                runSteps provider options image imageIndex totalImages (length workflow)
                  workflow 0 (dataUrl image) w = (RanThrough, current', w1)
                ∧ runImages provider options totalImages workflow rest
                    (Datatypes.S imageIndex) w1 = (o, w'))
      as [[_ ->]|(current' & w1 & Hsteps & Hrest)]; [|done|].
    { destruct (aborted options w) as [[[]|] ?];
        [left; by injection Hrun as <- <-|..];
        (destruct (runSteps _ _ _ _ _ _ _ _ _ _) as [[[] current'] w1];
         [right; eauto|by injection Hrun as <- <-]). }
    eapply IH; [|exact Hrest|done].
    by eapply runSteps_undisturbed.
Qed.

(** A run of the images that returned from inside the steps: the images
    before ran through. *)
Lemma runImages_returned (totalImages : nat) (workflow : list WorkflowNode)
    (imgs : list ImageFile) :
  ∀ (imageIndex : nat) (w w' : World AppState),
    runImages provider options totalImages workflow imgs imageIndex w
    = (Ok Returned, w') →
    ∃ imagesBefore image imagesAfter wA current,
      imgs = imagesBefore ++ image :: imagesAfter
      ∧ runImages provider options totalImages workflow imagesBefore imageIndex w
        = (Ok RanThrough, wA)
      ∧ runSteps provider options image (imageIndex + length imagesBefore) totalImages
          (length workflow) workflow 0 (dataUrl image) wA
        = (Returned, current, w').
Proof.
  induction imgs as [|image rest IH]; intros imageIndex w w' Hrun;
    cbn [runImages] in Hrun; [done|].
  assert (∃ exit current' w1,
            runSteps provider options image imageIndex totalImages (length workflow)
              workflow 0 (dataUrl image) w = (exit, current', w1)
            ∧ match exit with
              | RanThrough =>
                  runImages provider options totalImages workflow rest
                    (Datatypes.S imageIndex) w1 = (Ok Returned, w')
              | Returned => w' = w1
              end)
    as (exit & current' & w1 & Hsteps & Hrest).
  { destruct (aborted options w) as [[[]|] ?]; [done|..];
      (destruct (runSteps _ _ _ _ _ _ _ _ _ _) as [[[] current'] w1];
       [by exists RanThrough, current', w1
       |injection Hrun as <-; by exists Returned, current', w1]). }
  destruct exit.
  - apply IH in Hrest as (imagesBefore & image' & imagesAfter & wA & current & -> & Hpre & Hst).
    exists (image :: imagesBefore), image', imagesAfter, wA, current.
    split_and!; [done| |by rewrite <- Hst; cbn [length]; rewrite Nat.add_succ_r].
    cbn [runImages]. rewrite Hsteps.
    by destruct (aborted options w) as [[[]|] ?].
  - subst w1. exists [], image, rest, w, current'.
    split_and!; [done..|]. cbn [length]. by rewrite Nat.add_0_r.
Qed.

(** The abort check between two images is the only place where the loop
    over the images throws. *)
Lemma runImages_thrown (totalImages : nat) (workflow : list WorkflowNode)
    (imgs : list ImageFile) :
  ∀ (imageIndex : nat) (w w' : World AppState) (e : Thrown),
    runImages provider options totalImages workflow imgs imageIndex w = (Throw e, w') →
    e = Error "Request aborted"
    ∧ ∃ imagesBefore image imagesAfter,
        imgs = imagesBefore ++ image :: imagesAfter
        ∧ runImages provider options totalImages workflow imagesBefore imageIndex w
          = (Ok RanThrough, w').
Proof.
  induction imgs as [|image rest IH]; intros imageIndex w w' e Hrun;
    cbn [runImages] in Hrun; [done|].
  destruct (aborted options w) as [[[]|e0] w0] eqn:Hab.
  - injection Hrun as <- <-. split; [done|]. by exists [], image, rest.
  - destruct (runSteps _ _ _ _ _ _ _ _ _ _) as [[[] current'] w1] eqn:Hsteps; [|done].
    apply IH in Hrun as (-> & imagesBefore & image' & imagesAfter & -> & Hbefore).
    split; [done|]. exists (image :: imagesBefore), image', imagesAfter.
    split; [done|]. cbn [runImages]. by rewrite Hab, Hsteps.
  - destruct (runSteps _ _ _ _ _ _ _ _ _ _) as [[[] current'] w1] eqn:Hsteps; [|done].
    apply IH in Hrun as (-> & imagesBefore & image' & imagesAfter & -> & Hbefore).
    split; [done|]. exists (image :: imagesBefore), image', imagesAfter.
    split; [done|]. cbn [runImages]. by rewrite Hab, Hsteps.
Qed.

(** A step costs at most 16 calls of the backend. *)
Lemma runSteps_calls (image : ImageFile) (imageIndex totalImages totalSteps : nat)
    (steps : list WorkflowNode) :
  ∀ (stepIndex : nat) (current : string) (w : World AppState),
    calls (runSteps provider options image imageIndex totalImages totalSteps
             steps stepIndex current w).2 ≤ calls w + 16 * length steps.
Proof.
  induction steps as [|step rest IH]; intros stepIndex current w;
    cbn [runSteps length]; [cbn; lia|].
  set (w1 := update _ w).
  destruct (editImage_spends provider options current (prompt step) w1)
    as (events & [_ _ Hcalls _] & Hrequests & _).
  destruct (editImage _ _ _ _ w1) as [[url|e] w2]; cbn [snd] in *.
  - etrans; [apply IH|]. cbn [update calls]. unfold w1 in Hcalls.
    cbn [update calls] in Hcalls. lia.
  - unfold w1 in Hcalls. cbn [update calls] in *. lia.
Qed.

Lemma runImages_calls (totalImages : nat) (workflow : list WorkflowNode)
    (imgs : list ImageFile) :
  ∀ (imageIndex : nat) (w : World AppState),
    calls (runImages provider options totalImages workflow imgs imageIndex w).2
    ≤ calls w + 16 * length workflow * length imgs.
Proof.
  induction imgs as [|image rest IH]; intros imageIndex w;
    cbn [runImages length]; [cbn; lia|].
  pose proof (runSteps_calls image imageIndex totalImages (length workflow) workflow
                0 (dataUrl image) w) as Hsteps.
  destruct (aborted options w) as [[[]|] ?]; cbn [snd]; try lia;
    (destruct (runSteps _ _ _ _ _ _ _ _ _ _) as [[[] ?] w']; cbn [snd] in *;
     [etrans; [apply IH|]; lia|lia]).
Qed.

End Loops.

Lemma runOptions_retry (cancelDuring : option nat) (w : World AppState) :
  ∀ callback, onRetry (runOptions cancelDuring w) = Some callback →
    ∀ n d m a, sameRecords a (callback n d m a).
Proof. intros callback [= <-] n d m a. by split_and!. Qed.

Lemma stepFailed_records (image : ImageFile) (step : WorkflowNode) (e : Thrown)
    (a : AppState) :
  isAbort e = false →
  logs (stepFailed image step e a) = logs a ++ [failureLog image step]
  ∧ error (stepFailed image step e a) = Some (errorText image step e)
  ∧ outputs (stepFailed image step e a) = outputs a.
Proof.
  intros Hab. unfold stepFailed, errorText. rewrite Hab.
  by destruct (isQuotaError e).
Qed.

(** A graph that is rejected: the error is shown and the service is not
    called. *)
Lemma executeWorkflow_invalid (provider : nat → Request → CallOutcome) (fuel : nat)
    (cancelDuring : option nat) (w : World AppState) :
  getExecutionOrder fuel (nodes (caller w)) (connections (caller w)) = Some Invalid →
  ∃ final,
    executeWorkflow provider fuel cancelDuring w = Some (Ok tt, final)
    ∧ error (caller final) = Some cycleMessage
    ∧ calls final = calls w ∧ ticks final = ticks w ∧ trace final = trace w
    ∧ logs (caller final) = logs (caller w)
    ∧ outputs (caller final) = outputs (caller w).
Proof.
  intros Horder. eexists. unfold executeWorkflow.
  cbn [update caller nodes connections setError]. rewrite Horder.
  cbn [mbind option_bind]. by split_and!.
Qed.

(** A graph with a cycle is rejected before any call. *)
Lemma executeWorkflow_rejects_cycle (provider : nat → Request → CallOutcome)
    (fuel : nat) (cancelDuring : option nat) (w : World AppState) (v : string) :
  NoDup (id <$> nodes (caller w)) →
  v ∈ id <$> nodes (caller w) → onCycle (connections (caller w)) v →
  enoughFuel (nodes (caller w)) (connections (caller w)) ≤ fuel →
  ∃ final,
    executeWorkflow provider fuel cancelDuring w = Some (Ok tt, final)
    ∧ error (caller final) = Some cycleMessage
    ∧ calls final = calls w.
Proof.
  intros Hids Hv Hcycle Hfuel.
  destruct (executeWorkflow_invalid provider fuel cancelDuring w)
    as (final & Hrun & Herror & Hcalls & _).
  { by eapply SchedulerFacts.getExecutionOrder_cycle. }
  by exists final.
Qed.

(** C2 fails at a graph with a disconnected extra step.  The steps are
    [A], [B], [C] and the only connection is [A -> B]: no connection
    touches [C].  [getExecutionOrder] returns the order [A], [C], [B]
    and not the failure its own message describes (a workflow that has a
    cycle or is disconnected), and the run of one image calls the service
    three times, once for each step, [C] included, and shows no error. *)
Theorem executeWorkflow_runs_stray_step :
  let provider := fun (_ : nat) (_ : Request) => imageResponse "OUT" in
  let w := freshWorld [picture "1"] strayNodes strayConnections in
  (∀ c, c ∈ strayConnections → fromNodeId c ≠ "C" ∧ toNodeId c ≠ "C")
  ∧ getExecutionOrder (enoughFuel strayNodes strayConnections)
      strayNodes strayConnections
    = Some (Ordered [step "A"; step "C"; step "B"])
  ∧ ∃ final,
      executeWorkflow provider (enoughFuel strayNodes strayConnections) None w
      = Some (Ok tt, final)
      ∧ error (caller final) = None
      ∧ calls final = 3
      ∧ text <$> requestsOf (trace final) = ["prompt A"; "prompt C"; "prompt B"]
      ∧ logs (caller final)
        = successLog (picture "1") <$> [step "A"; step "C"; step "B"].
Proof.
  intros provider w. split_and!.
  - intros c ->%list_elem_of_singleton. by split.
  - by vm_compute.
  - eexists. split; [by vm_compute|]. by split_and!.
Qed.

Lemma stepFailed_cancelled (image : ImageFile) (step : WorkflowNode) (e : Thrown)
    (a : AppState) :
  isAbort e = true →
  notification (stepFailed image step e a) = Some CancelledByUser
  ∧ logs (stepFailed image step e a) = logs a
  ∧ error (stepFailed image step e a) = error a
  ∧ outputs (stepFailed image step e a) = outputs a.
Proof. intros Hab. unfold stepFailed. by rewrite Hab. Qed.

(** A run of the images that returned from inside the steps: the images
    and the steps before ran through, and [editImage] threw at the next
    step; if the world was undisturbed at the start, it threw the abort
    error or left the world undisturbed. *)
Lemma runImages_halted (provider : nat → Request → CallOutcome)
    (options : Options AppState) (totalImages : nat) (workflow : list WorkflowNode)
    (imgs : list ImageFile) (w w' : World AppState) :
  (∀ callback, onRetry options = Some callback →
     ∀ n d m a, sameRecords a (callback n d m a)) →
  runImages provider options totalImages workflow imgs 0 w = (Ok Returned, w') →
  ∃ imagesBefore image imagesAfter stepsBefore step stepsAfter e w2,
    imgs = imagesBefore ++ image :: imagesAfter
    ∧ workflow = stepsBefore ++ step :: stepsAfter
    ∧ w' = update (stepFailed image step e) w2
    ∧ logs (caller w2)
      = logs (caller w)
        ++ (imagesBefore ≫= fun image' => successLog image' <$> workflow)
        ++ (successLog image <$> stepsBefore)
    ∧ error (caller w2) = error (caller w)
    ∧ originalImageId <$> outputs (caller w2)
      = (originalImageId <$> outputs (caller w)) ++ (image_id <$> imagesBefore)
    ∧ (undisturbed options w →
       e = Error "Request aborted" ∨ undisturbed options w2).
Proof.
  intros Hretry Hrun.
  apply runImages_returned in Hrun
    as (imagesBefore & image & imagesAfter & wA & current & -> & Hbefore & Hsteps).
  apply runSteps_returned in Hsteps
    as (stepsBefore & step & stepsAfter & current1 & w1 & e & w2 & Hwf & Hpre & Hedit & ->).
  set (w1' := update _ w1) in Hedit.
  pose proof (editImage_records provider options Hretry current1 (prompt step) w1')
    as (Hl2 & Ho2 & He2).
  rewrite Hedit in Hl2, Ho2, He2. cbn [snd] in Hl2, Ho2, He2.
  assert (workflow ≠ []) as Hne by (rewrite Hwf; by destruct stepsBefore).
  destruct (runImages_ranThrough provider options Hretry
              totalImages workflow imagesBefore 0 w wA Hne Hbefore)
    as (HlA & HeA & HoA).
  destruct (runSteps_ranThrough provider options Hretry
              image (0 + length imagesBefore) totalImages (length workflow)
              stepsBefore 0 (dataUrl image) current1 wA w1) as (Hl1 & He1 & Ho1).
  { rewrite Hwf, length_app. lia. }
  { exact Hpre. }
  rewrite bool_decide_false in Ho1
    by (rewrite Hwf, length_app; cbn [length]; lia).
  rewrite app_nil_r in Ho1.
  exists imagesBefore, image, imagesAfter, stepsBefore, step, stepsAfter, e, w2.
  split_and!; [done..| | | |].
  - rewrite Hl2. unfold w1'. cbn [update caller setLoadingMessage logs].
    rewrite Hl1, HlA. by rewrite <- !app_assoc.
  - rewrite He2. unfold w1'. cbn [update caller setLoadingMessage error].
    by rewrite He1, HeA.
  - rewrite Ho2. unfold w1'. cbn [update caller setLoadingMessage outputs].
    by rewrite Ho1, HoA.
  - intros Hw.
    assert (undisturbed options wA) as HwA
      by (eapply runImages_undisturbed; [exact Hw|exact Hbefore|done]).
    assert (undisturbed options w1) as Hw1
      by (eapply runSteps_undisturbed; [exact HwA|exact Hpre]).
    destruct (settles_editImage provider options current1 (prompt step) w1' Hw1)
      as [Habort|Hund]; rewrite Hedit in *; cbn [fst snd] in *; [|by right].
    left. by injection Habort.
Qed.

Lemma successLog_status (image : ImageFile) (steps : list WorkflowNode) :
  Forall (fun entry => status entry = StatusSuccess) (successLog image <$> steps).
Proof. apply Forall_fmap, Forall_true. done. Qed.

(** C3 (as amended): when the user presses Cancel during the [n]-th
    suspension of a run (a [generateContent] call or a sleep, counted from
    0), the run starts no suspension after that one: no further call and
    no further sleep.  If the run got that far and its promise resolves,
    then either the run is cancelled: the notice [Workflow cancelled by
    user.] is up, no error is shown, every record added is a success, the
    records are those of the steps that were completed, and the outputs
    are those of the images that went through every step.  Or the signal
    changed while a call was in flight and nothing was done in the service
    after that call, whose result decides: it completed the run, which
    ends as a run that was not cancelled, or it failed with an error the
    service does not retry, and the run ends with the failure of that
    step. *)
Theorem executeWorkflow_cancellation
    (provider : nat → Request → CallOutcome) (fuel n : nat)
    (w w' : World AppState) (o : Outcome unit) :
  executeWorkflow provider fuel (Some n) w = Some (o, w') →
  ticks w' ≤ ticks w + n + 1
  ∧ (ticks w' = ticks w + n + 1 → o = Ok tt →
     ∃ workflow,
       getExecutionOrder fuel (nodes (caller w)) (connections (caller w))
       = Some (Ordered workflow)
       ∧ (cancelledOutcome (caller w) (caller w')
          ∧ completedWork workflow (caller w) (caller w')
          ∨ callInFlight w'
            ∧ (completedRun workflow (caller w) (caller w')
               ∨ failedStep workflow (caller w) (caller w')))).
Proof.
  unfold executeWorkflow. cbn [update caller nodes connections setError].
  destruct (getExecutionOrder _ _ _) as [[workflow|]|]; cbn [mbind option_bind];
    [|intros [= <- <-]; cbn [update ticks]; split; [lia|lia]|done].
  destruct (negb _); [intros [= <- <-]; cbn [update ticks]; split; lia|].
  case_bool_decide as Himages; [intros [= <- <-]; cbn [update ticks]; split; lia|].
  case_bool_decide as Hworkflow; [intros [= <- <-]; cbn [update ticks]; split; lia|].
  set (options := runOptions (Some n) w).
  change (images (setError None (caller w))) with (images (caller w)) in *.
  set (total := length (images (caller w))).
  assert (undisturbed options (started w)) as Hstart.
  { left. unfold quietAt, options. cbn. lia. }
  pose proof (runImages_ticks provider options (runOptions_retry _ _)
                total workflow (images (caller w)) (ticks w + n + 1) eq_refl
                0 (started w)) as Hticks.
  destruct (runImages provider options total workflow (images (caller w)) 0 (started w))
    as [exit w2] eqn:Hrun.
  cbn [snd] in Hticks.
  assert (ticks w2 ≤ ticks w + n + 1) as Hbound by (apply Hticks; cbn; lia).
  assert (undisturbed options w2 → ticks w2 = ticks w + n + 1 →
          callInFlight (update finally w2)) as Hflight.
  { intros [Hquiet|Hlast] Hfinal; [|done].
    unfold quietAt, options in Hquiet. cbn in Hquiet. lia. }
  destruct exit as [[]|e]; intros [= <- <-]; (split; [exact Hbound|]);
    intros Hfinal Hresolved; [| |done]; exists workflow; (split; [done|]).
  - right. split.
    { apply Hflight; [|done].
      by eapply runImages_undisturbed; [exact Hstart|exact Hrun|]. }
    left.
    destruct (runImages_ranThrough provider options (runOptions_retry _ _)
                total workflow (images (caller w)) 0 (started w) w2 Hworkflow Hrun)
      as (Hl & He & Ho).
    by split_and!.
  - destruct (runImages_halted provider options total workflow (images (caller w))
                (started w) w2 (runOptions_retry _ _) Hrun)
      as (imagesBefore & image & imagesAfter & stepsBefore & step & stepsAfter
          & e & w3 & Himgs & Hwf & -> & Hlogs & Herror & Houts & Hsettled).
    cbn [started update caller setOutputs setIsLoading setRetryInfo setAbortController
           setError logs outputs error fmap list_fmap app] in Hlogs, Houts, Herror.
    destruct (isAbort e) eqn:Hab.
    + left.
      destruct (stepFailed_cancelled image step e (caller w3) Hab)
        as (Hn3 & Hl3 & He3 & Ho3).
      split.
      * split_and!; [done|by rewrite <- Herror|].
        eexists. split; [cbn [update caller finally]; by rewrite <- Hlogs|].
        apply Forall_app. split; [|apply successLog_status].
        apply Forall_forall. intros entry (image' & Hentry & _)%list_elem_of_bind.
        by apply list_elem_of_fmap in Hentry as (? & -> & _).
      * exists imagesBefore, image, imagesAfter, stepsBefore, step, stepsAfter.
        split_and!; [done..| |].
        -- by rewrite <- Hlogs.
        -- by rewrite <- Houts, <- Ho3.
    + right.
      destruct (stepFailed_records image step e (caller w3) Hab) as (Hl3 & He3 & Ho3).
      split.
      * apply Hflight; [|done].
        destruct (Hsettled Hstart) as [->|Hund]; [done|exact Hund].
      * right.
        exists imagesBefore, image, imagesAfter, stepsBefore, step, stepsAfter, e.
        split_and!; [done..| | |].
        -- exact He3.
        -- cbn [update caller finally setAbortController setLoadingMessage
                  setIsLoading logs].
           rewrite Hl3, Hlogs. by rewrite <- !app_assoc.
        -- by rewrite <- Houts, <- Ho3.
Qed.

Lemma executeWorkflow_cancellation_witness :
  let provider := fun (_ : nat) (_ : Request) => imageResponse "OUT" in
  ∃ w' : World AppState,
    executeWorkflow provider 3 (Some 0) twoByTwo = Some (Ok tt, w')
    ∧ ticks w' ≤ ticks twoByTwo + 0 + 1
    ∧ ∃ workflow,
        getExecutionOrder 3 (nodes (caller twoByTwo)) (connections (caller twoByTwo))
        = Some (Ordered workflow)
        ∧ (cancelledOutcome (caller twoByTwo) (caller w')
           ∧ completedWork workflow (caller twoByTwo) (caller w')
           ∨ callInFlight w'
             ∧ (completedRun workflow (caller twoByTwo) (caller w')
                ∨ failedStep workflow (caller twoByTwo) (caller w'))).
Proof.
  intros provider. eexists. split; [reflexivity|].
  destruct (executeWorkflow_cancellation provider 3 0 twoByTwo _ (Ok tt) eq_refl)
    as [Hbound Houtcome].
  split; [exact Hbound|]. apply Houtcome; reflexivity.
Defined.

(** C3, as stated, fails when the signal changes while a call is in
    flight and that call then fails with an error that is not a quota
    error: the service throws the error of the call without looking at
    the signal, and the runner shows it and adds a failure record. *)
Theorem cancellation_during_failing_call :
  ¬ (∀ (provider : nat → Request → CallOutcome) (fuel n : nat)
       (w w' : World AppState) (o : Outcome unit),
       executeWorkflow provider fuel (Some n) w = Some (o, w') →
       ticks w' = ticks w + n + 1 →
       cancelledOutcome (caller w) (caller w')).
Proof.
  intros Hclaim.
  set (provider := fun (_ : nat) (_ : Request) => Fails (Error "boom")).
  set (w := freshWorld [picture "1"] [step "A"] []).
  destruct (executeWorkflow provider 2 (Some 0) w) as [[o w']|] eqn:Hrun;
    [|by vm_compute in Hrun].
  pose proof (Hclaim _ _ _ _ _ _ Hrun) as Hcancelled.
  vm_compute in Hrun. injection Hrun as <- <-.
  destruct (Hcancelled eq_refl) as (_ & Herror & _).
  by cbn in Herror.
Qed.

(** *** Every call of a run *)

Section Calls.
Context (provider : nat → Request → CallOutcome) (options : Options AppState).

(** The updates of the component leave the client, the trace and the
    counters alone. *)
Lemma adds_update (f g : AppState → AppState) (events : list Event)
    (w w' : World AppState) :
  adds events w w' → adds events (update f w) (update g w').
Proof. intros [? ? ? ?]. by split. Qed.

Lemma adds_update_r (g : AppState → AppState) (events : list Event)
    (w w' : World AppState) :
  adds events w w' → adds events w (update g w').
Proof. intros [? ? ? ?]. by split. Qed.

Lemma adds_update_l (f : AppState → AppState) (events : list Event)
    (w w' : World AppState) :
  adds events (update f w) w' → adds events w w'.
Proof. intros [? ? ? ?]. by split. Qed.





(** The callback leaves logs, outputs and error message alone. *)
Hypothesis Hretry : ∀ callback, onRetry options = Some callback →
                      ∀ n d m a, sameRecords a (callback n d m a).

Lemma produced_more (w : World AppState) (events more : list Event)
    (imgs : list ImageFile) (step : WorkflowNode) (out : OutputImage) :
  produced provider w events imgs step out →
  produced provider w (events ++ more) imgs step out.
Proof.
  intros (image & i & request & response & ? & ? & ? & Hi & ? & ? & ? & ?).
  exists image, i, request, response. split_and!; [done..| |done|done|done|done].
  rewrite requestsOf_app. by apply lookup_app_l_Some.
Qed.

Lemma stepFailed_outputs (image : ImageFile) (step : WorkflowNode) (e : Thrown)
    (a : AppState) :
  outputs (stepFailed image step e a) = outputs a.
Proof. unfold stepFailed. by destruct (isAbort e), (isQuotaError e). Qed.

Lemma runSteps_shown (w0 : World AppState) (imgs : list ImageFile) (final : WorkflowNode)
    (image : ImageFile) (imageIndex totalImages totalSteps : nat)
    (steps : list WorkflowNode) :
  image ∈ imgs →
  ∀ (stepIndex : nat) (current : string) (w : World AppState) (events : list Event),
    let r := runSteps provider options image imageIndex totalImages totalSteps
               steps stepIndex current w in
    stepIndex + length steps = totalSteps →
    (steps ≠ [] → last steps = Some final) →
    adds events w0 w →
    Forall (produced provider w0 events imgs final) (outputs (caller w)) →
    ∃ events',
      adds events' w0 r.2
      ∧ Forall (produced provider w0 events' imgs final) (outputs (caller r.2)).
Proof.
  intros Himage.
  induction steps as [|step rest IH];
    intros stepIndex current w events r Hindex Hlast Hadds Hshown; unfold r; clear r;
    cbn [runSteps]; [by exists events|].
  set (w1 := update _ w).
  pose proof (editImage_records provider options Hretry current (prompt step) w1)
    as (_ & Houts & _).
  destruct (served_editImage provider options current (prompt step) w1)
    as (events1 & Hadds1 & Hserved).
  apply adds_update_l in Hadds1.
  pose proof (adds_trans _ _ _ _ _ Hadds Hadds1) as Hall.
  assert (Forall (produced provider w0 (events ++ events1) imgs final)
            (outputs (caller w))) as Hshown1.
  { eapply Forall_impl; [exact Hshown|]. intros out. apply produced_more. }
  destruct (editImage provider current (prompt step) options w1) as [[url|e] w2] eqn:Hedit;
    cbn [fst snd] in *.
  - eapply (IH (Datatypes.S stepIndex) url _ (events ++ events1)).
    + cbn [length] in Hindex. lia.
    + intros Hrest. rewrite <- Hlast by done. by destruct rest.
    + by apply adds_update_r.
    + cbn [update caller]. unfold stepSucceeded. cbn zeta.
      case_bool_decide as Hend;
        cbn [setOutputs outputs addLogEntry setRetryInfo]; rewrite Houts; [|done].
      apply Forall_app. split; [done|]. apply Forall_singleton.
      assert (rest = []) as ->
        by (cbn [length] in Hindex; destruct rest; [done|cbn in *; lia]).
      assert (final = step) as -> by (specialize (Hlast ltac:(done)); by injection Hlast).
      destruct (served_image _ _ _ _ _ _ _ Hserved url url eq_refl eq_refl)
        as (i & request & response & Hn & Hi & _ & Hanswer & Hread).
      pose proof (served_requests _ _ _ _ _ _ _ Hserved) as Hallowed.
      rewrite Forall_lookup in Hallowed. destruct (Hallowed i request Hi) as [Hmodel Htext].
      exists image, (length (requestsOf events) + i), request, response.
      split_and!; [done..| |done|done| |done].
      * rewrite requestsOf_app, lookup_app_r by lia.
        by replace (length (requestsOf events) + i - length (requestsOf events)) with i
          by lia.
      * destruct Hadds as [_ _ Hcalls _].
        replace (calls w0 + (length (requestsOf events) + i)) with (calls w1 + i); [done|].
        unfold w1. cbn [update calls]. lia.
  - exists (events ++ events1). split; [by apply adds_update_r|].
    cbn [update caller]. by rewrite stepFailed_outputs, Houts.
Qed.

Lemma runImages_shown (w0 : World AppState) (imgs : list ImageFile) (final : WorkflowNode)
    (totalImages : nat) (workflow : list WorkflowNode) (rest : list ImageFile) :
  rest ⊆ imgs →
  last workflow = Some final →
  ∀ (imageIndex : nat) (w : World AppState) (events : list Event),
    let r := runImages provider options totalImages workflow rest imageIndex w in
    adds events w0 w →
    Forall (produced provider w0 events imgs final) (outputs (caller w)) →
    ∃ events',
      adds events' w0 r.2
      ∧ Forall (produced provider w0 events' imgs final) (outputs (caller r.2)).
Proof.
  intros Hrest Hlast.
  induction rest as [|image rest IH]; intros imageIndex w events r Hadds Hshown;
    unfold r; clear r; cbn [runImages]; [by exists events|].
  assert (image ∈ imgs) as Himage by (apply Hrest, list_elem_of_here).
  destruct (runSteps_shown w0 imgs final image imageIndex totalImages (length workflow)
              workflow Himage 0 (dataUrl image) w events eq_refl (fun _ => Hlast)
              Hadds Hshown) as (events1 & Hadds1 & Hshown1).
  destruct (aborted options w) as [[[]|] ?]; cbn [snd]; [by exists events|..];
    (destruct (runSteps _ _ _ _ _ _ _ _ _ _) as [[[] ?] w']; cbn [snd] in *;
     [eapply IH; [|done..]; intros x Hx; by apply Hrest, list_elem_of_further
     |by exists events1]).
Qed.

End Calls.

Lemma started_adds (w : World AppState) : adds [] w (started w).
Proof. split; cbn; by rewrite ?app_nil_r, ?Nat.add_0_r. Qed.



(** Both error texts hold the name of the step in quotes, then [ for ],
    then the name of the file in quotes. *)
Lemma errorText_names (image : ImageFile) (step : WorkflowNode) (e : Thrown) :
  ∃ before after,
    errorText image step e
    = before +:+ Text.doubleQuote +:+ name step +:+ Text.doubleQuote
      +:+ " for "
      +:+ Text.doubleQuote +:+ file_name image +:+ Text.doubleQuote +:+ after.
Proof.
  unfold errorText. destruct (isQuotaError e).
  - by exists "Quota exceeded while processing ",
      (". Please check your Google Cloud billing and Gemini API quotas: "
       +:+ "https://ai.google.dev/gemini-api/docs/rate-limits").
  - by exists "Error on ", (": " +:+ errorMessageOf e).
Qed.

(** C8: when a step of an image fails with a [QuotaError] or any other
    error that is not the cancellation, the images before and the steps
    before having run through, the runner adds exactly one failure record,
    of cost 0 and 0 credits, after the success records; shows an error
    that names the step and the image: its text holds the name of the
    step in quotes, then [ for ], then the name of the file in quotes;
    and returns at once: the world is the one the failing [editImage]
    left (no later step, no later image), and the outputs are those of
    the images that ran through. *)
Theorem executeWorkflow_halts_on_first_failure
    (provider : nat → Request → CallOutcome) (fuel : nat) (cancelDuring : option nat)
    (w wA w1 w2 : World AppState) (key current : string)
    (imagesBefore imagesAfter : list ImageFile) (image : ImageFile)
    (stepsBefore stepsAfter : list WorkflowNode) (step : WorkflowNode) (e : Thrown) :
  let options := runOptions cancelDuring w in
  let workflow := stepsBefore ++ step :: stepsAfter in
  let total := length (imagesBefore ++ image :: imagesAfter) in
  getExecutionOrder fuel (nodes (caller w)) (connections (caller w))
    = Some (Ordered workflow) →
  images (caller w) = imagesBefore ++ image :: imagesAfter →
  ai w = Some key →
  runImages provider options total workflow imagesBefore 0 (started w)
    = (Ok RanThrough, wA) →
  aborted options wA = (Ok false, wA) →
  runSteps provider options image (length imagesBefore) total (length workflow)
    stepsBefore 0 (dataUrl image) wA = (RanThrough, current, w1) →
  editImage provider current (prompt step) options
    (update (setLoadingMessage
               (progress image (length imagesBefore) total
                  step (length stepsBefore) (length workflow))) w1)
    = (Throw e, w2) →
  isAbort e = false →
  ∃ final,
    executeWorkflow provider fuel cancelDuring w = Some (Ok tt, final)
    ∧ logs (caller final)
      = logs (caller w)
        ++ (imagesBefore ≫= fun image' => successLog image' <$> workflow)
        ++ (successLog image <$> stepsBefore)
        ++ [mkLog (file_name image) (name step) StatusFailure 0 0]
    ∧ error (caller final) = Some (errorText image step e)
    ∧ (∃ before after,
         errorText image step e
         = before +:+ Text.doubleQuote +:+ name step +:+ Text.doubleQuote
           +:+ " for "
           +:+ Text.doubleQuote +:+ file_name image +:+ Text.doubleQuote +:+ after)
    ∧ originalImageId <$> outputs (caller final) = image_id <$> imagesBefore
    ∧ trace final = trace w2 ∧ ticks final = ticks w2 ∧ calls final = calls w2.
Proof.
  intros options workflow total Horder Himages Hai HrunA Hquiet Hsteps Hedit Hab.
  assert (workflow ≠ []) as Hwf by (unfold workflow; by destruct stepsBefore).
  exists (update finally (update (stepFailed image step e) w2)).
  destruct (runImages_ranThrough provider options (runOptions_retry _ _)
              total workflow imagesBefore 0 (started w) wA Hwf HrunA)
    as (HlA & HeA & HoA).
  destruct (runSteps_ranThrough provider options (runOptions_retry _ _)
              image (length imagesBefore) total (length workflow)
              stepsBefore 0 (dataUrl image) current wA w1) as (Hl1 & He1 & Ho1).
  { unfold workflow. rewrite length_app. lia. }
  { exact Hsteps. }
  rewrite bool_decide_false in Ho1
    by (unfold workflow; rewrite length_app; cbn [length]; lia).
  rewrite app_nil_r in Ho1.
  set (w1' := update _ w1) in Hedit.
  pose proof (editImage_records provider options (runOptions_retry _ _)
                current (prompt step) w1') as (Hl2 & Ho2 & He2).
  rewrite Hedit in Hl2, Ho2, He2. cbn [snd] in Hl2, Ho2, He2.
  destruct (stepFailed_records image step e (caller w2) Hab) as (Hl3 & He3 & Ho3).
  split_and!.
  - unfold executeWorkflow. cbn [update caller nodes connections setError].
    rewrite Horder. cbn [mbind option_bind].
    unfold isApiKeySet. cbn [update ai]. rewrite Hai.
    rewrite bool_decide_true by eauto. cbn [negb].
    change (images (setError None (caller w))) with (images (caller w)).
    rewrite Himages.
    rewrite bool_decide_false by (by destruct imagesBefore).
    rewrite bool_decide_false by done.
    fold total. fold options.
    rewrite runImages_app, HrunA. cbn [runImages]. rewrite Hquiet.
    subst workflow. rewrite runSteps_app.
    cbn [Nat.add]. rewrite Hsteps. cbn [runSteps].
    unfold progress in w1'. fold w1'. by rewrite Hedit.
  - cbn [update caller finally setAbortController setLoadingMessage setIsLoading logs].
    rewrite Hl3, Hl2. unfold w1'. cbn [update caller setLoadingMessage logs].
    rewrite Hl1, HlA. cbn [started update caller setOutputs setIsLoading setRetryInfo
                            setAbortController setError logs].
    by rewrite <- !app_assoc.
  - cbn [update caller finally setAbortController setLoadingMessage setIsLoading error].
    exact He3.
  - apply errorText_names.
  - cbn [update caller finally setAbortController setLoadingMessage setIsLoading outputs].
    rewrite Ho3, Ho2. unfold w1'. cbn [update caller setLoadingMessage outputs].
    rewrite Ho1, HoA. done.
  - done.
  - done.
  - done.
Qed.

Lemma executeWorkflow_halts_on_first_failure_witness :
  let provider := fun (n : nat) (_ : Request) =>
    if bool_decide (n < 2) then imageResponse "OUT" else blockedResponse in
  ∃ (e : Thrown) (w2 final : World AppState),
    executeWorkflow provider 3 None twoByTwo = Some (Ok tt, final)
    ∧ logs (caller final)
      = logs (caller twoByTwo)
        ++ ([picture "1"] ≫= fun image' =>
              successLog image' <$> ([] ++ step "A" :: [step "B"]))
        ++ (successLog (picture "2") <$> [])
        ++ [mkLog "2.png" "step A" StatusFailure 0 0]
    ∧ error (caller final) = Some (errorText (picture "2") (step "A") e)
    ∧ (∃ before after,
         errorText (picture "2") (step "A") e
         = before +:+ Text.doubleQuote +:+ name (step "A") +:+ Text.doubleQuote
           +:+ " for "
           +:+ Text.doubleQuote +:+ file_name (picture "2") +:+ Text.doubleQuote
           +:+ after)
    ∧ originalImageId <$> outputs (caller final) = image_id <$> [picture "1"]
    ∧ trace final = trace w2 ∧ ticks final = ticks w2 ∧ calls final = calls w2.
Proof.
  intros provider. do 2 eexists.
  eapply (executeWorkflow_halts_on_first_failure provider 3 None twoByTwo _ _ _
            "key" _ [picture "1"] [] (picture "2") [] [step "B"] (step "A")).
  - reflexivity.
  - reflexivity.
  - reflexivity.
  - reflexivity.
  - reflexivity.
  - reflexivity.
  - reflexivity.
  - reflexivity.
Defined.

(** *** Every run *)

Lemma getExecutionOrder_length (fuel : nat) (nodes : list WorkflowNode)
    (connections : list Connection) (order : list WorkflowNode) :
  getExecutionOrder fuel nodes connections = Some (Ordered order) →
  length order = length nodes.
Proof.
  destruct (decide (nodes = [])) as [->|Hne]; [by intros [= <-]|].
  rewrite SchedulerFacts.getExecutionOrder_unfold by done.
  destruct (drain _ _ _ _ _ _) as [sortedOrder|]; [|done].
  cbn [mbind option_bind]. case_decide; [done|]. by intros [= <-].
Qed.

(** X15: a run calls the backend at most 16 times for each step of each
    image, whatever the backend answers and whenever the user cancels. *)
Theorem executeWorkflow_calls_bounded
    (provider : nat → Request → CallOutcome) (fuel : nat) (cancelDuring : option nat)
    (w w' : World AppState) (o : Outcome unit) :
  executeWorkflow provider fuel cancelDuring w = Some (o, w') →
  calls w' ≤ calls w + 16 * length (nodes (caller w)) * length (images (caller w)).
Proof.
  unfold executeWorkflow. cbn [update caller nodes connections setError].
  destruct (getExecutionOrder _ _ _) as [[workflow|]|] eqn:Horder;
    cbn [mbind option_bind]; [|intros [= <- <-]; cbn [update calls]; lia|done].
  destruct (negb _); [intros [= <- <-]; cbn [update calls]; lia|].
  case_bool_decide; [intros [= <- <-]; cbn [update calls]; lia|].
  case_bool_decide; [intros [= <- <-]; cbn [update calls]; lia|].
  change (images (setError None (caller w))) with (images (caller w)).
  pose proof (runImages_calls provider (runOptions cancelDuring w)
                (length (images (caller w))) workflow (images (caller w)) 0 (started w))
    as Hcalls.
  apply getExecutionOrder_length in Horder. rewrite Horder in Hcalls.
  destruct (runImages _ _ _ _ _ _ _) as [[exit|e] w2]; intros [= <- <-];
    cbn [snd update calls started] in *; lia.
Qed.

Lemma executeWorkflow_calls_bounded_witness :
  let provider := fun (_ : nat) (_ : Request) => Fails (Error "429 quota") in
  ∃ w' : World AppState,
    executeWorkflow provider 3 None twoByTwo = Some (Ok tt, w')
    ∧ calls w' ≤ calls twoByTwo
                 + 16 * length (nodes (caller twoByTwo)) * length (images (caller twoByTwo)).
Proof.
  intros provider. eexists. split; [by vm_compute|].
  apply (executeWorkflow_calls_bounded provider 3 None twoByTwo _ (Ok tt)).
  by vm_compute.
Defined.

(** The ways a run ends. *)
Lemma executeWorkflow_cases
    (provider : nat → Request → CallOutcome) (fuel : nat) (cancelDuring : option nat)
    (w w' : World AppState) (o : Outcome unit) :
  executeWorkflow provider fuel cancelDuring w = Some (o, w') →
  (o = Ok tt ∧ refused (caller w) (caller w')
   ∧ calls w' = calls w ∧ ticks w' = ticks w ∧ trace w' = trace w)
  ∨ ∃ workflow,
      getExecutionOrder fuel (nodes (caller w)) (connections (caller w))
      = Some (Ordered workflow)
      ∧ idle (caller w')
      ∧ (o = Ok tt ∧ completedRun workflow (caller w) (caller w')
         ∨ o = Ok tt ∧ cancelledOutcome (caller w) (caller w')
           ∧ completedWork workflow (caller w) (caller w')
         ∨ o = Ok tt ∧ failedStep workflow (caller w) (caller w')
         ∨ o = Throw (Error "Request aborted")
           ∧ interrupted workflow (caller w) (caller w')).
Proof.
  unfold executeWorkflow. cbn [update caller nodes connections setError].
  destruct (getExecutionOrder _ _ _) as [[workflow|]|] eqn:Horder;
    cbn [mbind option_bind]; [| |done].
  2:{ intros [= <- <-]. left. split_and!; try done. split; [by destruct w as [? ? ? ? []]|].
      cbn. set_solver. }
  destruct (negb _).
  { intros [= <- <-]. left. split_and!; try done. split; [by destruct w as [? ? ? ? []]|].
    cbn. set_solver. }
  case_bool_decide as Himages.
  { intros [= <- <-]. left. split_and!; try done. split; [by destruct w as [? ? ? ? []]|].
    cbn. set_solver. }
  case_bool_decide as Hworkflow.
  { intros [= <- <-]. left. split_and!; try done. split; [by destruct w as [? ? ? ? []]|].
    cbn. set_solver. }
  set (options := runOptions cancelDuring w).
  change (images (setError None (caller w))) with (images (caller w)) in *.
  set (total := length (images (caller w))).
  destruct (runImages provider options total workflow (images (caller w)) 0 (started w))
    as [exit w2] eqn:Hrun.
  intros Hend. right. exists workflow. split; [done|].
  assert (idle (caller w')) as Hidle by (by destruct exit; injection Hend as <- <-).
  split; [done|].
  destruct exit as [[]|e]; injection Hend as <- <-.
  - left. split; [done|].
    destruct (runImages_ranThrough provider options (runOptions_retry _ _)
                total workflow (images (caller w)) 0 (started w) w2 Hworkflow Hrun)
      as (Hl & He & Ho).
    by split_and!.
  - destruct (runImages_halted provider options total workflow (images (caller w))
                (started w) w2 (runOptions_retry _ _) Hrun)
      as (imagesBefore & image & imagesAfter & stepsBefore & step & stepsAfter
          & e & w3 & Himgs & Hwf & -> & Hlogs & Herror & Houts & _).
    cbn [started update caller setOutputs setIsLoading setRetryInfo setAbortController
           setError logs outputs error fmap list_fmap app] in Hlogs, Houts, Herror.
    right. destruct (isAbort e) eqn:Hab.
    + left. split; [done|].
      destruct (stepFailed_cancelled image step e (caller w3) Hab)
        as (Hn3 & Hl3 & He3 & Ho3).
      split.
      * split_and!; [done|by rewrite <- Herror|].
        eexists. split; [cbn [update caller finally]; by rewrite <- Hlogs|].
        apply Forall_app. split; [|apply successLog_status].
        apply Forall_forall. intros entry (image' & Hentry & _)%list_elem_of_bind.
        by apply list_elem_of_fmap in Hentry as (? & -> & _).
      * exists imagesBefore, image, imagesAfter, stepsBefore, step, stepsAfter.
        split_and!; [done..| |].
        -- by rewrite <- Hlogs.
        -- by rewrite <- Houts, <- Ho3.
    + right. left. split; [done|].
      destruct (stepFailed_records image step e (caller w3) Hab) as (Hl3 & He3 & Ho3).
      exists imagesBefore, image, imagesAfter, stepsBefore, step, stepsAfter, e.
      split_and!; [done..| | |].
      * exact He3.
      * cbn [update caller finally setAbortController setLoadingMessage
               setIsLoading logs].
        rewrite Hl3, Hlogs. by rewrite <- !app_assoc.
      * by rewrite <- Houts, <- Ho3.
  - right. right. right.
    apply (runImages_thrown provider options) in Hrun
      as (-> & imagesBefore & image & imagesAfter & Himgs & Hbefore).
    split; [done|].
    destruct (runImages_ranThrough provider options (runOptions_retry _ _)
                total workflow imagesBefore 0 (started w) w2 Hworkflow Hbefore)
      as (Hl & He & Ho).
    exists imagesBefore, image, imagesAfter. by split_and!.
Qed.

(** With distinct step ids and enough fuel the run returns. *)
Lemma executeWorkflow_total
    (provider : nat → Request → CallOutcome) (fuel : nat) (cancelDuring : option nat)
    (w : World AppState) :
  NoDup (id <$> nodes (caller w)) →
  enoughFuel (nodes (caller w)) (connections (caller w)) ≤ fuel →
  ∃ o w', executeWorkflow provider fuel cancelDuring w = Some (o, w').
Proof.
  intros Hids Hfuel.
  destruct (SchedulerFacts.getExecutionOrder_total _ _ _ Hids Hfuel) as [r Hr].
  unfold executeWorkflow. cbn [update caller nodes connections setError].
  rewrite Hr. cbn [mbind option_bind].
  destruct r as [workflow|]; [|by eexists _, _].
  destruct (negb _); [by eexists _, _|].
  case_bool_decide; [by eexists _, _|].
  case_bool_decide; [by eexists _, _|].
  destruct (runImages _ _ _ _ _ _ _) as [[exit|e] w2]; by eexists _, _.
Qed.

(** X16: on a graph whose steps have distinct ids every run ends, and it
    ends in one of five ways.  It is refused before it starts: one of the
    four messages is shown, nothing else changes and the backend is not
    called.  Or it goes through: every step of every image has its record
    and every image its output.  Or it is cancelled at a step, or it
    fails at a step: the records and outputs of what was completed before
    are kept.  Or the abort check between two images rejects the promise.
    In the last four cases nothing is loading and no controller is stored
    when the run is over.  (With a duplicated id on a cycle the loop of
    the scheduler does not end, and neither does the run.) *)
Theorem executeWorkflow_outcomes
    (provider : nat → Request → CallOutcome) (fuel : nat) (cancelDuring : option nat)
    (w : World AppState) :
  NoDup (id <$> nodes (caller w)) →
  enoughFuel (nodes (caller w)) (connections (caller w)) ≤ fuel →
  ∃ o w',
    executeWorkflow provider fuel cancelDuring w = Some (o, w')
    ∧ ((o = Ok tt ∧ refused (caller w) (caller w')
        ∧ calls w' = calls w ∧ ticks w' = ticks w ∧ trace w' = trace w)
       ∨ ∃ workflow,
           getExecutionOrder fuel (nodes (caller w)) (connections (caller w))
           = Some (Ordered workflow)
           ∧ idle (caller w')
           ∧ (o = Ok tt ∧ completedRun workflow (caller w) (caller w')
              ∨ o = Ok tt ∧ cancelledOutcome (caller w) (caller w')
                ∧ completedWork workflow (caller w) (caller w')
              ∨ o = Ok tt ∧ failedStep workflow (caller w) (caller w')
              ∨ o = Throw (Error "Request aborted")
                ∧ interrupted workflow (caller w) (caller w'))).
Proof.
  intros Hids Hfuel.
  destruct (executeWorkflow_total provider fuel cancelDuring w Hids Hfuel)
    as (o & w' & Hrun).
  exists o, w'. split; [exact Hrun|]. by apply (executeWorkflow_cases provider fuel cancelDuring).
Qed.

Lemma executeWorkflow_outcomes_witness :
  let provider := fun (_ : nat) (_ : Request) => imageResponse "OUT" in
  ∃ o w',
    executeWorkflow provider 4 None twoByTwo = Some (o, w')
    ∧ ((o = Ok tt ∧ refused (caller twoByTwo) (caller w')
        ∧ calls w' = calls twoByTwo ∧ ticks w' = ticks twoByTwo
        ∧ trace w' = trace twoByTwo)
       ∨ ∃ workflow,
           getExecutionOrder 4 (nodes (caller twoByTwo)) (connections (caller twoByTwo))
           = Some (Ordered workflow)
           ∧ idle (caller w')
           ∧ (o = Ok tt ∧ completedRun workflow (caller twoByTwo) (caller w')
              ∨ o = Ok tt ∧ cancelledOutcome (caller twoByTwo) (caller w')
                ∧ completedWork workflow (caller twoByTwo) (caller w')
              ∨ o = Ok tt ∧ failedStep workflow (caller twoByTwo) (caller w')
              ∨ o = Throw (Error "Request aborted")
                ∧ interrupted workflow (caller twoByTwo) (caller w'))).
Proof.
  intros provider.
  apply (executeWorkflow_outcomes provider 4 None twoByTwo).
  - by apply (bool_decide_unpack _).
  - vm_compute. lia.
Defined.

(** *** The outputs that are shown *)

(** X17: after a run that was not refused, every output that is shown is
    an image that the backend returned in this run: one of the calls of
    the run, whose request is in the trace and carried the prompt of the
    last step of the order, was made for one of the images of the run,
    and the output holds the image that the service read from the
    response to that call. *)
Theorem executeWorkflow_outputs
    (provider : nat → Request → CallOutcome) (fuel : nat) (cancelDuring : option nat)
    (w w' : World AppState) (o : Outcome unit) :
  executeWorkflow provider fuel cancelDuring w = Some (o, w') →
  refused (caller w) (caller w')
  ∨ ∃ workflow final events,
      getExecutionOrder fuel (nodes (caller w)) (connections (caller w))
      = Some (Ordered workflow)
      ∧ last workflow = Some final
      ∧ adds events w w'
      ∧ Forall (produced provider w events (images (caller w)) final)
          (outputs (caller w')).
Proof.
  unfold executeWorkflow. cbn [update caller nodes connections setError].
  destruct (getExecutionOrder _ _ _) as [[workflow|]|] eqn:Horder;
    cbn [mbind option_bind]; [| |done].
  2:{ intros [= <- <-]. left. split; [by destruct w as [? ? ? ? []]|]. cbn. set_solver. }
  destruct (negb _).
  { intros [= <- <-]. left. split; [by destruct w as [? ? ? ? []]|]. cbn. set_solver. }
  case_bool_decide as Himages.
  { intros [= <- <-]. left. split; [by destruct w as [? ? ? ? []]|]. cbn. set_solver. }
  case_bool_decide as Hworkflow.
  { intros [= <- <-]. left. split; [by destruct w as [? ? ? ? []]|]. cbn. set_solver. }
  change (images (setError None (caller w))) with (images (caller w)) in *.
  destruct (last workflow) as [final|] eqn:Hlast;
    [|by apply last_None in Hlast].
  destruct (runImages_shown provider (runOptions cancelDuring w) (runOptions_retry _ _)
              w (images (caller w)) final (length (images (caller w))) workflow
              (images (caller w)) ltac:(done) Hlast 0 (started w) []
              (started_adds w) ltac:(constructor)) as (events & Hadds & Hshown).
  destruct (runImages _ _ _ _ _ _ _) as [[exit|e] w2]; intros [= <- <-];
    right; exists workflow, final, events;
    (split_and!; [done|done|by apply adds_update_r|exact Hshown]).
Qed.

Lemma executeWorkflow_outputs_witness :
  let provider := fun (_ : nat) (_ : Request) => imageResponse "OUT" in
  ∃ w' : World AppState,
    executeWorkflow provider 3 None twoByTwo = Some (Ok tt, w')
    ∧ (refused (caller twoByTwo) (caller w')
       ∨ ∃ workflow final events,
           getExecutionOrder 3 (nodes (caller twoByTwo)) (connections (caller twoByTwo))
           = Some (Ordered workflow)
           ∧ last workflow = Some final
           ∧ adds events twoByTwo w'
           ∧ Forall (produced provider twoByTwo events (images (caller twoByTwo)) final)
               (outputs (caller w'))).
Proof.
  intros provider. eexists. split; [by vm_compute|].
  apply (executeWorkflow_outputs provider 3 None twoByTwo _ (Ok tt)).
  by vm_compute.
Defined.

End AppFacts.

(** * Properties of the API key handling *)

Module ConfigFacts.
Import Text Gemini Config.

Lemma trimEnd_cons (c : ascii) (s : string) :
  isSpace c = false → trimEnd (String c s) = String c (trimEnd s).
Proof. intros Hc. cbn [trimEnd]. rewrite Hc. by destruct (trimEnd s). Qed.

(** Trimming keeps a prefix that has no white space. *)
Lemma trim_AI (rest : string) : trim ("AI" +:+ rest) = "AI" +:+ trimEnd rest.
Proof.
  change ("AI" +:+ rest) with (String "A" (String "I" rest)).
  unfold trim. cbn [trimStart]. change (isSpace "A") with false. cbv iota.
  by rewrite !trimEnd_cons.
Qed.

Lemma handleSave_spec (text key : string) :
  handleSave text = HandsOn key →
  key = trim text ∧ key ≠ "" ∧ startsWith "AI" key = true ∧ 30 ≤ String.length text.
Proof.
  unfold handleSave. destruct (truthy (trim text)) eqn:Htrim; [|done]. cbn [negb].
  destruct (startsWith "AI" text) eqn:Hstart; [|done]. cbn [negb orb].
  case_bool_decide as Hlen; [done|]. intros [= <-].
  split_and!; [done| |  |lia].
  - by destruct (trim text).
  - unfold startsWith in Hstart.
    destruct (stripPrefix false "AI" text) as [rest|] eqn:Hrest; [|done].
    apply GeminiFacts.stripPrefix_spec in Hrest as ->. by rewrite trim_AI.
Qed.

Lemma handleApiKeyChange_stores (key : string) (w : World KeyState) :
  key ≠ "" →
  let w' := handleApiKeyChange false key w in
  ai w' = Some key ∧ apiKey (caller w') = key
  ∧ localStorage (caller w') = <["gemini-api-key":=key]> (localStorage (caller w))
  ∧ error (caller w') = error (caller w).
Proof.
  intros Hkey. unfold handleApiKeyChange, setApiKey.
  destruct key as [|c key]; [done|]. by cbn.
Qed.

(** X18: a key that the dialog accepts is the trimmed text of the input; it
    is not empty and starts with AI, and the text has at least 30
    characters.  Handed to [handleApiKeyChange], with a storage that
    takes it, it becomes the key of the client and of the input, it is
    stored, and no error is shown. *)
Theorem handleSave_configures (text key : string) (w : World KeyState) :
  handleSave text = HandsOn key →
  key = trim text ∧ key ≠ "" ∧ startsWith "AI" key = true ∧ 30 ≤ String.length text
  ∧ let w' := handleApiKeyChange false key w in
    isApiKeySet w' = true ∧ ai w' = Some key ∧ apiKey (caller w') = key
    ∧ localStorage (caller w') !! "gemini-api-key" = Some key
    ∧ error (caller w') = error (caller w).
Proof.
  intros (-> & Hkey & Hstart & Hlen)%handleSave_spec. split_and!; [done..|].
  destruct (handleApiKeyChange_stores (trim text) w Hkey) as (Hai & Hstate & Hstore & Herr).
  cbv zeta. split_and!; [|done..| |done].
  - unfold isApiKeySet. rewrite Hai. by apply bool_decide_eq_true_2.
  - rewrite Hstore. apply lookup_insert_eq.
Qed.

Lemma handleSave_configures_witness :
  let text := "AIzaSy-0123456789-0123456789-abc  " in
  let key := "AIzaSy-0123456789-0123456789-abc" in
  let w := reloaded ∅ in
  handleSave text = HandsOn key
  ∧ key = trim text ∧ key ≠ "" ∧ startsWith "AI" key = true ∧ 30 ≤ String.length text
  ∧ let w' := handleApiKeyChange false key w in
    isApiKeySet w' = true ∧ ai w' = Some key ∧ apiKey (caller w') = key
    ∧ localStorage (caller w') !! "gemini-api-key" = Some key
    ∧ error (caller w') = error (caller w).
Proof.
  intros text key w. split; [by vm_compute|].
  apply (handleSave_configures text key w). by vm_compute.
Defined.
(** X19: a key stored in one session is the key of the client and of the
    input after the page is loaded anew. *)
Theorem saved_key_survives_reload (key : string) (w : World KeyState) :
  key ≠ "" →
  let w' := loadApiKey (reloaded (localStorage (caller (handleApiKeyChange false key w)))) in
  isApiKeySet w' = true ∧ ai w' = Some key ∧ apiKey (caller w') = key.
Proof.
  intros Hkey.
  destruct (handleApiKeyChange_stores key w Hkey) as (_ & _ & -> & _).
  unfold loadApiKey, reloaded. cbn [caller localStorage].
  rewrite lookup_insert_eq. destruct key as [|c key]; [done|]. by cbn.
Qed.

Lemma saved_key_survives_reload_witness :
  let key := "AIzaSy-0123456789-0123456789-abc" in
  let w' := loadApiKey (reloaded (localStorage
                                    (caller (handleApiKeyChange false key (reloaded ∅))))) in
  isApiKeySet w' = true ∧ ai w' = Some key ∧ apiKey (caller w') = key.
Proof.
  intros key. apply (saved_key_survives_reload key (reloaded ∅)). done.
Defined.

(** X20: clearing the key empties the input and the storage but leaves the
    client of the service as it is: the service keeps the old key until
    the page is loaded anew, and has none after that. *)
Theorem handleClear_keeps_client (setItemThrows : bool) (key : string)
    (w : World KeyState) :
  handleClear = HandsOn key →
  let w' := handleApiKeyChange setItemThrows key w in
  apiKey (caller w') = "" ∧ localStorage (caller w') !! "gemini-api-key" = None
  ∧ error (caller w') = error (caller w)
  ∧ ai w' = ai w
  ∧ isApiKeySet (loadApiKey (reloaded (localStorage (caller w')))) = false.
Proof.
  intros [= <-]. cbn. split_and!; [done| |done..|].
  - apply lookup_delete_eq.
  - unfold loadApiKey. cbn. by rewrite lookup_delete_eq.
Qed.

Lemma handleClear_keeps_client_witness :
  let w := handleApiKeyChange false "AIzaSy-0123456789-0123456789-abc" (reloaded ∅) in
  let w' := handleApiKeyChange false "" w in
  apiKey (caller w') = "" ∧ localStorage (caller w') !! "gemini-api-key" = None
  ∧ error (caller w') = error (caller w)
  ∧ ai w' = ai w
  ∧ isApiKeySet (loadApiKey (reloaded (localStorage (caller w')))) = false.
Proof.
  intros w. apply (handleClear_keeps_client false "" w). reflexivity.
Defined.

End ConfigFacts.

(** * Properties of the dashboard *)

Module DashboardFacts.
Import Scheduler Gemini App Dashboard AppFacts.



Lemma successes_images (imgs : list ImageFile) (steps : list WorkflowNode) :
  successes (imgs ≫= fun image => successLog image <$> steps).
Proof.
  apply Forall_forall. intros entry (image & Hentry & _)%list_elem_of_bind.
  apply list_elem_of_fmap in Hentry as (step & -> & _). by exists image, step.
Qed.






(** A run over no step is refused with a message. *)
Lemma executeWorkflow_no_step
    (provider : nat → Request → CallOutcome) (fuel : nat) (cancelDuring : option nat)
    (w w' : World AppState) (o : Outcome unit) :
  executeWorkflow provider fuel cancelDuring w = Some (o, w') →
  nodes (caller w) = [] → is_Some (error (caller w')).
Proof.
  unfold executeWorkflow. cbn [update caller nodes connections setError].
  destruct (getExecutionOrder _ _ _) as [[workflow|]|] eqn:Horder;
    cbn [mbind option_bind]; [|by intros [= <- <-]|done].
  destruct (negb _); [by intros [= <- <-]|].
  case_bool_decide; [by intros [= <- <-]|].
  case_bool_decide as Hworkflow; [by intros [= <- <-]|].
  intros _ Hnodes. apply getExecutionOrder_length in Horder.
  rewrite Hnodes in Horder. by destruct workflow.
Qed.

Lemma names_steps (image : ImageFile) (steps : list WorkflowNode) :
  steps ≠ [] →
  (list_to_set (imageName <$> (successLog image <$> steps)) : gset string)
  = {[file_name image]}.
Proof.
  intros Hsteps. apply set_eq. intros x.
  rewrite elem_of_list_to_set, list_elem_of_fmap, elem_of_singleton. split.
  - intros (entry & -> & (step & -> & _)%list_elem_of_fmap). done.
  - intros ->. destruct steps as [|step steps]; [done|].
    exists (successLog image step). split; [done|]. apply list_elem_of_fmap.
    exists step. split; [done|]. apply list_elem_of_here.
Qed.

Lemma names_images (imgs : list ImageFile) (steps : list WorkflowNode) :
  steps ≠ [] →
  (list_to_set (imageName <$> (imgs ≫= fun image => successLog image <$> steps))
   : gset string)
  = list_to_set (file_name <$> imgs).
Proof.
  intros Hsteps. induction imgs as [|image imgs IH]; [done|].
  cbn [mbind list_bind fmap list_fmap]. rewrite fmap_app, list_to_set_app_L.
  rewrite names_steps by done. cbn [list_to_set]. f_equal. exact IH.
Qed.

Lemma successes_kept (logs added : list OperationLog) :
  successes added → successfulOps (logs ++ added) = successfulOps logs ++ added.
Proof.
  unfold successfulOps. intros Hadded. rewrite filter_app. f_equal.
  induction Hadded as [|entry added (image & step & ->) _ IH]; [done|].
  rewrite filter_cons. cbn. by rewrite IH.
Qed.

(** X22: when a run ends with no error shown and with an output for every
    image, the images that the dashboard counts are those it counted
    before and the file names of the images of the run: two images of
    the same name count once. *)
Theorem uniqueImages_after_run
    (provider : nat → Request → CallOutcome) (fuel : nat) (cancelDuring : option nat)
    (w w' : World AppState) (o : Outcome unit) :
  executeWorkflow provider fuel cancelDuring w = Some (o, w') →
  error (caller w') = None →
  length (outputs (caller w')) = length (images (caller w)) →
  uniqueImages (logs (caller w'))
  = size ((list_to_set (imageName <$> successfulOps (logs (caller w))) : gset string)
          ∪ list_to_set (file_name <$> images (caller w))).
Proof.
  intros Hrun He Hlen.
  assert (nodes (caller w) ≠ []) as Hnodes.
  { intros Hnodes. destruct (executeWorkflow_no_step _ _ _ _ _ _ Hrun Hnodes) as [m Hm].
    by rewrite Hm in He. }
  apply executeWorkflow_cases in Hrun
    as [(_ & [Hsame Herr] & _)|(workflow & Horder & _ & Hcase)].
  { rewrite He in Herr. set_solver. }
  apply getExecutionOrder_length in Horder.
  assert (workflow ≠ []) as Hworkflow.
  { intros ->. by destruct (nodes (caller w)). }
  assert (∃ done_,
            logs (caller w')
            = logs (caller w) ++ (done_ ≫= fun image => successLog image <$> workflow)
            ∧ length done_ = length (images (caller w))
            ∧ ∃ rest, images (caller w) = done_ ++ rest) as (done_ & Hl & Hd & rest & Hi).
  { destruct Hcase as [(_ & _ & Hl & Ho)|[(_ & _ & Hwork)|[(_ & Hfail)|(_ & Hint)]]].
    - exists (images (caller w)). split_and!; [done..|]. exists []. by rewrite app_nil_r.
    - destruct Hwork as (imagesBefore & image & imagesAfter & stepsBefore & step
                         & stepsAfter & Himgs & _ & _ & Ho).
      apply (f_equal length) in Ho. rewrite !length_fmap in Ho.
      rewrite Himgs, length_app in Hlen. cbn [length] in Hlen. lia.
    - destruct Hfail as (? & ? & ? & ? & ? & ? & ? & _ & _ & _ & He' & _).
      by rewrite He' in He.
    - destruct Hint as (imagesBefore & image & imagesAfter & Himgs & _ & _ & Ho).
      apply (f_equal length) in Ho. rewrite !length_fmap in Ho.
      rewrite Himgs, length_app in Hlen. cbn [length] in Hlen. lia. }
  assert (rest = []) as ->.
  { apply (f_equal length) in Hi. rewrite length_app in Hi. destruct rest; [done|].
    cbn [length] in Hi. lia. }
  rewrite app_nil_r in Hi. subst done_.
  unfold uniqueImages. rewrite Hl, successes_kept by apply successes_images.
  by rewrite fmap_app, list_to_set_app_L, names_images.
Qed.

Lemma uniqueImages_after_run_witness :
  let provider := fun (_ : nat) (_ : Request) => imageResponse "OUT" in
  ∃ w' : World AppState,
    executeWorkflow provider 3 None twoByTwo = Some (Ok tt, w')
    ∧ uniqueImages (logs (caller w'))
      = size ((list_to_set (imageName <$> successfulOps (logs (caller twoByTwo)))
               : gset string)
              ∪ list_to_set (file_name <$> images (caller twoByTwo))).
Proof.
  intros provider. eexists. split; [by vm_compute|].
  apply (uniqueImages_after_run provider 3 None twoByTwo _ (Ok tt)); by vm_compute.
Defined.

End DashboardFacts.
